(** * B+ tree and extendible hash table: model and properties

    A shallow embedding of [Bplustree.py] and [ExtendibleHash.py].
    Python objects live in an object store (a list); a reference to an
    object is its index in the store, so aliasing and in-place mutation are
    explicit.  A computation that raises, or that runs out of the fuel
    given to a loop whose bound is not syntactic, yields [None]. *)

From Stdlib Require Import ZArith Lia List Sorted Permutation Ascii DecimalString DecimalNat.
From stdpp Require Import base option list sorting strings gmap.

Local Open Scope Z_scope.

#[local] Set Warnings "-clear-no-such-hyp".

(** [list.insert(position, x)] for [0 <= position]: positions past the end
    append. *)
Definition py_insert {A} (position : nat) (x : A) (l : list A) : list A :=
  take position l ++ x :: drop position l.

(** [list.index(x)]: the first position holding [x]; raises when absent. *)
Fixpoint py_index (x : nat) (l : list nat) : option nat :=
  match l with
  | [] => None
  | y :: r => if decide (y = x) then Some 0%nat else S <$> py_index x r
  end.

(** ** Text lines

    [str.strip()] and [int(str)] on ASCII text, which is what a key file
    holds: a character above 127 counts as neither blank nor digit. *)

(** The ASCII characters [str.isspace] accepts. *)
Definition is_space (c : ascii) : bool :=
  let n := nat_of_ascii c in
  ((9 <=? n) && (n <=? 13) || (28 <=? n) && (n <=? 32))%nat.

Fixpoint lstrip (l : list ascii) : list ascii :=
  match l with
  | [] => []
  | c :: r => if is_space c then lstrip r else l
  end.

(** [line.strip()] *)
Definition py_strip (s : string) : string :=
  String.string_of_list_ascii
    (rev (lstrip (rev (lstrip (String.list_ascii_of_string s))))).

Definition digit_of (c : ascii) : option Z :=
  let n := nat_of_ascii c in
  if ((48 <=? n) && (n <=? 57))%nat then Some (Z.of_nat (n - 48)) else None.

(** Decimal digits, with single underscores between digits.
    [after_digit] tells whether the previous character was a digit. *)
Fixpoint parse_digits (acc : Z) (after_digit : bool) (l : list ascii) : option Z :=
  match l with
  | [] => if after_digit then Some acc else None
  | c :: r =>
      match digit_of c with
      | Some d => parse_digits (10 * acc + d) true r
      | None =>
          if after_digit && Ascii.eqb c "_" then parse_digits acc false r
          else None
      end
  end.

(** [int(s)] for a string: [None] is [ValueError]. *)
Definition py_int (s : string) : option Z :=
  match String.list_ascii_of_string (py_strip s) with
  | "+"%char :: r => parse_digits 0 false r
  | "-"%char :: r => Z.opp <$> parse_digits 0 false r
  | l => parse_digits 0 false l
  end.

(** ** Bplustree.py *)
Module BPlus.

(** [class Node] with its two subclasses.  [parent] and [pointer] hold
    references (store indices). *)
Inductive Node :=
| Leaf (keys : list Z) (parent : option nat) (values : list Z) (pointer : option nat)
| Internal (keys : list Z) (parent : option nat) (children : list nat).

Definition keys (n : Node) : list Z :=
  match n with Leaf ks _ _ _ => ks | Internal ks _ _ => ks end.

Definition parent (n : Node) : option nat :=
  match n with Leaf _ p _ _ => p | Internal _ p _ => p end.

Definition is_leaf_node (n : Node) : bool :=
  match n with Leaf _ _ _ _ => true | Internal _ _ _ => false end.

Definition set_parent (p : option nat) (n : Node) : Node :=
  match n with
  | Leaf ks _ vs ptr => Leaf ks p vs ptr
  | Internal ks _ cs => Internal ks p cs
  end.

(** [Node.is_full] *)
Definition is_full (n : Node) : bool := (4 <=? length (keys n))%nat.

(** The loop [while position < len(keys) and key > keys[position]]. *)
Fixpoint position_gt (key : Z) (ks : list Z) : nat :=
  match ks with
  | x :: r => if x <? key then S (position_gt key r) else 0%nat
  | [] => 0%nat
  end.

(** The loop [while position < len(keys) and key >= keys[position]]. *)
Fixpoint position_ge (key : Z) (ks : list Z) : nat :=
  match ks with
  | x :: r => if x <=? key then S (position_ge key r) else 0%nat
  | [] => 0%nat
  end.

(** [Leaf.insert_key_and_value]: the flag returned and the leaf afterwards. *)
Definition insert_key_and_value (key value : Z) (n : Node) : option (bool * Node) :=
  match n with
  | Leaf ks par vs ptr =>
      let position := position_gt key ks in
      if decide (ks !! position = Some key) then Some (false, n)
      else Some (true, Leaf (py_insert position key ks) par
                            (py_insert position value vs) ptr)
  | Internal _ _ _ => None
  end.

Record BPlusTree := {
  nodes : list Node;
  root : nat;
  leaf_num : nat
}.

(** [BPlusTree.__init__] *)
Definition new : BPlusTree :=
  {| nodes := [Leaf [] None [] None]; root := 0%nat; leaf_num := 1%nat |}.

(** The descent shared by [search] and [insert]:
    [while not node.is_leaf_node: ... node = node.children[position]]. *)
Fixpoint find_leaf (fuel : nat) (h : list Node) (node : nat) (key : Z) : option nat :=
  match fuel with
  | O => None
  | S fuel' =>
      match h !! node with
      | Some (Leaf _ _ _ _) => Some node
      | Some (Internal ks _ cs) =>
          match cs !! position_ge key ks with
          | Some c => find_leaf fuel' h c key
          | None => None
          end
      | None => None
      end
  end.

(** [for i, j in enumerate(node.keys): if j == key: return node.values[i]] *)
Fixpoint scan (key : Z) (i : nat) (ks vs : list Z) : option (option Z) :=
  match ks with
  | [] => Some None
  | j :: r => if decide (j = key) then Some <$> vs !! i else scan key (S i) r vs
  end.

(** [BPlusTree.search]: [Some None] is Python's [None], [Some (Some v)] a
    stored value. *)
Definition search (t : BPlusTree) (key : Z) : option (option Z) :=
  match find_leaf (length (nodes t)) (nodes t) (root t) key with
  | Some leaf =>
      match nodes t !! leaf with
      | Some (Leaf ks _ vs _) => scan key 0 ks vs
      | _ => None
      end
  | None => None
  end.

(** [for child in new_node.children: child.parent = new_node] *)
Definition set_parents (cs : list nat) (p : nat) (h : list Node) : list Node :=
  foldl (fun h c => alter (set_parent (Some p)) c h) h cs.

(** The first half of [split_node]: the sibling is allocated at the end of
    the store and the node is cut; yields the store, the sibling and the
    key that moves up. *)
Definition split_halves (h : list Node) (node : nat) (n : Node)
  : option (list Node * Z) :=
  let new_node := length h in
  match n with
  | Leaf ks par vs ptr =>
      let mid := (length ks / 2)%nat in
      match head (drop mid ks) with
      | Some copied_or_pushed_key =>
          Some (<[node := Leaf (take mid ks) par (take mid vs) (Some new_node)]> h
                  ++ [Leaf (drop mid ks) None (drop mid vs) ptr],
                copied_or_pushed_key)
      | None => None
      end
  | Internal ks par cs =>
      let mid := (length ks / 2)%nat in
      match ks !! mid with
      | Some copied_or_pushed_key =>
          Some (set_parents (drop (S mid) cs) new_node
                  (<[node := Internal (take mid ks) par (take (S mid) cs)]> h
                     ++ [Internal (drop (S mid) ks) None (drop (S mid) cs)]),
                copied_or_pushed_key)
      | None => None
      end
  end.

(** The body of [split_node] up to its recursive call: the tree afterwards,
    and the parent when [len(parent.keys) > 4] asks for its split. *)
Definition split_step (t : BPlusTree) (node : nat) : option (BPlusTree * option nat) :=
  match nodes t !! node with
  | None => None
  | Some n =>
      let new_node := length (nodes t) in
      let leaves := if is_leaf_node n then S (leaf_num t) else leaf_num t in
      match split_halves (nodes t) node n with
      | None => None
      | Some (h1, copied_or_pushed_key) =>
          match parent n with
          | None =>
              let new_root := length h1 in
              let h2 := h1 ++ [Internal [copied_or_pushed_key] None [node; new_node]] in
              let h3 := alter (set_parent (Some new_root)) node h2 in
              let h4 := alter (set_parent (Some new_root)) new_node h3 in
              Some ({| nodes := h4; root := new_root; leaf_num := leaves |}, None)
          | Some p =>
              match h1 !! p with
              | Some (Internal pks ppar pcs) =>
                  match py_index node pcs with
                  | Some position =>
                      let pks' := py_insert position copied_or_pushed_key pks in
                      let pcs' := py_insert (S position) new_node pcs in
                      let h2 := <[p := Internal pks' ppar pcs']> h1 in
                      let h3 := alter (set_parent (Some p)) new_node h2 in
                      Some ({| nodes := h3; root := root t; leaf_num := leaves |},
                            if (4 <? length pks')%nat then Some p else None)
                  | None => None
                  end
              | _ => None
              end
          end
      end
  end.

(** [BPlusTree.split_node]; the recursion climbs the parent links. *)
Fixpoint split_node (fuel : nat) (t : BPlusTree) (node : nat) : option BPlusTree :=
  match fuel with
  | O => None
  | S fuel' =>
      match split_step t node with
      | None => None
      | Some (t', None) => Some t'
      | Some (t', Some p) => split_node fuel' t' p
      end
  end.

(** [BPlusTree.insert(key, value=None)]: the flag returned and the tree
    afterwards. *)
Definition insert (t : BPlusTree) (key : Z) (value : option Z)
  : option (bool * BPlusTree) :=
  let value := default key value in
  match nodes t !! root t with
  | None => None
  | Some r =>
      if decide (length (keys r) = 0%nat) then
        match r with
        | Leaf ks par vs ptr =>
            Some (true, {| nodes := <[root t := Leaf (ks ++ [key]) par (vs ++ [value]) ptr]> (nodes t);
                           root := root t; leaf_num := leaf_num t |})
        | Internal _ _ _ => None
        end
      else
        match find_leaf (length (nodes t)) (nodes t) (root t) key with
        | None => None
        | Some node =>
            match nodes t !! node with
            | None => None
            | Some n =>
                match insert_key_and_value key value n with
                | None => None
                | Some (false, _) => Some (false, t)
                | Some (true, n') =>
                    let t' := {| nodes := <[node := n']> (nodes t);
                                 root := root t; leaf_num := leaf_num t |} in
                    if is_full n' then
                      match split_node (length (nodes t)) t' node with
                      | Some t'' => Some (true, t'')
                      | None => None
                      end
                    else Some (true, t')
                end
            end
        end
  end.

(** A run of inserts, with the flags they return; [None] if one of them
    raises. *)
Fixpoint insert_all (t : BPlusTree) (ops : list (Z * option Z))
  : option (list bool * BPlusTree) :=
  match ops with
  | [] => Some ([], t)
  | (k, v) :: r =>
      match insert t k v with
      | Some (b, t') =>
          match insert_all t' r with
          | Some (bs, t'') => Some (b :: bs, t'')
          | None => None
          end
      | None => None
      end
  end.

(** The leftmost leaf: follow [children[0]] from the root. *)
Fixpoint leftmost (fuel : nat) (h : list Node) (node : nat) : option nat :=
  match fuel with
  | O => None
  | S fuel' =>
      match h !! node with
      | Some (Leaf _ _ _ _) => Some node
      | Some (Internal _ _ cs) =>
          match cs !! 0%nat with
          | Some c => leftmost fuel' h c
          | None => None
          end
      | None => None
      end
  end.

(** Follow the [pointer] links from a leaf, collecting the key sequences. *)
Fixpoint chain_keys (fuel : nat) (h : list Node) (leaf : nat) : option (list Z) :=
  match fuel with
  | O => None
  | S fuel' =>
      match h !! leaf with
      | Some (Leaf ks _ _ ptr) =>
          match ptr with
          | None => Some ks
          | Some next => app ks <$> chain_keys fuel' h next
          end
      | _ => None
      end
  end.

Definition leaf_chain (t : BPlusTree) : option (list Z) :=
  match leftmost (length (nodes t)) (nodes t) (root t) with
  | Some l => chain_keys (length (nodes t)) (nodes t) l
  | None => None
  end.

(** What [load_from_file] prints. *)
Inductive output :=
| Inserted (key : Z)
| NotFound (filename : string)
| InvalidValue (filename : string).

(** The loop of [load_from_file]: the first line that [int] rejects raises
    [ValueError], which leaves the loop for the handler around it.  The
    result is [None] only when [insert] itself does not return. *)
Fixpoint load_lines (filename : string) (t : BPlusTree) (lines : list string)
  : option (BPlusTree * list output) :=
  match lines with
  | [] => Some (t, [])
  | line :: rest =>
      match py_int (py_strip line) with
      | None => Some (t, [InvalidValue filename])
      | Some number =>
          match insert t number None with
          | None => None
          | Some (b, t') =>
              match load_lines filename t' rest with
              | None => None
              | Some (t'', out) =>
                  Some (t'', (if b then [Inserted number] else []) ++ out)
              end
          end
      end
  end.

(** [BPlusTree.load_from_file]; [file] is [None] when there is no file of
    that name, else its lines. *)
Definition load_from_file (t : BPlusTree) (filename : string)
    (file : option (list string)) : option (BPlusTree * list output) :=
  match file with
  | None => Some (t, [NotFound filename])
  | Some lines => load_lines filename t lines
  end.

End BPlus.

(** ** Ghost state and invariant of the B+ tree *)
Module BPlusInv.
Import BPlus.

Definition values (n : Node) : list Z :=
  match n with Leaf _ _ vs _ => vs | Internal _ _ _ => [] end.

Definition pointer (n : Node) : option nat :=
  match n with Leaf _ _ _ ptr => ptr | Internal _ _ _ => None end.

(** Per node: its height above the leaves and the half-open key interval
    [lo, hi) it is responsible for ([None] is an infinite end); and the
    leaves in chain order. *)
Record ghost := {
  lvl : nat → nat;
  lo : nat → option Z;
  hi : nat → option Z;
  chain : list nat
}.

Definition in_range (l u : option Z) (k : Z) : Prop :=
  (∀ a, l = Some a → a <= k) ∧ (∀ b, u = Some b → k < b).

Definition bound_le (l u : option Z) : Prop :=
  ∀ a b, l = Some a → u = Some b → a <= b.

Definition child_lo (l : option Z) (ks : list Z) (j : nat) : option Z :=
  match j with O => l | S j' => ks !! j' end.

Definition child_hi (u : option Z) (ks : list Z) (j : nat) : option Z :=
  match ks !! j with Some k => Some k | None => u end.

(** Between the two halves of [split_node] a cut node [X] and its sibling
    [N] are pending: [N] is in no child list yet, and the slot of [X] in
    its parent still spans both. *)
Definition pending := option (nat * nat).

Definition hi_par (pend : pending) (G : ghost) (c : nat) : option Z :=
  match pend with
  | Some (X, N) => if decide (c = X) then hi G N else hi G c
  | None => hi G c
  end.

Definition node_ok (pend : pending) (G : ghost) (h : list Node) (i : nat) (n : Node) : Prop :=
  match n with
  | Leaf ks _ vs _ =>
      lvl G i = 0%nat ∧ length vs = length ks ∧ StronglySorted Z.lt ks ∧
      Forall (in_range (lo G i) (hi G i)) ks ∧ bound_le (lo G i) (hi G i)
  | Internal ks _ cs =>
      ks ≠ [] ∧ length cs = S (length ks) ∧ NoDup cs ∧
      ∀ j c, cs !! j = Some c →
        ∃ cn, h !! c = Some cn ∧ parent cn = Some i ∧
              lvl G i = S (lvl G c) ∧
              lo G c = child_lo (lo G i) ks j ∧
              hi_par pend G c = child_hi (hi G i) ks j
  end.

Definition parent_ok (pend : pending) (h : list Node) (r : nat) (i : nat) (n : Node) : Prop :=
  match parent n with
  | None => i = r ∨ ∃ X, pend = Some (X, i)
  | Some p => ∃ pks ppar pcs, h !! p = Some (Internal pks ppar pcs) ∧ i ∈ pcs
  end.

Definition pending_ok (pend : pending) (G : ghost) (h : list Node) (r : nat) : Prop :=
  match pend with
  | None => True
  | Some (X, N) =>
      (∃ xn nn, h !! X = Some xn ∧ h !! N = Some nn ∧ parent nn = None) ∧
      N ≠ r ∧ X ≠ N ∧ lvl G N = lvl G X ∧
      ∃ sep, hi G X = Some sep ∧ lo G N = Some sep
  end.

(** The leaves [a :: rest] are linked by [pointer] in this order, and their
    intervals are adjacent. *)
Fixpoint chain_ok (G : ghost) (h : list Node) (a : nat) (rest : list nat) : Prop :=
  ∃ n, h !! a = Some n ∧ is_leaf_node n = true ∧
    match rest with
    | [] => pointer n = None
    | b :: rest' =>
        pointer n = Some b ∧ (∃ x, hi G a = Some x ∧ lo G b = Some x) ∧
        chain_ok G h b rest'
    end.

Record InvP (pend : pending) (G : ghost) (t : BPlusTree) : Prop := {
  inv_root : ∃ r, nodes t !! root t = Some r ∧ parent r = None;
  inv_root_lo : lo G (root t) = None;
  inv_root_hi : hi_par pend G (root t) = None;
  inv_height : (lvl G (root t) < length (nodes t))%nat;
  inv_lvl : ∀ i, (i < length (nodes t))%nat → (lvl G i <= lvl G (root t))%nat;
  inv_node : ∀ i n, nodes t !! i = Some n → node_ok pend G (nodes t) i n;
  inv_parent : ∀ i n, nodes t !! i = Some n → parent_ok pend (nodes t) (root t) i n;
  inv_pending : pending_ok pend G (nodes t) (root t);
  inv_chain : ∃ a rest, chain G = a :: rest ∧ chain_ok G (nodes t) a rest;
  inv_chain_nodup : NoDup (chain G);
  inv_chain_leaves : ∀ i, i ∈ chain G ↔ ∃ n, nodes t !! i = Some n ∧ is_leaf_node n = true;
  inv_chain_len : (length (chain G) <= length (nodes t))%nat
}.

Arguments inv_root {_ _ _} _.
Arguments inv_root_lo {_ _ _} _.
Arguments inv_root_hi {_ _ _} _.
Arguments inv_height {_ _ _} _.
Arguments inv_lvl {_ _ _} _.
Arguments inv_node {_ _ _} _.
Arguments inv_parent {_ _ _} _.
Arguments inv_pending {_ _ _} _.
Arguments inv_chain {_ _ _} _.
Arguments inv_chain_nodup {_ _ _} _.
Arguments inv_chain_leaves {_ _ _} _.
Arguments inv_chain_len {_ _ _} _.

Abbreviation Inv := (InvP None).

(** The pair [(k, v)] sits in some leaf of the store. *)
Definition stored (h : list Node) (k v : Z) : Prop :=
  ∃ i n j, h !! i = Some n ∧ is_leaf_node n = true ∧
           keys n !! j = Some k ∧ values n !! j = Some v.

(** What [split_node] needs of the node it is called on. *)
Definition splittable (n : Node) : Prop :=
  match n with
  | Leaf ks _ _ _ => (1 <= length ks)%nat
  | Internal ks _ _ => (3 <= length ks)%nat
  end.

Definition upd {A} (f : nat → A) (i : nat) (v : A) : nat → A :=
  fun x => if decide (x = i) then v else f x.

(** The chain with [N] put right after [X]. *)
Fixpoint chain_insert (X N : nat) (l : list nat) : list nat :=
  match l with
  | [] => []
  | a :: r => if decide (a = X) then a :: N :: r else a :: chain_insert X N r
  end.

Definition children (n : Node) : list nat :=
  match n with Internal _ _ cs => cs | Leaf _ _ _ _ => [] end.

Definition node_view (n : Node) : option (list Z * list Z) :=
  match n with Leaf ks _ vs _ => Some (ks, vs) | Internal _ _ _ => None end.

Definition leaf_view (h : list Node) (i : nat) : option (list Z * list Z) :=
  h !! i ≫= node_view.

Definition ghost0 : ghost :=
  {| lvl := fun _ => 0%nat; lo := fun _ => None; hi := fun _ => None; chain := [0%nat] |}.

(** The value [insert] stores for the first occurrence of a key in a run. *)
Fixpoint lookup_first (ops : list (Z * option Z)) (k : Z) : option Z :=
  match ops with
  | [] => None
  | (k', ov) :: r => if decide (k' = k) then Some (default k' ov) else lookup_first r k
  end.

(** The flags a run returns when the keys [seen] are already in the tree. *)
Fixpoint flags_spec (seen : list Z) (ops : list (Z * option Z)) : list bool :=
  match ops with
  | [] => []
  | (k, _) :: r => bool_decide (k ∉ seen) :: flags_spec (k :: seen) r
  end.

(** The keys whose insert returned [True]. *)
Fixpoint inserted_keys (ops : list (Z * option Z)) (flags : list bool) : list Z :=
  match ops, flags with
  | (k, _) :: r, b :: bs => if b then k :: inserted_keys r bs else inserted_keys r bs
  | _, _ => []
  end.

(** The key sequences of the nodes [l], concatenated. *)
Definition chain_concat (h : list Node) (l : list nat) : list Z :=
  l ≫= (fun i => match h !! i with Some n => keys n | None => [] end).

(** Every tree built by a run of inserts on a fresh tree. *)
Definition reachable (t : BPlusTree) : Prop :=
  ∃ ops flags, insert_all new ops = Some (flags, t).

End BPlusInv.

(** ** ExtendibleHash.py *)
Module ExtHash.

(** A [dict]: the pairs in insertion order, one per key. *)
Section dict.
Context {K V : Type} `{EqDecision K}.

Fixpoint dict_get (k : K) (d : list (K * V)) : option V :=
  match d with
  | [] => None
  | (k', v) :: r => if decide (k' = k) then Some v else dict_get k r
  end.

(** [d[k] = v]: an existing key keeps its place, a new one goes last. *)
Fixpoint dict_set (k : K) (v : V) (d : list (K * V)) : list (K * V) :=
  match d with
  | [] => [(k, v)]
  | (k', v') :: r => if decide (k' = k) then (k', v) :: r else (k', v') :: dict_set k v r
  end.

(** [k in d] *)
Definition dict_mem (k : K) (d : list (K * V)) : bool :=
  bool_decide (is_Some (dict_get k d)).
End dict.

(** What [pickle.dump] writes: the bucket file and the metadata file. *)
Inductive blob (K V : Type) :=
| BucketBlob (items : list (K * V)) (local_depth : nat)
| MetaBlob (global_depth : nat) (next_bucket_id : nat).
Arguments BucketBlob {K V} _ _.
Arguments MetaBlob {K V} _ _.

(** [f"{bucket_id}"] *)
Definition show_nat (n : nat) : string := NilZero.string_of_uint (Nat.to_uint n).

(** The name [Bucket.__init__] reads, [f"bucket{bucket_id}.pkl"]. *)
Definition load_filename (bucket_id : nat) : string :=
  ("bucket" +:+ show_nat bucket_id +:+ ".pkl")%string.

(** The name [Bucket.save] writes, [f"bucket_{self.bucket_id}.pkl"]. *)
Definition save_filename (bucket_id : nat) : string :=
  ("bucket_" +:+ show_nat bucket_id +:+ ".pkl")%string.

Definition metadata_filename : string := "hash_metadata.pkl".

Record Bucket (K V : Type) := {
  capacity : Z;
  local_depth : nat;
  items : list (K * V);
  bucket_id : option nat
}.
Arguments capacity {K V} _.
Arguments local_depth {K V} _.
Arguments items {K V} _.
Arguments bucket_id {K V} _.

Record ExtendibleHash (K V : Type) := {
  global_depth : nat;
  bucket_capacity : Z;
  directory : list nat;
  next_bucket_id : nat;
  buckets : list (Bucket K V);
  files : gmap string (blob K V)
}.
Arguments global_depth {K V} _.
Arguments bucket_capacity {K V} _.
Arguments directory {K V} _.
Arguments next_bucket_id {K V} _.
Arguments buckets {K V} _.
Arguments files {K V} _.

Section ext_hash.
Context {K V : Type} `{EqDecision K}.
(** The builtin [hash] of the running interpreter. *)
Variable py_hash : K → Z.

(** [Bucket.__init__]: the fields are read back from the file when there
    is one under the name built from the identity. *)
Definition Bucket_init (fs : gmap string (blob K V))
    (capacity : Z) (local_depth : nat) (bucket_id : option nat) : Bucket K V :=
  let fresh := {| capacity := capacity; local_depth := local_depth;
                  items := []; bucket_id := bucket_id |} in
  match bucket_id with
  | None => fresh
  | Some id =>
      match fs !! load_filename id with
      | Some (BucketBlob its ld) =>
          {| capacity := capacity; local_depth := ld; items := its;
             bucket_id := bucket_id |}
      | Some (MetaBlob _ _) => fresh
      | None => fresh
      end
  end.

(** [Bucket.save] *)
Definition Bucket_save (b : Bucket K V) (fs : gmap string (blob K V))
  : gmap string (blob K V) :=
  match bucket_id b with
  | Some id => <[save_filename id := BucketBlob (items b) (local_depth b)]> fs
  | None => fs
  end.

(** [Bucket.insert] *)
Definition Bucket_insert (b : Bucket K V) (key : K) (value : V)
    (fs : gmap string (blob K V)) : bool * Bucket K V * gmap string (blob K V) :=
  if dict_mem key (items b) then (false, b, fs)
  else if Z.of_nat (length (items b)) <? capacity b then
    let b' := {| capacity := capacity b; local_depth := local_depth b;
                 items := dict_set key value (items b); bucket_id := bucket_id b |} in
    (true, b', Bucket_save b' fs)
  else (false, b, fs).

(** [ExtendibleHash.save_metadata] *)
Definition save_metadata (gd next : nat) (fs : gmap string (blob K V))
  : gmap string (blob K V) :=
  <[metadata_filename := MetaBlob gd next]> fs.

(** [ExtendibleHash.__init__], run in the directory [fs]. *)
Definition new (fs : gmap string (blob K V)) (bucket_capacity : Z) (global_depth : nat)
  : ExtendibleHash K V :=
  {| global_depth := global_depth;
     bucket_capacity := bucket_capacity;
     directory := replicate (2 ^ global_depth)%nat 0%nat;
     next_bucket_id := 1;
     buckets := [Bucket_init fs bucket_capacity global_depth (Some 0%nat)];
     files := save_metadata global_depth 1 fs |}.

(** [ExtendibleHash.hash_function] *)
Definition hash_function (key : K) : Z := Z.abs (py_hash key) mod 2 ^ 32.

(** [ExtendibleHash.get_directory_index] *)
Definition get_directory_index (global_depth : nat) (key : K) : Z :=
  let mask := Z.shiftl 1 (Z.of_nat global_depth) - 1 in
  Z.land (hash_function key) mask.

(** [for i in range(old_size): self.directory.append(self.directory[i])] *)
Definition double (dir : list nat) : list nat :=
  foldl (fun d i => match d !! i with Some b => d ++ [b] | None => d end)
        dir (seq 0 (length dir)).

(** [ExtendibleHash.grow_directory] *)
Definition grow_directory (t : ExtendibleHash K V) : ExtendibleHash K V :=
  {| global_depth := S (global_depth t);
     bucket_capacity := bucket_capacity t;
     directory := double (directory t);
     next_bucket_id := next_bucket_id t;
     buckets := buckets t;
     files := save_metadata (S (global_depth t)) (next_bucket_id t) (files t) |}.

(** The loop that repoints the slots of the old bucket whose index has
    the new bit set. *)
Definition repoint (old_bucket new_bucket : nat) (shift : Z) (dir : list nat) : list nat :=
  imap (fun i b =>
          if decide (b = old_bucket ∧ Z.land (Z.of_nat i) shift ≠ 0)
          then new_bucket else b) dir.

Definition set_items (its : list (K * V)) (b : Bucket K V) : Bucket K V :=
  {| capacity := capacity b; local_depth := local_depth b;
     items := its; bucket_id := bucket_id b |}.

(** [for key, value in items_to_redistribute:
       self.directory[dir_index].items[key] = value] *)
Definition redistribute (gd : nat) (dir : list nat)
    (its : list (K * V)) (bs : list (Bucket K V)) : option (list (Bucket K V)) :=
  foldl (fun acc kv =>
           match acc with
           | None => None
           | Some bs =>
               match dir !! Z.to_nat (get_directory_index gd kv.1) with
               | None => None
               | Some b =>
                   match bs !! b with
                   | None => None
                   | Some bk =>
                       Some (<[b := set_items (dict_set kv.1 kv.2 (items bk)) bk]> bs)
                   end
               end
           end) (Some bs) its.

(** [ExtendibleHash.split_bucket] *)
Definition split_bucket (t : ExtendibleHash K V) (index : nat)
  : option (ExtendibleHash K V) :=
  match directory t !! index with
  | None => None
  | Some old_bucket =>
      match buckets t !! old_bucket with
      | None => None
      | Some ob =>
          let t1 := if (global_depth t <=? local_depth ob)%nat
                    then grow_directory t else t in
          (* the index recomputed after growing is not read again *)
          let ld := S (local_depth ob) in
          let new_bucket := length (buckets t1) in
          let nb := Bucket_init (files t1) (bucket_capacity t1) ld
                                (Some (next_bucket_id t1)) in
          let shift := Z.shiftl 1 (Z.of_nat ld - 1) in
          let dir := repoint old_bucket new_bucket shift (directory t1) in
          let ob' := {| capacity := capacity ob; local_depth := ld;
                        items := []; bucket_id := bucket_id ob |} in
          let bs := <[old_bucket := ob']> (buckets t1) ++ [nb] in
          match redistribute (global_depth t1) dir (items ob) bs with
          | None => None
          | Some bs' =>
              match bs' !! old_bucket, bs' !! new_bucket with
              | Some ob'', Some nb'' =>
                  Some {| global_depth := global_depth t1;
                          bucket_capacity := bucket_capacity t1;
                          directory := dir;
                          next_bucket_id := S (next_bucket_id t1);
                          buckets := bs';
                          files := save_metadata (global_depth t1) (S (next_bucket_id t1))
                                     (Bucket_save nb'' (Bucket_save ob'' (files t1))) |}
              | _, _ => None
              end
          end
      end
  end.

(** [ExtendibleHash.count_buckets] *)
Definition count_buckets (t : ExtendibleHash K V) : nat :=
  length (remove_dups (directory t)).

(** The loop of [ExtendibleHash.insert], with the attempts left. *)
Fixpoint insert_loop (attempts : nat) (t : ExtendibleHash K V) (key : K) (value : V)
  : option (bool * ExtendibleHash K V) :=
  match attempts with
  | O => Some (false, t)
  | S attempts' =>
      let index := Z.to_nat (get_directory_index (global_depth t) key) in
      match directory t !! index with
      | None => None
      | Some bucket =>
          match buckets t !! bucket with
          | None => None
          | Some bk =>
              if dict_mem key (items bk) then Some (false, t)
              else
                match Bucket_insert bk key value (files t) with
                | (true, bk', fs') =>
                    Some (true,
                          {| global_depth := global_depth t;
                             bucket_capacity := bucket_capacity t;
                             directory := directory t;
                             next_bucket_id := next_bucket_id t;
                             buckets := <[bucket := bk']> (buckets t);
                             files := fs' |})
                | (false, _, _) =>
                    match split_bucket t index with
                    | None => None
                    | Some t' => insert_loop attempts' t' key value
                    end
                end
          end
      end
  end.

(** [ExtendibleHash.insert] *)
Definition insert (t : ExtendibleHash K V) (key : K) (value : V)
  : option (bool * ExtendibleHash K V) :=
  insert_loop 10 t key value.

(** [ExtendibleHash.search] *)
Definition search (t : ExtendibleHash K V) (key : K) : option (option V) :=
  match directory t !! Z.to_nat (get_directory_index (global_depth t) key) with
  | None => None
  | Some bucket =>
      match buckets t !! bucket with
      | None => None
      | Some bk => Some (dict_get key (items bk))
      end
  end.

End ext_hash.

(** What [insert] and [load_from_file] print. *)
Inductive output :=
| InsertedKey (key : Z) (bucket_count : nat)
| Processed (count : nat)
| Skipping (line : string)
| Success (count : nat) (filename : string)
| FileNotFound (filename : string).

Section loader.
Variable py_hash : Z → Z.

(** [self.insert(key, key)] with what it prints. *)
Definition insert_display (t : ExtendibleHash Z Z) (key : Z)
  : option (ExtendibleHash Z Z * list output) :=
  match insert py_hash t key key with
  | None => None
  | Some (true, t') => Some (t', [InsertedKey key (count_buckets t')])
  | Some (false, t') => Some (t', [])
  end.

(** The loop of [load_from_file] over the lines, with [count]. *)
Fixpoint load_lines (t : ExtendibleHash Z Z) (count : nat) (lines : list string)
  : option (ExtendibleHash Z Z * nat * list output) :=
  match lines with
  | [] => Some (t, count, [])
  | line :: rest =>
      let line := py_strip line in
      if decide (line = EmptyString) then load_lines t count rest
      else
        match py_int line with
        | None =>
            match load_lines t count rest with
            | None => None
            | Some (t', c, out) => Some (t', c, Skipping line :: out)
            end
        | Some key =>
            match insert_display t key with
            | None => None
            | Some (t1, out1) =>
                let count := S count in
                let out2 := if decide (count mod 100 = 0)%nat
                            then [Processed count] else [] in
                match load_lines t1 count rest with
                | None => None
                | Some (t', c, out) => Some (t', c, out1 ++ out2 ++ out)
                end
            end
        end
  end.

(** [ExtendibleHash.load_from_file]; [file] is [None] when there is no
    file of that name.  The last component tells whether the call ended
    in [sys.exit(1)]. *)
Definition load_from_file (t : ExtendibleHash Z Z) (filename : string)
    (file : option (list string))
  : option (ExtendibleHash Z Z * list output * bool) :=
  match file with
  | None => Some (t, [FileNotFound filename], true)
  | Some lines =>
      match load_lines t 0 lines with
      | None => None
      | Some (t', count, out) => Some (t', out ++ [Success count filename], false)
      end
  end.

End loader.


End ExtHash.

(** ** Invariant of the extendible hash table *)
Module ExtHashInv.
Import ExtHash.

Section inv.
Context {K V : Type} `{EqDecision K}.
Variable py_hash : K → Z.

(** [x] and [y] have the same bits at the positions [g0 <= n < d]. *)
Definition agree (g0 d : nat) (x y : Z) : Prop :=
  ∀ n : nat, (g0 <= n < d)%nat → Z.testbit x (Z.of_nat n) = Z.testbit y (Z.of_nat n).

(** No file carries a name that [Bucket.__init__] would read. *)
Definition clean (fs : gmap string (blob K V)) : Prop :=
  ∀ id, fs !! load_filename id = None.

(** The pairs of all the buckets of a store. *)
Definition all_items (bs : list (Bucket K V)) : list (K * V) :=
  bs ≫= items.

(** The pairs of the buckets the directory refers to, each bucket once. *)
Definition table_items (t : ExtendibleHash K V) : list (K * V) :=
  remove_dups (directory t) ≫=
    (fun b => match buckets t !! b with Some bk => items bk | None => [] end).

(** Every pair sits in the bucket the directory gives for its key. *)
Definition placed (gd : nat) (dir : list nat) (bs : list (Bucket K V)) : Prop :=
  ∀ b bk k v, bs !! b = Some bk → (k, v) ∈ items bk →
    dir !! Z.to_nat (get_directory_index py_hash gd k) = Some b.

(** The number of directory slots that refer to the bucket [b]. *)
Definition slot_count (t : ExtendibleHash K V) (b : nat) : nat :=
  length (filter (fun x => x = b) (directory t)).

(** [g0] is the global depth the table was constructed with. *)
Record EInv (g0 : nat) (t : ExtendibleHash K V) : Prop := {
  e_len : length (directory t) = (2 ^ global_depth t)%nat;
  e_refs : ∀ i b, directory t !! i = Some b → (b < length (buckets t))%nat;
  e_used : ∀ b, (b < length (buckets t))%nat → b ∈ directory t;
  e_depth : ∀ b bk, buckets t !! b = Some bk →
              (g0 <= local_depth bk <= global_depth t)%nat;
  e_slots : ∀ i j b bk,
              directory t !! i = Some b → buckets t !! b = Some bk →
              (j < length (directory t))%nat →
              (directory t !! j = Some b ↔
               agree g0 (local_depth bk) (Z.of_nat i) (Z.of_nat j));
  e_place : placed (global_depth t) (directory t) (buckets t);
  e_keys : NoDup (all_items (buckets t)).*1;
  e_clean : clean (files t)
}.

(** The tables a program can hold: constructed in a directory without
    stray bucket files, then changed by [insert] and [split_bucket]. *)
Inductive reachable (g0 : nat) : ExtendibleHash K V → Prop :=
| reach_new fs cap : clean fs → reachable g0 (new fs cap g0)
| reach_insert t k v b t' :
    reachable g0 t → insert py_hash t k v = Some (b, t') → reachable g0 t'
| reach_split t index t' :
    reachable g0 t → split_bucket py_hash t index = Some t' → reachable g0 t'.

End inv.
Arguments e_len {_ _ _ _ _} _.
Arguments e_refs {_ _ _ _ _} _.
Arguments e_used {_ _ _ _ _} _.
Arguments e_depth {_ _ _ _ _} _.
Arguments e_slots {_ _ _ _ _} _.
Arguments e_place {_ _ _ _ _} _.
Arguments e_keys {_ _ _ _ _} _.
Arguments e_clean {_ _ _ _ _} _.

(** Counting the indices [start <= j < start + len] that satisfy [f]. *)
Fixpoint countb (f : nat → bool) (start len : nat) : nat :=
  match len with
  | O => 0
  | S len' => ((if f start then 1 else 0) + countb f (S start) len')%nat
  end.

Definition agreeb (g0 d : nat) (x y : Z) : bool :=
  forallb (fun n : nat => Bool.eqb (Z.testbit x (Z.of_nat n)) (Z.testbit y (Z.of_nat n)))
          (seq g0 (d - g0)).

(** Two tables that differ at most in the files written so far. *)
Definition same_state {K V} (t1 t2 : ExtendibleHash K V) : Prop :=
  global_depth t1 = global_depth t2 ∧
  bucket_capacity t1 = bucket_capacity t2 ∧
  directory t1 = directory t2 ∧
  next_bucket_id t1 = next_bucket_id t2 ∧
  buckets t1 = buckets t2.

(** [self.directory[index]], the bucket object itself. *)
Definition bucket_at {K V} (t : ExtendibleHash K V) (index : nat) : option (Bucket K V) :=
  directory t !! index ≫= fun b => buckets t !! b.

End ExtHashInv.

(** ** Further definitions for the B+ tree *)
Module BPlusMore.
Import BPlus BPlusInv.


(** The keys of the lines before the first one that [int] rejects. *)
Fixpoint good_prefix (lines : list string) : list Z :=
  match lines with
  | [] => []
  | line :: rest =>
      match py_int (py_strip line) with
      | Some number => number :: good_prefix rest
      | None => []
      end
  end.

(** Of each node: whether it is a leaf, and how many keys it holds. *)
Definition shape (h : list Node) : list (bool * nat) :=
  (fun n => (is_leaf_node n, length (keys n))) <$> h.

(** The number of leaves among the nodes. *)
Definition count_leaves (s : list (bool * nat)) : nat :=
  length (filter (fun x : bool * nat => x.1 = true) s).

(** The fill of the nodes: a leaf holds at most 3 keys and an internal
    node between 1 and 4; every node but the root holds at least 2.  The
    node [over], if any, is the one [split_node] is about to cut: a leaf
    with 4 keys or an internal node with 5. *)
Definition fill_ok (root : nat) (over : option nat) (s : list (bool * nat)) : Prop :=
  ∀ (i : nat) (lf : bool) (len : nat), s !! i = Some (lf, len) →
    if decide (over = Some i) then len = (if lf then 4 else 5)%nat
    else (len <= (if lf then 3 else 4))%nat ∧ (i ≠ root → 2 <= len)%nat ∧
         (lf = false → 1 <= len)%nat.

(** [Internal.insert_key], on the node [self] of the store; the two
    children are references as well. *)
Definition insert_key (h : list Node) (self : nat) (key : Z)
    (left_child right_child : nat) : option (list Node) :=
  match h !! self with
  | Some (Internal ks par cs) =>
      let position := position_gt key ks in
      let ks' := py_insert position key ks in
      let cs' := if (position <? length cs)%nat
                 then py_insert (S position) right_child (<[position := left_child]> cs)
                 else cs ++ [left_child; right_child] in
      let h1 := <[self := Internal ks' par cs']> h in
      match h1 !! left_child with
      | None => None
      | Some _ =>
          let h2 := alter (set_parent (Some self)) left_child h1 in
          match h2 !! right_child with
          | None => None
          | Some _ => Some (alter (set_parent (Some self)) right_child h2)
          end
      end
  | _ => None
  end.

End BPlusMore.

(** ** Further definitions for the extendible hash table *)
Module ExtHashMore.
Import ExtHash ExtHashInv.

(** The bookkeeping of a table constructed with global depth [g0]: the
    identities of the buckets, their capacity and fill, and what the files
    written so far hold. *)
Record EBook {K V : Type} (g0 : nat) (t : ExtendibleHash K V) : Prop := {
  b_next : next_bucket_id t = length (buckets t);
  b_ids : ∀ b bk, buckets t !! b = Some bk →
            bucket_id bk = Some b ∧ capacity bk = bucket_capacity t ∧
            Z.of_nat (length (items bk)) <= Z.max 0 (bucket_capacity t);
  b_meta : files t !! metadata_filename =
             Some (MetaBlob (global_depth t) (next_bucket_id t));
  b_files : ∀ b bk, buckets t !! b = Some bk →
              (b = 0%nat ∧ items bk = [] ∧ local_depth bk = g0) ∨
              files t !! save_filename b =
                Some (BucketBlob (items bk) (local_depth bk))
}.
Arguments b_next {_ _ _ _} _.
Arguments b_ids {_ _ _ _} _.
Arguments b_meta {_ _ _ _} _.
Arguments b_files {_ _ _ _} _.

(** The bucket that [key] is directed to is full of other keys with the
    very hash of [key]: no split can make room. *)
Definition stuck {K V : Type} (py_hash : K → Z) (key : K)
    (t : ExtendibleHash K V) : Prop :=
  ∃ ob, bucket_at t (Z.to_nat (get_directory_index py_hash (global_depth t) key)) = Some ob ∧
        capacity ob <= Z.of_nat (length (items ob)) ∧
        ∀ k' v', (k', v') ∈ items ob →
                 hash_function py_hash k' = hash_function py_hash key ∧ k' ≠ key.

End ExtHashMore.

Ltac dec_simpl :=
  repeat first [rewrite decide_True by (done || lia)
               |rewrite decide_False by (done || lia)].

(** ** Facts about the B+ tree *)
Section bplus_facts.
Import BPlus BPlusInv.

Lemma position_ge_spec key ks :
  (∀ x, child_lo None ks (position_ge key ks) = Some x → x <= key) ∧
  (∀ x, ks !! position_ge key ks = Some x → key < x).
Proof.
  induction ks as [|y r IH]; simpl; [done|].
  destruct (Z.leb_spec y key); simpl.
  - destruct IH as [IH1 IH2]. split; [|done].
    intros x. destruct (position_ge key r) eqn:E; simpl in *.
    + intros [= <-]. done.
    + apply IH1.
  - split; [done|]. intros x [= <-]. done.
Qed.

Lemma in_range_child l u ks key :
  in_range l u key →
  in_range (child_lo l ks (position_ge key ks)) (child_hi u ks (position_ge key ks)) key.
Proof.
  intros [Hl Hu]. destruct (position_ge_spec key ks) as [H1 H2]. split.
  - intros a Ha. destruct (position_ge key ks); simpl in *; eauto.
  - intros b Hb. unfold child_hi in Hb.
    destruct (ks !! position_ge key ks) eqn:E; simplify_eq; eauto.
Qed.

Lemma position_ge_le key ks : (position_ge key ks <= length ks)%nat.
Proof. induction ks; simpl; [lia|]. case_match; simpl; lia. Qed.

Lemma find_leaf_spec G t fuel i n key :
  Inv G t → nodes t !! i = Some n →
  in_range (lo G i) (hi G i) key → (lvl G i < fuel)%nat →
  ∃ l ln,
    find_leaf fuel (nodes t) i key = Some l ∧
    nodes t !! l = Some ln ∧ is_leaf_node ln = true ∧
    in_range (lo G l) (hi G l) key.
Proof.
  intros HI. revert i n. induction fuel as [|fuel IH]; intros i n Hn Hr Hf; [lia|].
  simpl. rewrite Hn. destruct n as [ks par vs ptr|ks par cs].
  - eauto 10.
  - pose proof (inv_node HI _ _ Hn) as (Hne & Hlen & Hnd & Hch).
    destruct (lookup_lt_is_Some_2 cs (position_ge key ks)) as [c Hc].
    { pose proof (position_ge_le key ks). lia. }
    rewrite Hc. destruct (Hch _ _ Hc) as (cn & Hcn & Hp & Hl & Hlo & Hhi).
    apply (IH c cn); [done| |lia].
    simpl in Hhi. rewrite Hlo, Hhi. by apply in_range_child.
Qed.

Lemma chain_ok_head G h a rest :
  chain_ok G h a rest → ∃ n, h !! a = Some n ∧ is_leaf_node n = true.
Proof. destruct rest; simpl; intros (m & ? & ? & _); eauto. Qed.

Lemma chain_lo_mono G h a rest b :
  (∀ i n, h !! i = Some n → is_leaf_node n = true → bound_le (lo G i) (hi G i)) →
  chain_ok G h a rest → b ∈ rest →
  ∃ x y, hi G a = Some x ∧ lo G b = Some y ∧ x <= y.
Proof.
  intros Hb. revert a. induction rest as [|b0 rest IH]; intros a Hc Hin.
  { by apply elem_of_nil in Hin. }
  simpl in Hc. destruct Hc as (n & Hn & Hl & Hp & (x & Hx1 & Hx2) & Hc).
  apply elem_of_cons in Hin as [->|Hin].
  - exists x, x. split_and!; [done|done|lia].
  - destruct (IH _ Hc Hin) as (x' & y & Hx' & Hy & Hle).
    destruct (chain_ok_head _ _ _ _ Hc) as (n0 & Hn0 & Hl0).
    pose proof (Hb _ _ Hn0 Hl0 _ _ Hx2 Hx'). exists x, y. split_and!; [done|done|lia].
Qed.

Lemma chain_unique G h a rest x y k :
  (∀ i n, h !! i = Some n → is_leaf_node n = true → bound_le (lo G i) (hi G i)) →
  chain_ok G h a rest → x ∈ a :: rest → y ∈ a :: rest →
  in_range (lo G x) (hi G x) k → in_range (lo G y) (hi G y) k → x = y.
Proof.
  intros Hb. revert a. induction rest as [|b rest IH]; intros a Hc Hx Hy Rx Ry.
  { apply list_elem_of_singleton in Hx, Hy. congruence. }
  apply elem_of_cons in Hx as [->|Hx]; apply elem_of_cons in Hy as [->|Hy]; [done| | |].
  - destruct (chain_lo_mono _ _ _ _ _ Hb Hc Hy) as (u & v & Hu & Hv & Hle).
    destruct Rx as [_ Rx], Ry as [Ry _].
    specialize (Rx _ Hu). specialize (Ry _ Hv). lia.
  - destruct (chain_lo_mono _ _ _ _ _ Hb Hc Hx) as (u & v & Hu & Hv & Hle).
    destruct Ry as [_ Ry], Rx as [Rx _].
    specialize (Ry _ Hu). specialize (Rx _ Hv). lia.
  - simpl in Hc. destruct Hc as (n & Hn & Hl & Hp & _ & Hc). by apply (IH b).
Qed.

Lemma leaf_bound_le pend G t i n :
  InvP pend G t → nodes t !! i = Some n → is_leaf_node n = true →
  bound_le (lo G i) (hi G i).
Proof.
  intros HI Hn Hl. pose proof (inv_node HI _ _ Hn) as Hok.
  destruct n; [|done]. by destruct Hok as (_ & _ & _ & _ & ?).
Qed.

Lemma leaf_unique pend G t x y xn yn k :
  InvP pend G t →
  nodes t !! x = Some xn → is_leaf_node xn = true →
  nodes t !! y = Some yn → is_leaf_node yn = true →
  in_range (lo G x) (hi G x) k → in_range (lo G y) (hi G y) k → x = y.
Proof.
  intros HI Hx Hxl Hy Hyl Rx Ry.
  destruct (inv_chain HI) as (a & rest & Hch & Hok).
  apply (chain_unique G (nodes t) a rest x y k); try done.
  - intros i n. by eapply leaf_bound_le.
  - rewrite <- Hch. apply (inv_chain_leaves HI). eauto.
  - rewrite <- Hch. apply (inv_chain_leaves HI). eauto.
Qed.

Lemma StronglySorted_lookup_lt (ks : list Z) i j x y :
  StronglySorted Z.lt ks → (i < j)%nat →
  ks !! i = Some x → ks !! j = Some y → x < y.
Proof.
  intros Hs. revert i j. induction Hs as [|a l Hs IH Hall]; intros i j Hij Hi Hj.
  { done. }
  destruct j as [|j]; [lia|]. destruct i as [|i]; simpl in *.
  - simplify_eq. rewrite Forall_lookup in Hall. eauto.
  - apply (IH i j); [lia|done|done].
Qed.

Lemma scan_found key i (ks vs : list Z) j :
  ks !! j = Some key → (∀ j', (j' < j)%nat → ks !! j' ≠ Some key) →
  scan key i ks vs = Some <$> vs !! (i + j)%nat.
Proof.
  revert i j. induction ks as [|a r IH]; intros i j Hj Hfirst; [done|].
  simpl. destruct j as [|j]; simpl in *.
  - simplify_eq. rewrite decide_True by done. by rewrite Nat.add_0_r.
  - rewrite decide_False.
    + rewrite (IH (S i) j); [|done|].
      * by replace (S i + j)%nat with (i + S j)%nat by lia.
      * intros j' Hj'. apply (Hfirst (S j')). lia.
    + intros ->. by apply (Hfirst 0%nat); [lia|].
Qed.

Lemma scan_absent key i (ks vs : list Z) :
  key ∉ ks → scan key i ks vs = Some None.
Proof.
  revert i. induction ks as [|a r IH]; intros i Hni; [done|].
  simpl. rewrite decide_False.
  - apply IH. intros ?. apply Hni. by right.
  - intros ->. apply Hni. by left.
Qed.

Lemma node_in_range pend G t i n j k :
  InvP pend G t → nodes t !! i = Some n → is_leaf_node n = true →
  keys n !! j = Some k → in_range (lo G i) (hi G i) k.
Proof.
  intros HI Hn Hl Hk. pose proof (inv_node HI _ _ Hn) as Hok.
  destruct n; [|done]. destruct Hok as (_ & _ & _ & Hall & _).
  rewrite Forall_lookup in Hall. eauto.
Qed.

Lemma root_find_leaf G t key :
  Inv G t →
  ∃ l ln, find_leaf (length (nodes t)) (nodes t) (root t) key = Some l ∧
          nodes t !! l = Some ln ∧ is_leaf_node ln = true ∧
          in_range (lo G l) (hi G l) key.
Proof.
  intros HI. destruct (inv_root HI) as (r & Hr & _).
  apply (find_leaf_spec G t _ _ r); [done|done| |apply (inv_height HI)].
  pose proof (inv_root_hi HI) as Hh. simpl in Hh.
  rewrite (inv_root_lo HI), Hh. by split.
Qed.

Lemma search_stored G t k v :
  Inv G t → stored (nodes t) k v → search t k = Some (Some v).
Proof.
  intros HI (i & n & j & Hn & Hl & Hk & Hv).
  destruct (root_find_leaf G t k HI) as (l & ln & Hf & Hln & Hll & Hr).
  assert (l = i) as ->.
  { eapply leaf_unique; eauto. eapply node_in_range; eauto. }
  unfold search. rewrite Hf, Hn. simplify_eq.
  destruct n as [ks par vs ptr|]; [|done]. simpl in *.
  destruct (inv_node HI _ _ Hn) as (_ & _ & Hs & _).
  rewrite (scan_found k 0 ks vs j); [simpl; by rewrite Hv|done|].
  intros j' Hj' Hk'. pose proof (StronglySorted_lookup_lt _ _ _ _ _ Hs Hj' Hk' Hk). lia.
Qed.

Lemma search_not_stored G t k :
  Inv G t → (∀ v, ¬ stored (nodes t) k v) → search t k = Some None.
Proof.
  intros HI Hns.
  destruct (root_find_leaf G t k HI) as (l & ln & Hf & Hln & Hll & Hr).
  unfold search. rewrite Hf, Hln. destruct ln as [ks par vs ptr|]; [|done].
  apply scan_absent. intros Hin. apply list_elem_of_lookup in Hin as [j Hj].
  destruct (inv_node HI _ _ Hln) as (_ & Hlen & _).
  destruct (lookup_lt_is_Some_2 vs j) as [v Hv].
  { rewrite Hlen. by eapply lookup_lt_Some. }
  apply (Hns v). exists l, (Leaf ks par vs ptr), j. done.
Qed.

Lemma lookup_snoc_decide {A} (l : list A) x i :
  (l ++ [x]) !! i = if decide (i = length l) then Some x else l !! i.
Proof.
  case_decide as H.
  - subst. by rewrite list_lookup_middle.
  - destruct (decide (i < length l)%nat).
    + by rewrite lookup_app_l.
    + rewrite lookup_app_r by lia. rewrite (lookup_ge_None_2 l) by lia.
      destruct (i - length l)%nat eqn:E; [lia|done].
Qed.

Lemma length_py_insert {A} p (x : A) l : length (py_insert p x l) = S (length l).
Proof.
  unfold py_insert. rewrite length_app. simpl. rewrite length_take, length_drop. lia.
Qed.

Lemma py_insert_lookup {A} p (x : A) l i :
  (p <= length l)%nat →
  py_insert p x l !! i =
    if decide (i < p)%nat then l !! i
    else if decide (i = p) then Some x else l !! (i - 1)%nat.
Proof.
  intros Hp. unfold py_insert.
  repeat case_decide.
  - rewrite lookup_app_l by (rewrite length_take; lia). by rewrite lookup_take_lt.
  - subst. rewrite lookup_app_r by (rewrite length_take; lia).
    rewrite length_take. by replace (p - p `min` length l)%nat with 0%nat by lia.
  - rewrite lookup_app_r by (rewrite length_take; lia).
    rewrite length_take. replace (i - p `min` length l)%nat with (S (i - p - 1)) by lia.
    simpl. rewrite lookup_drop. f_equal. lia.
Qed.

Lemma elem_of_py_insert {A} p (x y : A) l : y ∈ py_insert p x l ↔ y = x ∨ y ∈ l.
Proof.
  assert (y ∈ l ↔ y ∈ take p l ∨ y ∈ drop p l) as Hl.
  { by rewrite <- elem_of_app, take_drop. }
  unfold py_insert. rewrite elem_of_app, elem_of_cons. tauto.
Qed.

Lemma NoDup_py_insert {A} p (x : A) l : NoDup l → x ∉ l → NoDup (py_insert p x l).
Proof.
  intros Hnd Hx. unfold py_insert. rewrite <- (take_drop p l) in Hnd, Hx.
  apply NoDup_app in Hnd as (H1 & H2 & H3).
  apply NoDup_app. split_and!; [done| |].
  - intros y Hy. rewrite elem_of_cons. intros [->|?].
    + apply Hx. apply elem_of_app. by left.
    + by apply (H2 y).
  - apply NoDup_cons. split; [|done]. intros ?. apply Hx, elem_of_app. by right.
Qed.

Lemma py_index_Some x l j : py_index x l = Some j → l !! j = Some x.
Proof.
  revert j. induction l as [|y r IH]; intros j; simpl; [done|].
  case_decide; [by intros [= <-]; subst|].
  destruct (py_index x r) eqn:E; simpl; [|done]. intros [= <-]. by apply IH.
Qed.

Lemma py_index_lookup x l j : NoDup l → l !! j = Some x → py_index x l = Some j.
Proof.
  revert j. induction l as [|y r IH]; intros j Hnd Hj; [done|].
  apply NoDup_cons in Hnd as [Hy Hnd]. simpl. destruct j as [|j]; simpl in *.
  - simplify_eq. by rewrite decide_True.
  - rewrite decide_False.
    + by rewrite (IH j).
    + intros ->. apply Hy. by eapply list_elem_of_lookup_2.
Qed.

Lemma child_lo_insert l ks j sep i :
  (j <= length ks)%nat →
  child_lo l (py_insert j sep ks) i =
    if decide (i <= j)%nat then child_lo l ks i
    else if decide (i = S j) then Some sep else child_lo l ks (i - 1).
Proof.
  intros Hj. destruct i as [|i].
  { repeat case_decide; try done; lia. }
  cbn [child_lo]. rewrite py_insert_lookup by done.
  repeat case_decide; try lia; try done.
  destruct i; [lia|]. simpl. by rewrite Nat.sub_0_r.
Qed.

Lemma child_hi_insert u ks j sep i :
  (j <= length ks)%nat →
  child_hi u (py_insert j sep ks) i =
    if decide (i < j)%nat then child_hi u ks i
    else if decide (i = j) then Some sep else child_hi u ks (i - 1).
Proof.
  intros Hj. unfold child_hi. rewrite py_insert_lookup by done.
  repeat case_decide; done.
Qed.

Lemma child_lvl pend G t i ks par cs c :
  InvP pend G t → nodes t !! i = Some (Internal ks par cs) → c ∈ cs →
  ∃ cn, nodes t !! c = Some cn ∧ parent cn = Some i ∧ lvl G i = S (lvl G c).
Proof.
  intros HI Hi Hc. apply list_elem_of_lookup in Hc as [j Hj].
  destruct (inv_node HI _ _ Hi) as (_ & _ & _ & Hch).
  destruct (Hch _ _ Hj) as (cn & ? & ? & ? & _). eauto.
Qed.

Lemma parent_internal pend G t i n p :
  InvP pend G t → nodes t !! i = Some n → parent n = Some p →
  ∃ pks ppar pcs, nodes t !! p = Some (Internal pks ppar pcs) ∧ i ∈ pcs ∧
                  lvl G p = S (lvl G i).
Proof.
  intros HI Hi Hp. pose proof (inv_parent HI _ _ Hi) as Hpo.
  unfold parent_ok in Hpo. rewrite Hp in Hpo.
  destruct Hpo as (pks & ppar & pcs & Hpn & Hin).
  destruct (child_lvl _ _ _ _ _ _ _ _ HI Hpn Hin) as (cn & ? & ? & ?).
  eauto 10.
Qed.

Lemma chain_ok_frame G G' h h' a rest :
  chain_ok G h a rest →
  (∀ i n, i ∈ a :: rest → h !! i = Some n →
     ∃ n', h' !! i = Some n' ∧ is_leaf_node n' = is_leaf_node n ∧ pointer n' = pointer n) →
  (∀ i, i ∈ a :: rest → lo G' i = lo G i ∧ hi G' i = hi G i) →
  chain_ok G' h' a rest.
Proof.
  revert a. induction rest as [|b rest IH]; intros a Hc Hh HG; simpl in *.
  - destruct Hc as (n & Hn & Hl & Hp).
    destruct (Hh a n) as (n' & Hn' & Hl' & Hp'); [by left|done|].
    exists n'. split_and!; [done|congruence|congruence].
  - destruct Hc as (n & Hn & Hl & Hp & (x & Hx1 & Hx2) & Hc).
    destruct (Hh a n) as (n' & Hn' & Hl' & Hp'); [by left|done|].
    exists n'. split_and!; [done|congruence|congruence| |].
    + exists x. destruct (HG a) as [_ ->]; [by left|].
      destruct (HG b) as [-> _]; [right; by left|]. done.
    + apply IH; [done| |].
      * intros i m Hi. apply Hh. by right.
      * intros i Hi. apply HG. by right.
Qed.

Lemma node_ok_transfer pend pend' G G' h h' i n :
  node_ok pend G h i n →
  lvl G' i = lvl G i → lo G' i = lo G i → hi G' i = hi G i →
  (∀ c, c ∈ children n →
     (∃ cn', h' !! c = Some cn' ∧ parent cn' = Some i) ∧
     lvl G' c = lvl G c ∧ lo G' c = lo G c ∧ hi_par pend' G' c = hi_par pend G c) →
  node_ok pend' G' h' i n.
Proof.
  intros Hok Hl Hlo Hhi Hc. destruct n as [ks par vs ptr|ks par cs]; simpl in *.
  - by rewrite Hl, Hlo, Hhi.
  - destruct Hok as (Hne & Hlen & Hnd & Hch). split_and!; try done.
    intros j c Hj. destruct (Hch j c Hj) as (cn & Hcn & Hp & Hlv & Hclo & Hchi).
    destruct (Hc c) as ((cn' & Hcn' & Hp') & Hl' & Hlo' & Hhi').
    { by eapply list_elem_of_lookup_2. }
    exists cn'. rewrite Hl, Hlo, Hhi, Hl', Hlo', Hhi'. done.
Qed.

Lemma set_parent_parent q n : parent (set_parent q n) = q.
Proof. by destruct n. Qed.
Lemma set_parent_leaf q n : is_leaf_node (set_parent q n) = is_leaf_node n.
Proof. by destruct n. Qed.
Lemma set_parent_pointer q n : pointer (set_parent q n) = pointer n.
Proof. by destruct n. Qed.
Lemma set_parent_keys q n : keys (set_parent q n) = keys n.
Proof. by destruct n. Qed.
Lemma set_parent_values q n : values (set_parent q n) = values n.
Proof. by destruct n. Qed.
Lemma set_parent_children q n : children (set_parent q n) = children n.
Proof. by destruct n. Qed.

Lemma node_view_set_parent q n : node_view (set_parent q n) = node_view n.
Proof. by destruct n. Qed.

Lemma stored_view h k v :
  stored h k v ↔
  ∃ i ks vs j, leaf_view h i = Some (ks, vs) ∧ ks !! j = Some k ∧ vs !! j = Some v.
Proof.
  unfold leaf_view. split.
  - intros (i & n & j & Hn & Hl & Hk & Hv). destruct n as [ks par vs ptr|]; [|done].
    exists i, ks, vs, j. by rewrite Hn.
  - intros (i & ks & vs & j & Hn & Hk & Hv).
    destruct (h !! i) as [[ks' par vs' ptr|]|] eqn:E; simplify_eq/=.
    exists i, (Leaf ks par vs ptr), j. done.
Qed.

Lemma stored_view_ext h h' k v :
  (∀ i, leaf_view h' i = leaf_view h i) → stored h' k v ↔ stored h k v.
Proof.
  intros Hv. rewrite !stored_view. by setoid_rewrite Hv.
Qed.

Lemma node_ok_set_parent pend G h i n q :
  node_ok pend G h i n → node_ok pend G h i (set_parent q n).
Proof. by destruct n. Qed.

Lemma pending_not_child G t X N i ks par cs :
  InvP (Some (X, N)) G t → nodes t !! i = Some (Internal ks par cs) → N ∉ cs.
Proof.
  intros HI Hi Hin.
  destruct (child_lvl _ _ _ _ _ _ _ _ HI Hi Hin) as (cn & Hcn & Hp & _).
  destruct (inv_pending HI) as ((xn & nn & _ & HN & HNp) & _). congruence.
Qed.

(** The chain fields carry over when the leaves keep their links. *)
Lemma chain_frame pend G G' t h' :
  InvP pend G t → chain G' = chain G →
  (∀ i n, nodes t !! i = Some n → is_leaf_node n = true →
     ∃ n', h' !! i = Some n' ∧ is_leaf_node n' = true ∧ pointer n' = pointer n ∧
           lo G' i = lo G i ∧ hi G' i = hi G i) →
  (∀ i n', h' !! i = Some n' → is_leaf_node n' = true →
     ∃ n, nodes t !! i = Some n ∧ is_leaf_node n = true) →
  (length (nodes t) <= length h')%nat →
  (∃ a rest, chain G' = a :: rest ∧ chain_ok G' h' a rest) ∧
  NoDup (chain G') ∧
  (∀ i, i ∈ chain G' ↔ ∃ n, h' !! i = Some n ∧ is_leaf_node n = true) ∧
  (length (chain G') <= length h')%nat.
Proof.
  intros HI HG Hfw Hbw Hlen. rewrite HG.
  destruct (inv_chain HI) as (a & rest & Hch & Hok).
  assert (∀ i, i ∈ a :: rest → ∃ n, nodes t !! i = Some n ∧ is_leaf_node n = true) as Hin.
  { intros i Hi. apply (inv_chain_leaves HI). by rewrite Hch. }
  split_and!.
  - exists a, rest. split; [done|]. eapply chain_ok_frame; [done| |].
    + intros i n Hi Hn. destruct (Hin i Hi) as (n0 & Hn0 & Hl0). simplify_eq.
      destruct (Hfw i n Hn Hl0) as (n' & ? & ? & ? & _). exists n'. split_and!; congruence.
    + intros i Hi. destruct (Hin i Hi) as (n0 & Hn0 & Hl0).
      destruct (Hfw i n0 Hn0 Hl0) as (n' & ? & ? & ? & ? & ?). done.
  - apply (inv_chain_nodup HI).
  - intros i. rewrite (inv_chain_leaves HI). split.
    + intros (n & Hn & Hl). destruct (Hfw i n Hn Hl) as (n' & ? & ? & _). eauto.
    + intros (n' & Hn' & Hl'). eauto.
  - pose proof (inv_chain_len HI). lia.
Qed.

Lemma link_parent_ok G t X N xn p sep ln :
  InvP (Some (X, N)) G t →
  nodes t !! X = Some xn → parent xn = Some p → hi G X = Some sep →
  ∃ pks ppar pcs j,
    nodes t !! p = Some (Internal pks ppar pcs) ∧ py_index X pcs = Some j ∧
    Inv G {| nodes := alter (set_parent (Some p)) N
                        (<[p := Internal (py_insert j sep pks) ppar
                                         (py_insert (S j) N pcs)]> (nodes t));
             root := root t; leaf_num := ln |} ∧
    ∀ i, leaf_view (alter (set_parent (Some p)) N
                      (<[p := Internal (py_insert j sep pks) ppar
                                       (py_insert (S j) N pcs)]> (nodes t))) i
         = leaf_view (nodes t) i.
Proof.
  intros HI HX HXp Hsep.
  destruct (parent_internal _ _ _ _ _ _ HI HX HXp) as (pks & ppar & pcs & Hp & HXin & Hlp).
  pose proof (inv_node HI _ _ Hp) as (Hne & Hlen & Hnd & Hch).
  apply list_elem_of_lookup in HXin as [j Hj].
  exists pks, ppar, pcs, j. split; [done|]. split; [by apply py_index_lookup|].
  destruct (inv_pending HI) as ((xn' & nn & HX' & HN & HNp) & HNr & HXN & HlN & (sep' & Hs1 & Hs2)).
  assert (sep' = sep) as -> by congruence. clear Hs1.
  assert (xn' = xn) as -> by congruence. clear HX'.
  assert (p ≠ N) as HpN by (intros ->; lia).
  assert (p ≠ X) as HpX by (intros ->; lia).
  assert (N ∉ pcs) as HNpcs by (by eapply pending_not_child).
  assert (j < length pcs)%nat as Hjlt by (by eapply lookup_lt_Some).
  set (pn' := Internal (py_insert j sep pks) ppar (py_insert (S j) N pcs)).
  set (h' := alter (set_parent (Some p)) N (<[p := pn']> (nodes t))).
  assert (∀ i, h' !! i = if decide (i = N) then Some (set_parent (Some p) nn)
                         else if decide (i = p) then Some pn' else nodes t !! i) as Hlook.
  { intros i. unfold h'. rewrite list_lookup_alter.
    case_decide as E1; [subst i|].
    - rewrite list_lookup_insert_ne by done. rewrite HN. by rewrite decide_True.
    - rewrite decide_False by done. rewrite list_lookup_insert.
      case_decide as E2; [destruct E2; subst; by rewrite decide_True|].
      case_decide; [|done]. subst i. apply lookup_lt_Some in Hp. lia. }
  assert (length h' = length (nodes t)) as Hlen'.
  { unfold h'. by rewrite length_alter, length_insert. }
  assert (X ≠ root t) as HXr.
  { intros ->. destruct (inv_root HI) as (r & Hr & Hrp). congruence. }
  assert ((∃ a rest, chain G = a :: rest ∧ chain_ok G h' a rest) ∧
          NoDup (chain G) ∧
          (∀ i, i ∈ chain G ↔ ∃ n, h' !! i = Some n ∧ is_leaf_node n = true) ∧
          (length (chain G) <= length h')%nat) as Hchain.
  { apply (chain_frame _ G G t h' HI); [done| | |lia].
    - intros i n Hn Hl. rewrite Hlook. case_decide; [subst i|].
      + assert (n = nn) as -> by congruence. eexists. split; [done|].
        by rewrite set_parent_leaf, set_parent_pointer.
      + case_decide; [|by exists n]. subst i. rewrite Hp in Hn. by simplify_eq.
    - intros i n'. rewrite Hlook. case_decide; [subst i|].
      + intros [= <-]. rewrite set_parent_leaf. eauto.
      + case_decide; [by intros [= <-]|]. eauto. }
  split; [|intros i; unfold leaf_view; fold pn' h'; rewrite Hlook;
            repeat case_decide; subst; rewrite ?HN, ?Hp; simpl;
            by rewrite ?node_view_set_parent].
  constructor; simpl; fold h'.
  - (* root *)
    destruct (inv_root HI) as (r & Hr & Hrp).
    rewrite Hlook. rewrite decide_False by done.
    case_decide; [|eauto]. subst p. simplify_eq. eauto.
  - apply (inv_root_lo HI).
  - pose proof (inv_root_hi HI) as Hh. simpl in Hh. by rewrite decide_False in Hh.
  - rewrite Hlen'. apply (inv_height HI).
  - rewrite Hlen'. apply (inv_lvl HI).
  - (* nodes *)
    intros i n. rewrite Hlook. case_decide as E1; [|case_decide as E2].
    + intros [= <-]. subst i. apply node_ok_set_parent.
      eapply node_ok_transfer; [by apply (inv_node HI _ _ HN)|done..|].
      intros c Hc. destruct nn as [|nks npar ncs]; [by apply elem_of_nil in Hc|].
      simpl in Hc.
      destruct (child_lvl _ _ _ _ _ _ _ _ HI HN Hc) as (cn & Hcn & Hcp & Hcl).
      assert (c ≠ X) by (intros ->; lia).
      split_and!; try done.
      * exists cn. rewrite Hlook. rewrite !decide_False; [done|intros ->; lia|intros ->; lia].
      * simpl. by rewrite decide_False.
    + intros [= <-]. subst i. unfold pn'. simpl. split_and!.
      * unfold py_insert. by destruct (take j pks).
      * rewrite !length_py_insert. lia.
      * by apply NoDup_py_insert.
      * intros i c. rewrite py_insert_lookup by lia.
        rewrite child_lo_insert, child_hi_insert by lia.
        destruct (decide (i < S j)%nat) as [Hi|Hi].
        -- intros Hc. destruct (Hch _ _ Hc) as (cn & Hcn & Hcp & Hcl & Hclo & Hchi).
           exists cn. rewrite Hlook.
           assert (c ≠ N) by (intros ->; apply HNpcs; by eapply list_elem_of_lookup_2).
           assert (c ≠ p) by (intros ->; lia).
           rewrite !decide_False by done. rewrite (decide_True (P := (i <= j)%nat)) by lia.
           split_and!; try done.
           simpl in Hchi. destruct (decide (i < j)%nat).
           ++ rewrite decide_False in Hchi; [done|].
              intros ->. pose proof (NoDup_lookup _ _ _ _ Hnd Hc Hj). lia.
           ++ assert (i = j) as -> by lia. simplify_eq. by rewrite decide_True.
        -- destruct (decide (i = S j)) as [->|Hi2].
           ++ intros [= <-]. exists (set_parent (Some p) nn). rewrite Hlook.
              dec_simpl. try rewrite set_parent_parent.
              replace (S j - 1)%nat with j by lia.
              destruct (Hch _ _ Hj) as (cn & Hcn & Hcp & Hcl & Hclo & Hchi).
              simpl in Hchi. rewrite decide_True in Hchi by done.
              split_and!; try done. lia.
           ++ intros Hc. destruct (Hch _ _ Hc) as (cn & Hcn & Hcp & Hcl & Hclo & Hchi).
              exists cn. rewrite Hlook.
              assert (c ≠ N) by (intros ->; apply HNpcs; by eapply list_elem_of_lookup_2).
              assert (c ≠ p) by (intros ->; lia).
              assert (c ≠ X).
              { intros ->. pose proof (NoDup_lookup _ _ _ _ Hnd Hc Hj). lia. }
              rewrite !decide_False by (done || lia).
              simpl in Hchi. rewrite decide_False in Hchi by done.
              split_and!; done.
    + intros Hn. eapply node_ok_transfer; [by apply (inv_node HI _ _ Hn)|done..|].
      intros c Hc. destruct n as [|nks npar ncs]; [by apply elem_of_nil in Hc|].
      simpl in Hc.
      destruct (child_lvl _ _ _ _ _ _ _ _ HI Hn Hc) as (cn & Hcn & Hcp & Hcl).
      assert (c ≠ N) by (intros ->; by eapply pending_not_child).
      assert (c ≠ X) by (intros ->; congruence).
      split_and!; try done.
      * rewrite Hlook. rewrite decide_False by done.
        case_decide; [|eauto]. subst c. simplify_eq. eexists; split; [done|]. done.
      * simpl. by rewrite decide_False.
  - (* parents *)
    intros i n. rewrite Hlook. unfold parent_ok.
    assert (∀ q qks qpar qcs, nodes t !! q = Some (Internal qks qpar qcs) →
              ∃ qks' qpar' qcs', h' !! q = Some (Internal qks' qpar' qcs') ∧
                                 ∀ c, c ∈ qcs → c ∈ qcs') as Hint.
    { intros q qks qpar qcs Hq. rewrite Hlook.
      case_decide; [subst q; simplify_eq; simpl; eauto 10|].
      case_decide; [subst q; simplify_eq|eauto 10].
      eexists _, _, _. split; [done|]. intros c Hc. apply elem_of_py_insert. by right. }
    case_decide as E1; [|case_decide as E2].
    + intros [= <-]. rewrite set_parent_parent.
      rewrite Hlook. rewrite decide_False by done. rewrite decide_True by done.
      eexists _, _, _. split; [done|]. apply elem_of_py_insert. by left.
    + intros [= <-]. subst i. simpl.
      pose proof (inv_parent HI _ _ Hp) as Hpo. unfold parent_ok in Hpo. simpl in Hpo.
      destruct ppar as [pp|].
      * destruct Hpo as (qks & qpar & qcs & Hq & Hin).
        destruct (Hint _ _ _ _ Hq) as (? & ? & ? & ? & Hsub). eauto 10.
      * destruct Hpo as [?|(? & [= _ ?])]; [by left|done].
    + intros Hn. pose proof (inv_parent HI _ _ Hn) as Hpo. unfold parent_ok in Hpo.
      destruct (parent n) as [q|].
      * destruct Hpo as (qks & qpar & qcs & Hq & Hin).
        destruct (Hint _ _ _ _ Hq) as (? & ? & ? & ? & Hsub). eauto 10.
      * destruct Hpo as [?|(? & [= _ ?])]; [by left|done].
  - done.
  - apply Hchain.
  - apply Hchain.
  - apply Hchain.
  - apply Hchain.
Qed.

Lemma pending_root_split G t X N xn :
  InvP (Some (X, N)) G t → nodes t !! X = Some xn → parent xn = None →
  X = root t ∧ lo G X = None ∧ hi G N = None.
Proof.
  intros HI HX HXp.
  destruct (inv_pending HI) as (_ & _ & HXN & _).
  pose proof (inv_parent HI _ _ HX) as Hpo. unfold parent_ok in Hpo.
  rewrite HXp in Hpo. destruct Hpo as [->|(? & [= _ ?])]; [|done].
  split; [done|]. split; [apply (inv_root_lo HI)|].
  pose proof (inv_root_hi HI) as Hh. simpl in Hh. by rewrite decide_True in Hh.
Qed.

Lemma link_root_ok G t X N xn sep ln :
  InvP (Some (X, N)) G t →
  nodes t !! X = Some xn → parent xn = None → hi G X = Some sep →
  let R := length (nodes t) in
  Inv {| lvl := upd (lvl G) R (S (lvl G X)); lo := upd (lo G) R None;
         hi := upd (hi G) R None; chain := chain G |}
      {| nodes := alter (set_parent (Some R)) N
                    (alter (set_parent (Some R)) X
                       (nodes t ++ [Internal [sep] None [X; N]]));
         root := R; leaf_num := ln |} ∧
  ∀ i, leaf_view (alter (set_parent (Some R)) N
                    (alter (set_parent (Some R)) X
                       (nodes t ++ [Internal [sep] None [X; N]]))) i
       = leaf_view (nodes t) i.
Proof.
  intros HI HX HXp Hsep R.
  destruct (pending_root_split _ _ _ _ _ HI HX HXp) as (HXr & HXlo & HNhi).
  destruct (inv_pending HI) as ((xn' & nn & HX' & HN & HNp) & HNr & HXN & HlN & (sep' & Hs1 & Hs2)).
  assert (sep' = sep) as -> by congruence. clear Hs1.
  assert (xn' = xn) as -> by congruence. clear HX'.
  assert (X < R)%nat as HXR by (by eapply lookup_lt_Some).
  assert (N < R)%nat as HNR by (by eapply lookup_lt_Some).
  set (rn := Internal [sep] None [X; N]).
  set (G' := {| lvl := upd (lvl G) R (S (lvl G X)); lo := upd (lo G) R None;
                hi := upd (hi G) R None; chain := chain G |}).
  set (h' := alter (set_parent (Some R)) N (alter (set_parent (Some R)) X (nodes t ++ [rn]))).
  assert (∀ i, h' !! i = if decide (i = N) then Some (set_parent (Some R) nn)
                         else if decide (i = X) then Some (set_parent (Some R) xn)
                         else if decide (i = R) then Some rn else nodes t !! i) as Hlook.
  { intros i. unfold h'. rewrite !list_lookup_alter, !lookup_snoc_decide. fold R.
    repeat case_decide; subst; try lia; try done.
    - by rewrite HN.
    - by rewrite HX. }
  assert (length h' = S R) as Hlen'.
  { unfold h'. rewrite !length_alter, length_app. simpl. unfold R. lia. }
  assert (∀ i, i ≠ R → lvl G' i = lvl G i ∧ lo G' i = lo G i ∧ hi G' i = hi G i) as HG.
  { intros i Hi. unfold G', upd. simpl. by rewrite !decide_False. }
  assert (∀ i n, nodes t !! i = Some n → i ≠ R) as Hne.
  { intros i n Hi ->. apply lookup_lt_Some in Hi. unfold R in Hi. lia. }
  assert ((∃ a rest, chain G' = a :: rest ∧ chain_ok G' h' a rest) ∧
          NoDup (chain G') ∧
          (∀ i, i ∈ chain G' ↔ ∃ n, h' !! i = Some n ∧ is_leaf_node n = true) ∧
          (length (chain G') <= length h')%nat) as Hchain.
  { apply (chain_frame _ G G' t h' HI); [done| | |lia].
    - intros i n Hn Hl. destruct (HG i) as (_ & -> & ->); [by eapply Hne|].
      rewrite Hlook. case_decide; [subst i|case_decide; [subst i|]].
      + assert (n = nn) as -> by congruence. eexists. split; [done|].
        by rewrite set_parent_leaf, set_parent_pointer.
      + assert (n = xn) as -> by congruence. eexists. split; [done|].
        by rewrite set_parent_leaf, set_parent_pointer.
      + rewrite decide_False by (by eapply Hne). by exists n.
    - intros i n'. rewrite Hlook. repeat case_decide; subst.
      + intros [= <-]. rewrite set_parent_leaf. eauto.
      + intros [= <-]. rewrite set_parent_leaf. eauto.
      + by intros [= <-].
      + eauto. }
  split; [|intros i; unfold leaf_view; fold rn h'; rewrite Hlook;
            repeat case_decide; subst; rewrite ?HN, ?HX; simpl;
            rewrite ?node_view_set_parent; try done;
            by rewrite (lookup_ge_None_2 (nodes t) R)].
  constructor; simpl; fold h' G'.
  - exists rn. rewrite Hlook. by dec_simpl.
  - unfold G', upd. simpl. by rewrite decide_True.
  - unfold G', upd. simpl. by rewrite decide_True.
  - rewrite Hlen'. unfold G', upd at 1. simpl. rewrite decide_True by done.
    pose proof (inv_height HI). subst X. fold R in H. lia.
  - rewrite Hlen'. intros i Hi. unfold G', upd. simpl. rewrite (decide_True (P := R = R)) by done.
    case_decide; [lia|]. pose proof (inv_lvl HI i). subst X. unfold R in *. lia.
  - intros i n. rewrite Hlook. case_decide as E1; [|case_decide as E2; [|case_decide as E3]].
    + intros [= <-]. subst i. apply node_ok_set_parent.
      destruct (HG N) as (? & ? & ?); [lia|].
      eapply node_ok_transfer; [by apply (inv_node HI _ _ HN)|done..|].
      intros c Hc. destruct nn as [|nks npar ncs]; [by apply elem_of_nil in Hc|].
      simpl in Hc.
      destruct (child_lvl _ _ _ _ _ _ _ _ HI HN Hc) as (cn & Hcn & Hcp & Hcl).
      assert (c ≠ X) by (intros ->; lia). assert (c ≠ N) by (intros ->; lia).
      destruct (HG c) as (? & ? & ?); [by eapply Hne|].
      split_and!; try done.
      * exists cn. rewrite Hlook. dec_simpl. rewrite decide_False by (by eapply Hne). done.
      * simpl. by rewrite decide_False.
    + intros [= <-]. subst i. apply node_ok_set_parent.
      destruct (HG X) as (? & ? & ?); [lia|].
      eapply node_ok_transfer; [by apply (inv_node HI _ _ HX)|done..|].
      intros c Hc. destruct xn as [|nks npar ncs]; [by apply elem_of_nil in Hc|].
      simpl in Hc.
      destruct (child_lvl _ _ _ _ _ _ _ _ HI HX Hc) as (cn & Hcn & Hcp & Hcl).
      assert (c ≠ X) by (intros ->; lia). assert (c ≠ N) by (intros ->; lia).
      destruct (HG c) as (? & ? & ?); [by eapply Hne|].
      split_and!; try done.
      * exists cn. rewrite Hlook. dec_simpl. rewrite decide_False by (by eapply Hne). done.
      * simpl. by rewrite decide_False.
    + intros [= <-]. subst i. unfold rn. simpl. split_and!; [done|done| |].
      * apply NoDup_cons. split; [by intros ?%list_elem_of_singleton|].
        apply NoDup_singleton.
      * destruct (HG X) as (? & ? & ?); [lia|]. destruct (HG N) as (? & ? & ?); [lia|].
        assert (lvl G' R = S (lvl G X) ∧ lo G' R = None ∧ hi G' R = None) as (HR1 & HR2 & HR3).
        { unfold G', upd. simpl. by rewrite !decide_True. }
        intros [|[|j]] c; simpl; [| |done].
        -- intros [= <-]. eexists. rewrite Hlook. dec_simpl.
           split; [done|]. rewrite set_parent_parent. unfold child_hi, upd. simpl.
           dec_simpl. split_and!; congruence.
        -- intros [= <-]. eexists. rewrite Hlook. dec_simpl.
           split; [done|]. rewrite set_parent_parent. unfold child_hi, upd. simpl.
           dec_simpl. split_and!; congruence.
    + intros Hn. destruct (HG i) as (? & ? & ?); [done|].
      eapply node_ok_transfer; [by apply (inv_node HI _ _ Hn)|done..|].
      intros c Hc. destruct n as [|nks npar ncs]; [by apply elem_of_nil in Hc|].
      simpl in Hc.
      destruct (child_lvl _ _ _ _ _ _ _ _ HI Hn Hc) as (cn & Hcn & Hcp & Hcl).
      assert (c ≠ N) by (intros ->; by eapply pending_not_child).
      assert (c ≠ X) by (intros ->; congruence).
      destruct (HG c) as (? & ? & ?); [by eapply Hne|].
      split_and!; try done.
      * exists cn. rewrite Hlook. dec_simpl. rewrite decide_False by (by eapply Hne). done.
      * simpl. by rewrite decide_False.
  - intros i n. rewrite Hlook. unfold parent_ok.
    assert (h' !! R = Some rn) as HR by (rewrite Hlook; by dec_simpl).
    case_decide as E1; [|case_decide as E2; [|case_decide as E3]].
    + intros [= <-]. subst i. rewrite set_parent_parent.
      eexists _, _, _. split; [exact HR|]. right. by left.
    + intros [= <-]. subst i. rewrite set_parent_parent.
      eexists _, _, _. split; [exact HR|]. by left.
    + intros [= <-]. simpl. by left.
    + intros Hn. pose proof (inv_parent HI _ _ Hn) as Hpo. unfold parent_ok in Hpo.
      destruct (parent n) as [q|].
      * destruct Hpo as (qks & qpar & qcs & Hq & Hin).
        assert (q ≠ R) by (by eapply Hne).
        rewrite Hlook. repeat case_decide; subst; try done.
        -- assert (nn = Internal qks qpar qcs) as -> by congruence. simpl. eauto 10.
        -- assert (xn = Internal qks qpar qcs) as -> by congruence. simpl. eauto 10.
        -- eauto 10.
      * destruct Hpo as [?|(? & [= _ ?])]; congruence.
  - done.
  - apply Hchain.
  - apply Hchain.
  - apply Hchain.
  - apply Hchain.
Qed.

Lemma elem_of_chain_insert X N l i :
  i ∈ chain_insert X N l ↔ i ∈ l ∨ (i = N ∧ X ∈ l).
Proof.
  induction l as [|a r IH]; simpl.
  - rewrite elem_of_nil. split; [done|]. intros [[]|[_ H]]. by apply elem_of_nil in H.
  - case_decide; subst; rewrite ?elem_of_cons, ?IH; naive_solver.
Qed.

Lemma NoDup_chain_insert X N l :
  NoDup l → N ∉ l → NoDup (chain_insert X N l).
Proof.
  induction l as [|a r IH]; simpl; [done|].
  rewrite NoDup_cons, not_elem_of_cons. intros [Ha Hr] [HNa HN].
  case_decide; subst.
  - rewrite !NoDup_cons, !not_elem_of_cons. naive_solver.
  - rewrite NoDup_cons, elem_of_chain_insert. naive_solver.
Qed.

Lemma length_chain_insert X N l : (length (chain_insert X N l) <= S (length l))%nat.
Proof. induction l; simpl; [lia|]. case_decide; simpl; lia. Qed.

Lemma chain_insert_ok G G' h h' X N xn a rest :
  chain_ok G h a rest → NoDup (a :: rest) → X ∈ a :: rest → N ∉ a :: rest → X ≠ N →
  h !! X = Some xn →
  (∃ xn', h' !! X = Some xn' ∧ is_leaf_node xn' = true ∧ pointer xn' = Some N) →
  (∃ nn', h' !! N = Some nn' ∧ is_leaf_node nn' = true ∧ pointer nn' = pointer xn) →
  (∀ i n, i ≠ X → i ≠ N → h !! i = Some n → h' !! i = Some n) →
  (∀ i, i ≠ N → lo G' i = lo G i) →
  (∀ i, i ≠ X → i ≠ N → hi G' i = hi G i) →
  (∃ s, hi G' X = Some s ∧ lo G' N = Some s) → hi G' N = hi G X →
  ∃ rest', chain_insert X N (a :: rest) = a :: rest' ∧ chain_ok G' h' a rest'.
Proof.
  intros Hc Hnd HX HN HXN HhX HX' HN' Hoth Hlo Hhi Hs HhiN. revert a Hc Hnd HX HN.
  induction rest as [|b rest IH]; intros a Hc Hnd HX HN.
  - apply list_elem_of_singleton in HX as ->. simpl. rewrite decide_True by done.
    eexists. split; [done|]. simpl.
    destruct HX' as (xn' & ? & ? & ?), HN' as (nn' & ? & ? & HpN).
    destruct Hc as (n & Hn & _ & Hp). assert (n = xn) as -> by congruence.
    exists xn'. split_and!; try done. exists nn'. split_and!; congruence.
  - simpl in Hc. destruct Hc as (n & Hn & Hl & Hp & (x & Hx1 & Hx2) & Hc).
    apply NoDup_cons in Hnd as [Ha Hnd].
    apply not_elem_of_cons in HN as [HNa HN].
    destruct (decide (a = X)) as [E|E].
    + subst a. exists (N :: b :: rest). split; [simpl; by rewrite decide_True|].
      assert (n = xn) as -> by congruence.
      destruct HX' as (xn' & ? & ? & ?), HN' as (nn' & ? & ? & HpN).
      cbn [chain_ok]. exists xn'. split_and!; try done.
      exists nn'. split_and!; try done; [congruence| |].
      * exists x. rewrite HhiN, Hlo; [done|]. intros ->. apply HN. by left.
      * eapply chain_ok_frame; [done| |].
        -- intros i m Hi Hm. exists m. split; [|done]. apply Hoth; [|by intros ->|done].
           by intros ->.
        -- intros i Hi. split; [apply Hlo; by intros ->|].
           apply Hhi; by intros ->.
    + apply elem_of_cons in HX as [?|HX]; [done|].
      destruct (IH b Hc Hnd HX HN) as (rest' & Hr & Hok).
      exists (b :: rest'). split.
      { simpl in *. rewrite decide_False by done. f_equal. exact Hr. }
      cbn [chain_ok]. exists n. split_and!; try done.
      * by apply Hoth.
      * exists x. rewrite Hhi by done. rewrite Hlo; [done|].
        intros ->. apply HN. by left.
Qed.

Lemma StronglySorted_take (ks : list Z) n :
  StronglySorted Z.lt ks → StronglySorted Z.lt (take n ks).
Proof. intros H. rewrite <- (take_drop n ks) in H. by apply StronglySorted_app_1_l in H. Qed.

Lemma StronglySorted_drop (ks : list Z) n :
  StronglySorted Z.lt ks → StronglySorted Z.lt (drop n ks).
Proof. intros H. rewrite <- (take_drop n ks) in H. by apply StronglySorted_app_1_r in H. Qed.

Lemma StronglySorted_lookup_le (ks : list Z) i j x y :
  StronglySorted Z.lt ks → (i <= j)%nat →
  ks !! i = Some x → ks !! j = Some y → x <= y.
Proof.
  intros Hs Hij Hi Hj. destruct (decide (i = j)) as [->|].
  - simplify_eq. lia.
  - pose proof (StronglySorted_lookup_lt ks i j x y Hs ltac:(lia) Hi Hj). lia.
Qed.

(** Cutting a leaf moves pairs between leaves without losing any. *)
Lemma stored_cut_leaf h X ks par vs ptr mid ptr' par' k v :
  h !! X = Some (Leaf ks par vs ptr) →
  stored (<[X := Leaf (take mid ks) par (take mid vs) ptr']> h
            ++ [Leaf (drop mid ks) par' (drop mid vs) ptr]) k v ↔ stored h k v.
Proof.
  intros HX. pose proof (lookup_lt_Some _ _ _ HX) as HXlt.
  assert (∀ i, (<[X := Leaf (take mid ks) par (take mid vs) ptr']> h
                  ++ [Leaf (drop mid ks) par' (drop mid vs) ptr]) !! i
      = if decide (i = length h) then Some (Leaf (drop mid ks) par' (drop mid vs) ptr)
        else if decide (i = X) then Some (Leaf (take mid ks) par (take mid vs) ptr')
        else h !! i) as Hlook.
  { intros i. rewrite lookup_snoc_decide, length_insert. case_decide; [done|].
    rewrite list_lookup_insert. repeat case_decide; try done; exfalso; naive_solver lia. }
  split.
  - intros (i & n & j & Hn & Hl & Hk & Hv). rewrite Hlook in Hn.
    repeat case_decide; simplify_eq; simpl in *.
    + rewrite lookup_drop in Hk, Hv. exists X, (Leaf ks par vs ptr), (mid + j)%nat. done.
    + apply lookup_take_Some in Hk as [Hk ?]. apply lookup_take_Some in Hv as [Hv ?].
      exists X, (Leaf ks par vs ptr), j. done.
    + exists i, n, j. done.
  - intros (i & n & j & Hn & Hl & Hk & Hv).
    destruct (decide (i = X)) as [->|].
    + assert (n = Leaf ks par vs ptr) as -> by congruence. simpl in *.
      destruct (decide (j < mid)%nat).
      * exists X, (Leaf (take mid ks) par (take mid vs) ptr'), j.
        rewrite Hlook. rewrite decide_False by lia. rewrite decide_True by done.
        simpl. by rewrite !lookup_take_lt.
      * exists (length h), (Leaf (drop mid ks) par' (drop mid vs) ptr), (j - mid)%nat.
        rewrite Hlook. rewrite decide_True by done. simpl. rewrite !lookup_drop.
        by replace (mid + (j - mid))%nat with j by lia.
    + exists i, n, j. rewrite Hlook.
      rewrite decide_False by (apply lookup_lt_Some in Hn; lia).
      by rewrite decide_False.
Qed.

Lemma half_lt n : (1 <= n)%nat → (n / 2 < n)%nat.
Proof. intros. apply Nat.div_lt; lia. Qed.

Lemma cut_leaf_ok G t X ks par vs ptr ln :
  Inv G t → nodes t !! X = Some (Leaf ks par vs ptr) → (1 <= length ks)%nat →
  let mid := (length ks / 2)%nat in
  let N := length (nodes t) in
  ∃ sep, head (drop mid ks) = Some sep ∧
    InvP (Some (X, N))
      {| lvl := upd (lvl G) N 0%nat; lo := upd (lo G) N (Some sep);
         hi := upd (upd (hi G) X (Some sep)) N (hi G X);
         chain := chain_insert X N (chain G) |}
      {| nodes := <[X := Leaf (take mid ks) par (take mid vs) (Some N)]> (nodes t)
                    ++ [Leaf (drop mid ks) None (drop mid vs) ptr];
         root := root t; leaf_num := ln |} ∧
    ∃ xn, (<[X := Leaf (take mid ks) par (take mid vs) (Some N)]> (nodes t)
             ++ [Leaf (drop mid ks) None (drop mid vs) ptr]) !! X = Some xn ∧
          parent xn = par.
Proof.
  intros HI HX Hks mid N.
  assert (mid < length ks)%nat as Hmid by (by apply half_lt).
  destruct (lookup_lt_is_Some_2 ks mid Hmid) as [sep Hsep].
  exists sep. split.
  { rewrite head_lookup, lookup_drop. by rewrite Nat.add_0_r. }
  pose proof (inv_node HI _ _ HX) as (Hl0 & Hlenv & Hs & Hall & Hble).
  assert (X < N)%nat as HXN by (by eapply lookup_lt_Some).
  set (ln' := Leaf (take mid ks) par (take mid vs) (Some N)).
  set (rn := Leaf (drop mid ks) None (drop mid vs) ptr).
  set (G' := {| lvl := upd (lvl G) N 0%nat; lo := upd (lo G) N (Some sep);
                hi := upd (upd (hi G) X (Some sep)) N (hi G X);
                chain := chain_insert X N (chain G) |}).
  set (h' := <[X := ln']> (nodes t) ++ [rn]).
  assert (∀ i, h' !! i = if decide (i = N) then Some rn
                         else if decide (i = X) then Some ln' else nodes t !! i) as Hlook.
  { intros i. unfold h'. rewrite lookup_snoc_decide, length_insert. fold N.
    case_decide; [done|]. rewrite list_lookup_insert.
    repeat case_decide; try done; exfalso; naive_solver lia. }
  assert (length h' = S N) as Hlen'.
  { unfold h'. rewrite length_app, length_insert. simpl. unfold N. lia. }
  assert (∀ i n, nodes t !! i = Some n → i ≠ N) as Hne.
  { intros i n Hi ->. apply lookup_lt_Some in Hi. unfold N in Hi. lia. }
  assert (∀ i, i ≠ N → lvl G' i = lvl G i ∧ lo G' i = lo G i) as HG1.
  { intros i Hi. unfold G', upd. simpl. by rewrite !decide_False. }
  assert (∀ i, i ≠ N → i ≠ X → hi G' i = hi G i) as HG2.
  { intros i Hi Hi'. unfold G', upd. simpl. by rewrite !decide_False. }
  assert (lvl G' N = 0%nat ∧ lo G' N = Some sep ∧ hi G' N = hi G X ∧ hi G' X = Some sep)
    as (HGN1 & HGN2 & HGN3 & HGX).
  { unfold G', upd. simpl. rewrite !decide_True by done.
    rewrite decide_False by lia. by rewrite decide_True. }
  assert (in_range (lo G X) (hi G X) sep) as [Hsep1 Hsep2].
  { rewrite Forall_lookup in Hall. eauto. }
  assert (∀ i, i ≠ N → hi_par (Some (X, N)) G' i = hi G i) as Hhp.
  { intros i Hi. simpl. case_decide; [by subst|]. by apply HG2. }
  assert (chain G' = chain_insert X N (chain G)) as HGc by done.
  split; [|exists ln'; fold ln' rn h'; rewrite Hlook;
            rewrite decide_False by lia; by rewrite decide_True].
  clearbody G' h'. constructor; simpl; rewrite ?HGc.
  - destruct (inv_root HI) as (r & Hr & Hrp). rewrite Hlook.
    rewrite decide_False by (by eapply Hne). case_decide; [|eauto].
    subst X. assert (r = Leaf ks par vs ptr) as -> by congruence. eauto.
  - destruct (HG1 (root t)) as [_ ->].
    { destruct (inv_root HI) as (r & Hr & _). by eapply Hne. }
    apply (inv_root_lo HI).
  - case_decide.
    + subst X. rewrite HGN3. apply (inv_root_hi HI).
    + rewrite HG2; [apply (inv_root_hi HI)| |done].
      destruct (inv_root HI) as (r & Hr & _). by eapply Hne.
  - rewrite Hlen'. destruct (HG1 (root t)) as [-> _].
    { destruct (inv_root HI) as (r & Hr & _). by eapply Hne. }
    pose proof (inv_height HI). fold N in H. lia.
  - rewrite Hlen'. intros i Hi. destruct (HG1 (root t)) as [-> _].
    { destruct (inv_root HI) as (r & Hr & _). by eapply Hne. }
    destruct (decide (i = N)) as [->|]; [rewrite HGN1; lia|].
    destruct (HG1 i) as [-> _]; [done|]. apply (inv_lvl HI). unfold N in *. lia.
  - intros i n. rewrite Hlook. case_decide as E1; [|case_decide as E2].
    + intros [= <-]. subst i. unfold rn. simpl. rewrite HGN1, HGN2, HGN3.
      split_and!; [done| | | |].
      * rewrite !length_drop. lia.
      * by apply StronglySorted_drop.
      * apply Forall_lookup. intros j k. rewrite lookup_drop. intros Hk. split.
        -- intros a [= <-]. apply (StronglySorted_lookup_le ks mid (mid + j) sep k); [done|lia|done..].
        -- intros b Hb. rewrite Forall_lookup in Hall. by apply (Hall _ _ Hk).
      * intros a b [= <-] Hb. specialize (Hsep2 _ Hb). lia.
    + intros [= <-]. subst i. unfold ln'. simpl.
      destruct (HG1 X) as [-> ->]; [lia|]. rewrite HGX.
      split_and!; [done| | | |].
      * rewrite !length_take. lia.
      * by apply StronglySorted_take.
      * apply Forall_lookup. intros j k. intros [Hk Hj]%lookup_take_Some. split.
        -- intros a Ha. rewrite Forall_lookup in Hall. by apply (Hall _ _ Hk).
        -- intros b [= <-]. by apply (StronglySorted_lookup_lt ks j mid k sep).
      * intros a b Ha [= <-]. by apply Hsep1.
    + intros Hn. destruct (HG1 i) as [? ?]; [done|].
      eapply node_ok_transfer; [by apply (inv_node HI _ _ Hn)|done|done|by apply HG2|].
      intros c Hc. destruct n as [|nks npar ncs]; [by apply elem_of_nil in Hc|].
      simpl in Hc.
      destruct (child_lvl _ _ _ _ _ _ _ _ HI Hn Hc) as (cn & Hcn & Hcp & Hcl).
      assert (c ≠ N) by (by eapply Hne).
      destruct (HG1 c) as [? ?]; [done|].
      split_and!; try done; [|by rewrite Hhp by done].
      rewrite Hlook. rewrite decide_False by done. case_decide; [|eauto].
      subst c. assert (cn = Leaf ks par vs ptr) as -> by congruence. eauto.
  - intros i n. rewrite Hlook. unfold parent_ok.
    assert (∀ q qks qpar qcs, nodes t !! q = Some (Internal qks qpar qcs) →
              h' !! q = Some (Internal qks qpar qcs)) as Hint.
    { intros q qks qpar qcs Hq. rewrite Hlook.
      rewrite decide_False by (by eapply Hne). rewrite decide_False; [done|].
      intros ->. congruence. }
    case_decide as E1; [|case_decide as E2].
    + intros [= <-]. subst i. simpl. right. eauto.
    + intros [= <-]. subst i. simpl.
      pose proof (inv_parent HI _ _ HX) as Hpo. unfold parent_ok in Hpo. simpl in Hpo.
      destruct par as [q|].
      * destruct Hpo as (qks & qpar & qcs & Hq & Hin). eauto 10.
      * destruct Hpo as [?|(? & [=])]. by left.
    + intros Hn. pose proof (inv_parent HI _ _ Hn) as Hpo. unfold parent_ok in Hpo.
      destruct (parent n) as [q|].
      * destruct Hpo as (qks & qpar & qcs & Hq & Hin). eauto 10.
      * destruct Hpo as [?|(? & [=])]. by left.
  - split_and!.
    + exists ln', rn. rewrite !Hlook. rewrite (decide_False (P := X = N)) by lia.
      by rewrite !decide_True.
    + destruct (inv_root HI) as (r & Hr & _). intros E. by apply (Hne _ _ Hr).
    + lia.
    + destruct (HG1 X) as [-> _]; [lia|]. by rewrite HGN1.
    + eauto.
  - destruct (inv_chain HI) as (a & rest & Hch & Hok).
    destruct (chain_insert_ok G G' (nodes t) h' X N (Leaf ks par vs ptr) a rest)
      as (rest' & Hr & Hok'); try done.
    + rewrite <- Hch. apply (inv_chain_nodup HI).
    + rewrite <- Hch. apply (inv_chain_leaves HI). eauto.
    + rewrite <- Hch. intros (n & Hn & _)%(inv_chain_leaves HI). by eapply Hne.
    + lia.
    + exists ln'. rewrite Hlook. rewrite decide_False by lia. by rewrite decide_True.
    + exists rn. rewrite Hlook. by rewrite decide_True.
    + intros i n ? ? Hn. rewrite Hlook. by rewrite !decide_False.
    + intros i Hi. by apply HG1.
    + intros i ? ?. by apply HG2.
    + eauto.
    + exists a, rest'. by rewrite Hch, Hr.
  - apply NoDup_chain_insert; [apply (inv_chain_nodup HI)|].
    intros (n & Hn & _)%(inv_chain_leaves HI). by eapply Hne.
  - intros i. rewrite elem_of_chain_insert, !(inv_chain_leaves HI). rewrite Hlook.
    split.
    + intros [(n & Hn & Hl)|[-> _]].
      * rewrite decide_False by (by eapply Hne). case_decide; eauto.
      * rewrite decide_True by done. eauto.
    + repeat case_decide; subst.
      * intros _. right. eauto.
      * intros _. left. eauto.
      * intros ?. by left.
  - rewrite Hlen'. pose proof (length_chain_insert X N (chain G)).
    pose proof (inv_chain_len HI). fold N in H0. lia.
Qed.

Lemma set_parent_idemp q n : set_parent q (set_parent q n) = set_parent q n.
Proof. by destruct n. Qed.

Lemma set_parents_lookup cs p h i :
  set_parents cs p h !! i =
    if decide (i ∈ cs) then set_parent (Some p) <$> h !! i else h !! i.
Proof.
  unfold set_parents. revert h. induction cs as [|a cs IH]; intros h; simpl.
  { destruct (decide (i ∈ [])) as [H|]; [by apply elem_of_nil in H|done]. }
  rewrite IH, list_lookup_alter.
  destruct (decide (i ∈ cs)) as [Hin|Hin].
  - rewrite (decide_True (P := i ∈ a :: cs)) by (apply elem_of_cons; by right).
    case_decide; [|done]. subst.
    destruct (h !! i); simpl; [|done]. by rewrite set_parent_idemp.
  - case_decide.
    + subst. by rewrite (decide_True (P := i ∈ i :: cs)) by (apply elem_of_cons; by left).
    + rewrite decide_False; [done|]. rewrite not_elem_of_cons. done.
Qed.

Lemma length_set_parents cs p h : length (set_parents cs p h) = length h.
Proof.
  unfold set_parents. revert h. induction cs as [|a cs IH]; intros h; simpl; [done|].
  by rewrite IH, length_alter.
Qed.

Lemma half_bounds n : (3 <= n)%nat → (1 <= n / 2 ∧ S (n / 2) < n)%nat.
Proof.
  intros. pose proof (Nat.div_mod_eq n 2). pose proof (Nat.mod_upper_bound n 2). lia.
Qed.

Lemma stored_frame h h' k v :
  (∀ i n, h !! i = Some n → is_leaf_node n = true →
     ∃ n', h' !! i = Some n' ∧ is_leaf_node n' = true ∧
           keys n' = keys n ∧ values n' = values n) →
  stored h k v → stored h' k v.
Proof.
  intros Hf (i & n & j & Hn & Hl & Hk & Hv).
  destruct (Hf i n Hn Hl) as (n' & Hn' & Hl' & Hk' & Hv').
  exists i, n', j. rewrite Hk', Hv'. done.
Qed.

Lemma cut_internal_ok G t X ks par cs ln :
  Inv G t → nodes t !! X = Some (Internal ks par cs) → (3 <= length ks)%nat →
  let mid := (length ks / 2)%nat in
  let N := length (nodes t) in
  ∃ sep, ks !! mid = Some sep ∧
    InvP (Some (X, N))
      {| lvl := upd (lvl G) N (lvl G X); lo := upd (lo G) N (Some sep);
         hi := upd (upd (hi G) X (Some sep)) N (hi G X);
         chain := chain G |}
      {| nodes := set_parents (drop (S mid) cs) N
                    (<[X := Internal (take mid ks) par (take (S mid) cs)]> (nodes t)
                       ++ [Internal (drop (S mid) ks) None (drop (S mid) cs)]);
         root := root t; leaf_num := ln |} ∧
    (∃ xn, set_parents (drop (S mid) cs) N
             (<[X := Internal (take mid ks) par (take (S mid) cs)]> (nodes t)
                ++ [Internal (drop (S mid) ks) None (drop (S mid) cs)]) !! X = Some xn ∧
           parent xn = par) ∧
    ∀ i, leaf_view (set_parents (drop (S mid) cs) N
                    (<[X := Internal (take mid ks) par (take (S mid) cs)]> (nodes t)
                       ++ [Internal (drop (S mid) ks) None (drop (S mid) cs)])) i
         = leaf_view (nodes t) i.
Proof.
  intros HI HX Hks mid N.
  destruct (half_bounds _ Hks) as [Hmid1 Hmid2]. fold mid in Hmid1, Hmid2.
  destruct (lookup_lt_is_Some_2 ks mid) as [sep Hsep]; [lia|].
  exists sep. split; [done|].
  pose proof (inv_node HI _ _ HX) as (Hne0 & Hlen & Hnd & Hch).
  assert (X < N)%nat as HXN by (by eapply lookup_lt_Some).
  set (ln' := Internal (take mid ks) par (take (S mid) cs)).
  set (rn := Internal (drop (S mid) ks) None (drop (S mid) cs)).
  set (moved := drop (S mid) cs).
  set (G' := {| lvl := upd (lvl G) N (lvl G X); lo := upd (lo G) N (Some sep);
                hi := upd (upd (hi G) X (Some sep)) N (hi G X);
                chain := chain G |}).
  set (h' := set_parents moved N (<[X := ln']> (nodes t) ++ [rn])).
  assert (∀ i n, nodes t !! i = Some n → i ≠ N) as Hne.
  { intros i n Hi ->. apply lookup_lt_Some in Hi. unfold N in Hi. lia. }
  assert (∀ c, c ∈ cs → ∃ cn, nodes t !! c = Some cn ∧ parent cn = Some X ∧
                             lvl G X = S (lvl G c) ∧ c ≠ X ∧ c ≠ N) as Hcs.
  { intros c Hc. destruct (child_lvl _ _ _ _ _ _ _ _ HI HX Hc) as (cn & Hcn & Hcp & Hcl).
    exists cn. split_and!; try done; [intros ->; lia|by eapply Hne]. }
  assert (∀ c, c ∈ moved → c ∈ cs) as Hmv.
  { intros c Hc. unfold moved in Hc. rewrite <- (take_drop (S mid) cs).
    apply elem_of_app. by right. }
  assert (∀ c, c ∈ take (S mid) cs → c ∈ cs ∧ c ∉ moved) as Hkept.
  { intros c Hc. rewrite <- (take_drop (S mid) cs) in Hnd.
    apply NoDup_app in Hnd as (_ & Hdis & _). split; [|by apply Hdis].
    rewrite <- (take_drop (S mid) cs). apply elem_of_app. by left. }
  assert (∀ i, h' !! i = if decide (i = N) then Some rn
                         else if decide (i = X) then Some ln'
                         else if decide (i ∈ moved) then set_parent (Some N) <$> nodes t !! i
                         else nodes t !! i) as Hlook.
  { intros i. unfold h'. rewrite set_parents_lookup.
    rewrite lookup_snoc_decide, length_insert. fold N. rewrite list_lookup_insert.
    destruct (decide (i ∈ moved)) as [Hin|Hin].
    - destruct (Hcs i (Hmv i Hin)) as (cn & Hcn & _ & _ & ? & ?).
      rewrite !decide_False; [done|naive_solver..].
    - repeat case_decide; try done; exfalso; naive_solver lia. }
  assert (length h' = S N) as Hlen'.
  { unfold h'. rewrite length_set_parents, length_app, length_insert. simpl. unfold N. lia. }
  assert (∀ i, i ≠ N → lvl G' i = lvl G i ∧ lo G' i = lo G i) as HG1.
  { intros i Hi. unfold G', upd. simpl. by rewrite !decide_False. }
  assert (∀ i, i ≠ N → i ≠ X → hi G' i = hi G i) as HG2.
  { intros i Hi Hi'. unfold G', upd. simpl. by rewrite !decide_False. }
  assert (lvl G' N = lvl G X ∧ lo G' N = Some sep ∧ hi G' N = hi G X ∧ hi G' X = Some sep)
    as (HGN1 & HGN2 & HGN3 & HGX).
  { unfold G', upd. simpl. rewrite !decide_True by done.
    rewrite decide_False by lia. by rewrite decide_True. }
  assert (∀ i, i ≠ N → hi_par (Some (X, N)) G' i = hi G i) as Hhp.
  { intros i Hi. simpl. case_decide; [by subst|]. by apply HG2. }
  assert (chain G' = chain G) as HGc by done.
  assert (root t ≠ N ∧ root t ∉ moved) as [HrN Hrm].
  { destruct (inv_root HI) as (r & Hr & Hrp). split; [by eapply Hne|].
    intros Hin. destruct (Hcs _ (Hmv _ Hin)) as (cn & ? & ? & _). congruence. }
  assert ((∃ a rest, chain G' = a :: rest ∧ chain_ok G' h' a rest) ∧
          NoDup (chain G') ∧
          (∀ i, i ∈ chain G' ↔ ∃ n, h' !! i = Some n ∧ is_leaf_node n = true) ∧
          (length (chain G') <= length h')%nat) as Hchain.
  { apply (chain_frame _ G G' t h' HI); [done| | |lia].
    - intros i n Hn Hl. assert (i ≠ N) by (by eapply Hne).
      assert (i ≠ X) by (intros ->; rewrite HX in Hn; by simplify_eq).
      destruct (HG1 i) as [_ ->]; [done|]. rewrite HG2 by done.
      rewrite Hlook. rewrite !decide_False by done. rewrite Hn. case_decide; simpl.
      + eexists. split; [done|]. by rewrite set_parent_leaf, set_parent_pointer.
      + by exists n.
    - intros i n'. rewrite Hlook. repeat case_decide; subst.
      + by intros [= <-].
      + by intros [= <-].
      + destruct (nodes t !! i) as [n|] eqn:E; simpl; [|done].
        intros [= <-]. rewrite set_parent_leaf. eauto.
      + eauto. }
  split; [|split; [exists ln'; fold ln' rn moved h'; rewrite Hlook;
                   rewrite decide_False by lia; by rewrite decide_True|];
           intros i; unfold leaf_view; fold ln' rn moved h'; rewrite Hlook;
            repeat case_decide; subst; rewrite ?HX; simpl; try done;
            [by rewrite (lookup_ge_None_2 (nodes t) N)
            |destruct (nodes t !! i); simpl; by rewrite ?node_view_set_parent]].
  clearbody G' h'. constructor; simpl.
  - destruct (inv_root HI) as (r & Hr & Hrp). rewrite Hlook.
    rewrite decide_False by done. case_decide.
    + subst X. assert (r = Internal ks par cs) as -> by congruence. eauto.
    + rewrite decide_False by done. eauto.
  - destruct (HG1 (root t)) as [_ ->]; [done|]. apply (inv_root_lo HI).
  - case_decide.
    + subst X. rewrite HGN3. apply (inv_root_hi HI).
    + rewrite HG2 by done. apply (inv_root_hi HI).
  - rewrite Hlen'. destruct (HG1 (root t)) as [-> _]; [done|].
    pose proof (inv_height HI). fold N in H. lia.
  - rewrite Hlen'. intros i Hi. destruct (HG1 (root t)) as [-> _]; [done|].
    destruct (decide (i = N)) as [->|].
    + rewrite HGN1. apply (inv_lvl HI). by eapply lookup_lt_Some.
    + destruct (HG1 i) as [-> _]; [done|]. apply (inv_lvl HI). unfold N in *. lia.
  - intros i n. rewrite Hlook.
    case_decide as E1; [|case_decide as E2; [|case_decide as E3]].
    + (* the sibling *)
      intros [= <-]. subst i. unfold rn. simpl. split_and!.
      * intros E. apply (f_equal length) in E. rewrite length_drop in E. simpl in E. lia.
      * rewrite !length_drop. lia.
      * apply (sublist_NoDup _ cs); [done|apply sublist_drop].
      * intros j c Hj. pose proof Hj as Hj'. rewrite lookup_drop in Hj'.
        destruct (Hch _ _ Hj') as (cn & Hcn & Hcp & Hcl & Hclo & Hchi).
        assert (c ∈ moved) as Hcm by (by eapply list_elem_of_lookup_2).
        destruct (Hcs _ (Hmv _ Hcm)) as (_ & _ & _ & _ & ? & ?).
        exists (set_parent (Some N) cn). rewrite Hlook.
        rewrite !decide_False by done. rewrite decide_True by done.
        rewrite Hcn. simpl. rewrite set_parent_parent.
        destruct (HG1 c) as [-> ->]; [done|].
        rewrite ?(decide_False (P := c = X)) by done. rewrite (HG2 c) by done.
        rewrite HGN1, HGN2, HGN3. split_and!; [done|done|done| |].
        -- rewrite Hclo. simpl. destruct j as [|j]; simpl.
           ++ by rewrite Nat.add_0_r.
           ++ rewrite lookup_drop. f_equal. lia.
        -- simpl in Hchi. rewrite Hchi. unfold child_hi. by rewrite lookup_drop.
    + (* the cut node *)
      intros [= <-]. subst i. unfold ln'. simpl. split_and!.
      * intros E. apply (f_equal length) in E. rewrite length_take in E. simpl in E. lia.
      * rewrite !length_take. lia.
      * apply (sublist_NoDup _ cs); [done|apply sublist_take].
      * intros j c [Hj Hjlt]%lookup_take_Some.
        destruct (Hch _ _ Hj) as (cn & Hcn & Hcp & Hcl & Hclo & Hchi).
        assert (c ∈ take (S mid) cs) as Hck.
        { apply elem_of_take. eauto. }
        destruct (Hkept _ Hck) as [Hcin Hcnm].
        destruct (Hcs _ Hcin) as (_ & _ & _ & _ & ? & ?).
        exists cn. rewrite Hlook. rewrite !decide_False by done.
        destruct (HG1 c) as [-> ->]; [done|].
        rewrite ?(decide_False (P := c = X)) by done. rewrite (HG2 c) by done.
        destruct (HG1 X) as [-> ->]; [lia|]. rewrite HGX.
        split_and!; [done|done|done| |].
        -- rewrite Hclo. destruct j as [|j]; simpl; [done|].
           by rewrite lookup_take_lt by lia.
        -- simpl in Hchi. rewrite Hchi. unfold child_hi.
           destruct (decide (j < mid)%nat).
           ++ rewrite lookup_take_lt by done.
              destruct (ks !! j) eqn:E; [done|]. apply lookup_ge_None in E. lia.
           ++ assert (j = mid) as -> by lia. rewrite Hsep.
              by rewrite lookup_take_ge.
    + (* a child handed over to the sibling *)
      destruct (nodes t !! i) as [n0|] eqn:Hn0; simpl; [|done]. intros [= <-].
      apply node_ok_set_parent.
      destruct (Hcs _ (Hmv _ E3)) as (cn & Hcn & Hcp & Hcl & _). simplify_eq.
      destruct (HG1 i) as [? ?]; [done|].
      eapply node_ok_transfer; [by apply (inv_node HI _ _ Hn0)|done|done|by apply HG2|].
      intros c Hc. destruct n0 as [|nks npar ncs]; [by apply elem_of_nil in Hc|].
      simpl in Hc.
      destruct (child_lvl _ _ _ _ _ _ _ _ HI Hn0 Hc) as (cn & Hcn & Hcp' & Hcl').
      assert (c ≠ N) by (by eapply Hne).
      assert (c ≠ X) by (intros ->; lia).
      assert (c ∉ moved).
      { intros Hin. destruct (Hcs _ (Hmv _ Hin)) as (? & ? & ? & ? & _). lia. }
      destruct (HG1 c) as [? ?]; [done|].
      split_and!; try done; [|by rewrite Hhp by done].
      exists cn. rewrite Hlook. by rewrite !decide_False.
    + (* any other node *)
      intros Hn. destruct (HG1 i) as [? ?]; [done|].
      eapply node_ok_transfer; [by apply (inv_node HI _ _ Hn)|done|done|by apply HG2|].
      intros c Hc. destruct n as [|nks npar ncs]; [by apply elem_of_nil in Hc|].
      simpl in Hc.
      destruct (child_lvl _ _ _ _ _ _ _ _ HI Hn Hc) as (cn & Hcn & Hcp & Hcl).
      assert (c ≠ N) by (by eapply Hne).
      assert (c ∉ moved).
      { intros Hin. destruct (Hcs _ (Hmv _ Hin)) as (? & ? & ? & _). congruence. }
      destruct (HG1 c) as [? ?]; [done|].
      split_and!; try done; [|by rewrite Hhp by done].
      rewrite Hlook. rewrite decide_False by done. case_decide.
      * subst c. assert (cn = Internal ks par cs) as -> by congruence. eauto.
      * rewrite decide_False by done. eauto.
  - intros i n. rewrite Hlook. unfold parent_ok.
    assert (∀ q qks qpar qcs, nodes t !! q = Some (Internal qks qpar qcs) → q ≠ X →
              ∃ qpar', h' !! q = Some (Internal qks qpar' qcs)) as Hint.
    { intros q qks qpar qcs Hq HqX. rewrite Hlook.
      rewrite decide_False by (by eapply Hne). rewrite decide_False by done.
      rewrite Hq. case_decide; simpl; eauto. }
    assert (h' !! X = Some ln') as HX'.
    { rewrite Hlook. rewrite decide_False by lia. by rewrite decide_True. }
    assert (h' !! N = Some rn) as HN' by (rewrite Hlook; by rewrite decide_True).
    case_decide as E1; [|case_decide as E2; [|case_decide as E3]].
    + intros [= <-]. subst i. simpl. right. eauto.
    + intros [= <-]. subst i. simpl.
      pose proof (inv_parent HI _ _ HX) as Hpo. unfold parent_ok in Hpo. simpl in Hpo.
      destruct par as [q|].
      * destruct Hpo as (qks & qpar & qcs & Hq & Hin).
        destruct (Hint _ _ _ _ Hq) as (qpar' & Hq').
        { intros ->. assert (qcs = cs) as -> by congruence.
          destruct (Hcs _ Hin) as (_ & _ & _ & _ & ? & _). done. }
        eauto 10.
      * destruct Hpo as [?|(? & [=])]. by left.
    + destruct (nodes t !! i) as [n0|] eqn:Hn0; simpl; [|done]. intros [= <-].
      rewrite set_parent_parent. eexists _, _, _. split; [exact HN'|done].
    + intros Hn. pose proof (inv_parent HI _ _ Hn) as Hpo. unfold parent_ok in Hpo.
      destruct (parent n) as [q|].
      * destruct Hpo as (qks & qpar & qcs & Hq & Hin).
        destruct (decide (q = X)) as [->|HqX].
        -- assert (qcs = cs) as -> by congruence.
           eexists _, _, _. split; [exact HX'|].
           rewrite <- (take_drop (S mid) cs) in Hin.
           apply elem_of_app in Hin as [?|?]; done.
        -- destruct (Hint _ _ _ _ Hq HqX) as (qpar' & Hq'). eauto 10.
      * destruct Hpo as [?|(? & [=])]. by left.
  - split_and!.
    + exists ln', rn. rewrite !Hlook. rewrite (decide_False (P := X = N)) by lia.
      by rewrite !decide_True.
    + done.
    + lia.
    + destruct (HG1 X) as [-> _]; [lia|]. done.
    + eauto.
  - apply Hchain.
  - apply Hchain.
  - apply Hchain.
  - apply Hchain.
Qed.

Lemma split_step_ok G t X n :
  Inv G t → nodes t !! X = Some n → splittable n →
  ∃ G' t' r,
    split_step t X = Some (t', r) ∧ Inv G' t' ∧
    (∀ k v, stored (nodes t') k v ↔ stored (nodes t) k v) ∧
    match r with
    | None => True
    | Some p =>
        ∃ pn, nodes t' !! p = Some pn ∧ splittable pn ∧
              (lvl G' (root t') - lvl G' p < lvl G (root t) - lvl G X)%nat
    end.
Proof.
  intros HI HX Hsp. unfold split_step. rewrite HX.
  set (N := length (nodes t)).
  assert (X < N)%nat as HXN by (by eapply lookup_lt_Some).
  (* the cut *)
  assert (∃ G1 h1 sep xn,
            split_halves (nodes t) X n = Some (h1, sep) ∧
            (∀ ln, InvP (Some (X, N)) G1 {| nodes := h1; root := root t; leaf_num := ln |}) ∧
            h1 !! X = Some xn ∧ parent xn = parent n ∧
            hi G1 X = Some sep ∧
            (∀ i, i ≠ N → lvl G1 i = lvl G i) ∧
            (∀ k v, stored h1 k v ↔ stored (nodes t) k v))
    as (G1 & h1 & sep & xn & -> & HI1 & HX1 & Hpar & Hhi & Hlvl & Hst1).
  { destruct n as [ks par vs ptr|ks par cs]; simpl in Hsp.
    - destruct (cut_leaf_ok G t X ks par vs ptr 0 HI HX Hsp) as (sep & Hsep & _ & xn & Hxn & Hxp).
      cbv zeta in Hsep, Hxn.
      eexists _, _, sep, xn. unfold split_halves. cbv zeta. rewrite Hsep. split; [done|].
      split_and!; [| | | | |].
      + intros ln.
        destruct (cut_leaf_ok G t X ks par vs ptr ln HI HX Hsp) as (sep' & Hsep' & HI' & _).
        assert (sep' = sep) as -> by congruence. exact HI'.
      + done.
      + done.
      + unfold upd. simpl. fold N. rewrite decide_False by lia. by rewrite decide_True.
      + intros i Hi. unfold upd. simpl. fold N. by rewrite decide_False.
      + intros k v. by apply stored_cut_leaf.
    - destruct (cut_internal_ok G t X ks par cs 0 HI HX Hsp)
        as (sep & Hsep & _ & (xn & Hxn & Hxp) & Hview).
      cbv zeta in Hsep, Hxn, Hview.
      eexists _, _, sep, xn. unfold split_halves. cbv zeta. rewrite Hsep. split; [done|].
      split_and!; [| | | | |].
      + intros ln.
        destruct (cut_internal_ok G t X ks par cs ln HI HX Hsp) as (sep' & Hsep' & HI' & _).
        assert (sep' = sep) as -> by congruence. exact HI'.
      + done.
      + done.
      + unfold upd. simpl. fold N. rewrite decide_False by lia. by rewrite decide_True.
      + intros i Hi. unfold upd. simpl. fold N. by rewrite decide_False.
      + intros k v. by apply stored_view_ext. }
  set (leaves := if is_leaf_node n then S (leaf_num t) else leaf_num t).
  destruct (parent n) as [p|] eqn:Hp.
  - (* the sibling goes into the parent *)
    destruct (link_parent_ok G1 _ X N xn p sep leaves (HI1 0%nat) HX1 Hpar Hhi)
      as (pks & ppar & pcs & j & Hpn & Hidx & HI2 & Hview).
    simpl in Hpn, HI2, Hview. rewrite Hpn, Hidx.
    eexists G1, _, _. split; [done|]. split; [exact HI2|]. split.
    { intros k v. rewrite <- Hst1. by apply stored_view_ext. }
    simpl. destruct (Nat.ltb_spec 4 (length (py_insert j sep pks))) as [Hlt|]; [|done].
    assert (p ≠ N) as HpN.
    { intros ->. destruct (parent_internal _ _ _ _ _ _ (HI1 0%nat) HX1 Hpar)
        as (? & ? & ? & _ & _ & Hl).
      destruct (inv_pending (HI1 0%nat)) as (_ & _ & _ & HlN & _). lia. }
    eexists. split.
    { rewrite list_lookup_alter_ne by done. apply list_lookup_insert_eq.
      by eapply lookup_lt_Some. }
    split; [simpl; lia|].
    destruct (parent_internal _ _ _ _ _ _ HI HX Hp) as (? & ? & ? & Hpt & _ & Hl).
    pose proof (inv_lvl HI p (lookup_lt_Some _ _ _ Hpt)).
    destruct (inv_root HI) as (r & Hr & _).
    assert (root t ≠ N) as HrN.
    { intros E. apply lookup_lt_Some in Hr. fold N in Hr. lia. }
    rewrite (Hlvl (root t)) by done. rewrite (Hlvl p) by done. lia.
  - (* a new root *)
    destruct (link_root_ok G1 _ X N xn sep leaves (HI1 0%nat) HX1 Hpar Hhi) as [HI2 Hview].
    simpl in HI2, Hview.
    replace (length h1) with (length (nodes {| nodes := h1; root := root t; leaf_num := 0 |}))
      by done.
    eexists _, _, None. split; [done|]. split; [exact HI2|]. split; [|done].
    intros k v. rewrite <- Hst1. by apply stored_view_ext.
Qed.

Lemma split_node_ok fuel G t X n :
  Inv G t → nodes t !! X = Some n → splittable n →
  (lvl G (root t) - lvl G X < fuel)%nat →
  ∃ G' t',
    split_node fuel t X = Some t' ∧ Inv G' t' ∧
    (∀ k v, stored (nodes t') k v ↔ stored (nodes t) k v).
Proof.
  revert G t X n. induction fuel as [|fuel IH]; intros G t X n HI HX Hsp Hf; [lia|].
  simpl. destruct (split_step_ok G t X n HI HX Hsp) as (G1 & t1 & r & -> & HI1 & Hst & Hr).
  destruct r as [p|]; [|eauto].
  destruct Hr as (pn & Hpn & Hpsp & Hm).
  destruct (IH G1 t1 p pn HI1 Hpn Hpsp ltac:(lia)) as (G2 & t2 & -> & HI2 & Hst2).
  exists G2, t2. split_and!; [done|done|]. intros k v. by rewrite Hst2.
Qed.

Lemma position_gt_le key ks : (position_gt key ks <= length ks)%nat.
Proof. induction ks; simpl; [lia|]. case_match; simpl; lia. Qed.

Lemma position_gt_insert key ks :
  StronglySorted Z.lt ks → ks !! position_gt key ks ≠ Some key →
  (key ∉ ks) ∧ StronglySorted Z.lt (py_insert (position_gt key ks) key ks).
Proof.
  induction ks as [|y r IH]; intros Hs Hne.
  { split; [apply not_elem_of_nil|]. repeat constructor. }
  apply StronglySorted_cons in Hs as [Hall Hs]. simpl in *.
  destruct (Z.ltb_spec y key).
  - simpl in Hne. destruct (IH Hs Hne) as [Hni Hs'].
    split; [rewrite not_elem_of_cons; split; [lia|done]|].
    change (py_insert (S (position_gt key r)) key (y :: r))
      with (y :: py_insert (position_gt key r) key r).
    apply StronglySorted_cons. split; [|done].
    apply Forall_forall. intros x [->|Hx]%elem_of_py_insert; [done|].
    rewrite Forall_forall in Hall. by apply Hall.
  - simpl in Hne. assert (key < y) by (assert (y ≠ key) by congruence; lia).
    rewrite Forall_forall in Hall. split.
    + rewrite not_elem_of_cons. split; [lia|]. intros Hin. specialize (Hall _ Hin). lia.
    + change (py_insert 0 key (y :: r)) with (key :: y :: r).
      apply StronglySorted_cons. split.
      * apply Forall_cons. split; [done|]. apply Forall_forall. intros x Hx.
        specialize (Hall _ Hx). lia.
      * apply StronglySorted_cons. split; [by apply Forall_forall|done].
Qed.

Lemma inv_update_leaf G t L ks par vs ptr ks' vs' :
  Inv G t → nodes t !! L = Some (Leaf ks par vs ptr) →
  length vs' = length ks' → StronglySorted Z.lt ks' →
  Forall (in_range (lo G L) (hi G L)) ks' →
  Inv G {| nodes := <[L := Leaf ks' par vs' ptr]> (nodes t);
           root := root t; leaf_num := leaf_num t |}.
Proof.
  intros HI HL Hlen Hs Hall.
  pose proof (lookup_lt_Some _ _ _ HL) as HLlt.
  set (new := Leaf ks' par vs' ptr).
  set (h' := <[L := new]> (nodes t)).
  assert (∀ i, h' !! i = if decide (i = L) then Some new else nodes t !! i) as Hlook.
  { intros i. unfold h'. rewrite list_lookup_insert.
    repeat case_decide; try done; exfalso; naive_solver lia. }
  assert (length h' = length (nodes t)) as Hlen' by apply length_insert.
  assert ((∃ a rest, chain G = a :: rest ∧ chain_ok G h' a rest) ∧
          NoDup (chain G) ∧
          (∀ i, i ∈ chain G ↔ ∃ n, h' !! i = Some n ∧ is_leaf_node n = true) ∧
          (length (chain G) <= length h')%nat) as Hchain.
  { apply (chain_frame _ G G t h' HI); [done| | |lia].
    - intros i n Hn Hl. rewrite Hlook. case_decide; [subst i|by exists n].
      assert (n = Leaf ks par vs ptr) as -> by congruence. by exists new.
    - intros i n'. rewrite Hlook. case_decide; [subst i|eauto]. eauto. }
  clearbody h'. constructor; simpl.
  - destruct (inv_root HI) as (r & Hr & Hrp). rewrite Hlook. case_decide; [|eauto].
    subst L. assert (r = Leaf ks par vs ptr) as -> by congruence. eauto.
  - apply (inv_root_lo HI).
  - apply (inv_root_hi HI).
  - rewrite Hlen'. apply (inv_height HI).
  - rewrite Hlen'. apply (inv_lvl HI).
  - intros i n. rewrite Hlook. case_decide.
    + intros [= <-]. subst i. destruct (inv_node HI _ _ HL) as (? & _ & _ & _ & ?).
      unfold new. simpl. done.
    + intros Hn. eapply node_ok_transfer; [by apply (inv_node HI _ _ Hn)|done..|].
      intros c Hc. destruct n as [|nks npar ncs]; [by apply elem_of_nil in Hc|].
      simpl in Hc.
      destruct (child_lvl _ _ _ _ _ _ _ _ HI Hn Hc) as (cn & Hcn & Hcp & Hcl).
      split_and!; try done. rewrite Hlook. case_decide; [|eauto].
      subst c. assert (cn = Leaf ks par vs ptr) as -> by congruence. eauto.
  - intros i n. rewrite Hlook. unfold parent_ok.
    assert (∀ q qks qpar qcs, nodes t !! q = Some (Internal qks qpar qcs) →
              h' !! q = Some (Internal qks qpar qcs)) as Hint.
    { intros q qks qpar qcs Hq. rewrite Hlook. rewrite decide_False; [done|].
      intros ->. congruence. }
    case_decide.
    + intros [= <-]. subst i. simpl.
      pose proof (inv_parent HI _ _ HL) as Hpo. unfold parent_ok in Hpo. simpl in Hpo.
      destruct par as [q|]; [|destruct Hpo as [?|(? & [=])]; by left].
      destruct Hpo as (qks & qpar & qcs & Hq & Hin). eauto 10.
    + intros Hn. pose proof (inv_parent HI _ _ Hn) as Hpo. unfold parent_ok in Hpo.
      destruct (parent n) as [q|]; [|destruct Hpo as [?|(? & [=])]; by left].
      destruct Hpo as (qks & qpar & qcs & Hq & Hin). eauto 10.
  - done.
  - apply Hchain.
  - apply Hchain.
  - apply Hchain.
  - apply Hchain.
Qed.

Lemma stored_update_leaf h L ks par vs ptr p key value k v :
  h !! L = Some (Leaf ks par vs ptr) → length vs = length ks →
  (p <= length ks)%nat →
  stored (<[L := Leaf (py_insert p key ks) par (py_insert p value vs) ptr]> h) k v ↔
  stored h k v ∨ (k = key ∧ v = value).
Proof.
  intros HL Hlen Hp. pose proof (lookup_lt_Some _ _ _ HL) as HLlt.
  set (new := Leaf (py_insert p key ks) par (py_insert p value vs) ptr).
  assert (∀ i, <[L := new]> h !! i = if decide (i = L) then Some new else h !! i) as Hlook.
  { intros i. rewrite list_lookup_insert.
    repeat case_decide; try done; exfalso; naive_solver lia. }
  split.
  - intros (i & n & j & Hn & Hl & Hk & Hv). rewrite Hlook in Hn.
    case_decide; simplify_eq; [|left; by exists i, n, j].
    simpl in Hk, Hv. rewrite py_insert_lookup in Hk, Hv by lia.
    repeat case_decide; simplify_eq; try lia.
    + left. by exists L, (Leaf ks par vs ptr), j.
    + left. by exists L, (Leaf ks par vs ptr), (j - 1)%nat.
  - intros [(i & n & j & Hn & Hl & Hk & Hv)|[-> ->]].
    + destruct (decide (i = L)) as [->|].
      * assert (n = Leaf ks par vs ptr) as -> by congruence. simpl in *.
        destruct (decide (j < p)%nat).
        -- exists L, new, j. rewrite Hlook, decide_True by done. simpl.
           rewrite !py_insert_lookup by lia. by dec_simpl.
        -- exists L, new, (S j). rewrite Hlook, decide_True by done. simpl.
           rewrite !py_insert_lookup by lia. dec_simpl.
           simpl. by rewrite Nat.sub_0_r.
      * exists i, n, j. rewrite Hlook, decide_False by done. done.
    + exists L, new, p. rewrite Hlook, decide_True by done. simpl.
      rewrite !py_insert_lookup by lia. by dec_simpl.
Qed.

Lemma bplus_insert_ok G t k ov :
  Inv G t →
  ∃ G' t' b,
    insert t k ov = Some (b, t') ∧ Inv G' t' ∧
    ((∃ v, stored (nodes t) k v) → b = false ∧ t' = t) ∧
    ((∀ v, ¬ stored (nodes t) k v) →
       b = true ∧
       ∀ k' v', stored (nodes t') k' v' ↔
                stored (nodes t) k' v' ∨ (k' = k ∧ v' = default k ov)).
Proof.
  intros HI. unfold insert.
  destruct (inv_root HI) as (r & Hr & Hrp). rewrite Hr.
  destruct (root_find_leaf G t k HI) as (l & ln & Hf & Hln & Hll & Hrange).
  assert (∀ v, stored (nodes t) k v → ∃ j, keys ln !! j = Some k) as Hhere.
  { intros v (i & n & j & Hn & Hl & Hk & Hv).
    assert (l = i) as ->.
    { eapply leaf_unique; eauto. eapply node_in_range; eauto. }
    assert (n = ln) as -> by congruence. eauto. }
  destruct ln as [ks par vs ptr|]; [|done]. simpl in Hhere.
  destruct (inv_node HI _ _ Hln) as (Hl0 & Hlen & Hs & Hall & Hble).
  case_decide as Hempty.
  - (* the root is the empty leaf *)
    destruct r as [rks rpar rvs rptr|rks rpar rcs]; simpl in Hempty.
    2:{ destruct (inv_node HI _ _ Hr) as (Hne & _). by destruct rks. }
    destruct (inv_node HI _ _ Hr) as (_ & Hrlen & _).
    destruct rks; [|done]. destruct rvs; [|done]. simpl.
    assert (l = root t) as ->.
    { destruct (length (nodes t)) eqn:E; simpl in Hf; [done|].
      rewrite Hr in Hf. congruence. }
    assert (ks = [] ∧ vs = []) as [-> ->] by (split; congruence).
    eexists G, _, true. split; [done|]. split_and!.
    + apply (inv_update_leaf G t (root t) [] rpar [] rptr [k] [default k ov]); try done.
      * repeat constructor.
      * apply Forall_singleton. done.
    + intros (v & Hv). destruct (Hhere v Hv) as (j & Hj). done.
    + intros _. split; [done|]. intros k' v'. simpl.
      by apply (stored_update_leaf (nodes t) (root t) [] rpar [] rptr 0 k (default k ov)).
  - rewrite Hf, Hln. unfold insert_key_and_value.
    case_decide as Hpos.
    + exists G, t, false. split_and!; [done|done|done|].
      intros Hns. exfalso.
      destruct (lookup_lt_is_Some_2 vs (position_gt k ks)) as [v Hv].
      { rewrite Hlen. by eapply lookup_lt_Some. }
      apply (Hns v). exists l, (Leaf ks par vs ptr), (position_gt k ks). done.
    + destruct (position_gt_insert k ks Hs Hpos) as [Hni Hs'].
      pose proof (position_gt_le k ks) as Hple.
      set (p := position_gt k ks) in *.
      set (n' := Leaf (py_insert p k ks) par (py_insert p (default k ov) vs) ptr).
      set (t1 := {| nodes := <[l := n']> (nodes t); root := root t; leaf_num := leaf_num t |}).
      assert (Inv G t1) as HI1.
      { apply (inv_update_leaf G t l ks par vs ptr); try done.
        - rewrite !length_py_insert. lia.
        - apply Forall_forall. intros x [->|Hx]%elem_of_py_insert; [done|].
          rewrite Forall_forall in Hall. by apply Hall. }
      assert (∀ k' v', stored (nodes t1) k' v' ↔
                       stored (nodes t) k' v' ∨ k' = k ∧ v' = default k ov) as Hst1.
      { intros k' v'. by apply stored_update_leaf. }
      assert ((∃ v, stored (nodes t) k v) → False) as Hnot.
      { intros (v & Hv). destruct (Hhere v Hv) as (j & Hj).
        apply Hni. by eapply list_elem_of_lookup_2. }
      destruct (is_full n') eqn:Hfull.
      * assert (nodes t1 !! l = Some n') as Hl1.
        { simpl. apply list_lookup_insert_eq. by eapply lookup_lt_Some. }
        destruct (split_node_ok (length (nodes t)) G t1 l n' HI1 Hl1) as (G2 & t2 & Hsn & HI2 & Hst2).
        { simpl. rewrite length_py_insert. lia. }
        { simpl. pose proof (inv_height HI). lia. }
        fold t1. rewrite Hsn. exists G2, t2, true. split_and!; [done|done| |].
        -- intros H. by destruct Hnot.
        -- intros _. split; [done|]. intros k' v'. by rewrite Hst2.
      * exists G, t1, true. split_and!; [done|done| |].
        -- intros H. by destruct Hnot.
        -- intros _. done.
Qed.

Lemma bplus_inv_new : Inv ghost0 new.
Proof.
  constructor; simpl.
  - eauto.
  - done.
  - done.
  - lia.
  - intros. lia.
  - intros [|i] n; simpl; [|done]. intros [= <-]. simpl.
    split_and!; try done; constructor.
  - intros [|i] n; simpl; [|done]. intros [= <-]. by left.
  - done.
  - exists 0%nat, []. split; [done|]. simpl. eauto.
  - apply NoDup_singleton.
  - intros i. rewrite list_elem_of_singleton. split.
    + intros ->. simpl. eauto.
    + intros (n & Hn & _). destruct i; [done|]. done.
  - done.
Qed.

Lemma stored_new k v : ¬ stored (nodes new) k v.
Proof.
  intros (i & n & j & Hn & Hl & Hk & Hv). destruct i; simpl in Hn; [|done].
  by simplify_eq.
Qed.

Lemma insert_all_ok G t ops seen :
  Inv G t → (∀ k, k ∈ seen ↔ ∃ v, stored (nodes t) k v) →
  ∃ G' t',
    insert_all t ops = Some (flags_spec seen ops, t') ∧ Inv G' t' ∧
    ∀ k v, stored (nodes t') k v ↔
           stored (nodes t) k v ∨ ((k ∉ seen) ∧ lookup_first ops k = Some v).
Proof.
  revert G t seen. induction ops as [|[k ov] ops IH]; intros G t seen HI Hseen.
  - exists G, t. split_and!; [done|done|]. intros k v. simpl. naive_solver.
  - simpl. destruct (bplus_insert_ok G t k ov HI) as (G1 & t1 & b & -> & HI1 & Hdup & Hnew).
    destruct (decide (k ∈ seen)) as [Hin|Hni].
    + destruct Hdup as [-> ->]; [by apply Hseen|].
      destruct (IH G t (k :: seen) HI) as (G2 & t2 & -> & HI2 & Hst).
      { intros k'. rewrite elem_of_cons, Hseen. split; [|eauto].
        intros [->|?]; [by apply Hseen|done]. }
      exists G2, t2. rewrite bool_decide_eq_false_2 by (by intros ?).
      split_and!; [done|done|]. intros k' v. rewrite Hst, not_elem_of_cons.
      case_decide; [subst k'|]; naive_solver.
    + destruct Hnew as [-> Hst1].
      { intros v Hv. apply Hni, Hseen. eauto. }
      destruct (IH G1 t1 (k :: seen) HI1) as (G2 & t2 & -> & HI2 & Hst).
      { intros k'. rewrite elem_of_cons, Hseen. setoid_rewrite Hst1. naive_solver. }
      exists G2, t2. rewrite bool_decide_eq_true_2 by done.
      split_and!; [done|done|]. intros k' v. rewrite Hst, Hst1, not_elem_of_cons.
      case_decide; [subst k'|]; naive_solver.
Qed.

Lemma bplus_run_from_new ops :
  ∃ G t, insert_all new ops = Some (flags_spec [] ops, t) ∧ Inv G t ∧
         ∀ k v, stored (nodes t) k v ↔ lookup_first ops k = Some v.
Proof.
  destruct (insert_all_ok ghost0 new ops [] bplus_inv_new) as (G & t & Hr & HI & Hst).
  { intros k. split; [by intros ?%elem_of_nil|]. intros (v & Hv). by apply stored_new in Hv. }
  exists G, t. split_and!; [done|done|]. intros k v. rewrite Hst. split.
  - intros [?%stored_new|[_ ?]]; done.
  - intros ?. right. split; [apply not_elem_of_nil|done].
Qed.

Lemma bplus_reachable_inv t : reachable t → ∃ G, Inv G t.
Proof.
  intros (ops & flags & Hr). destruct (bplus_run_from_new ops) as (G & t' & Hr' & HI & _).
  exists G. congruence.
Qed.

Lemma lookup_first_Some ops k :
  is_Some (lookup_first ops k) ↔ k ∈ ops.*1.
Proof.
  induction ops as [|[k' ov] ops IH]; simpl.
  - split; [by intros [? ?]|by intros ?%elem_of_nil].
  - rewrite elem_of_cons. case_decide; [subst; naive_solver|].
    rewrite IH. naive_solver.
Qed.

Lemma lookup_first_NoDup ops k ov :
  NoDup ops.*1 → (k, ov) ∈ ops → lookup_first ops k = Some (default k ov).
Proof.
  induction ops as [|[k' ov'] ops IH]; simpl; intros Hnd Hin.
  { by apply elem_of_nil in Hin. }
  apply NoDup_cons in Hnd as [Hk' Hnd].
  apply elem_of_cons in Hin as [[= -> ->]|Hin].
  - by rewrite decide_True.
  - rewrite decide_False; [by apply IH|].
    intros ->. apply Hk'. apply list_elem_of_fmap. by exists (k, ov).
Qed.

Lemma flags_spec_NoDup seen ops :
  NoDup ops.*1 → (∀ k, k ∈ ops.*1 → k ∉ seen) →
  Forall (fun b => b = true) (flags_spec seen ops).
Proof.
  revert seen. induction ops as [|[k ov] ops IH]; simpl; intros seen Hnd Hdis.
  { constructor. }
  apply NoDup_cons in Hnd as [Hk Hnd]. constructor.
  - apply bool_decide_eq_true_2, Hdis. by left.
  - apply IH; [done|]. intros k' Hk'. rewrite not_elem_of_cons. split.
    + by intros ->.
    + apply Hdis. by right.
Qed.

Lemma inserted_keys_spec seen ops k :
  k ∈ inserted_keys ops (flags_spec seen ops) ↔ k ∈ ops.*1 ∧ (k ∉ seen).
Proof.
  revert seen. induction ops as [|[k' ov] ops IH]; simpl; intros seen.
  { rewrite elem_of_nil. naive_solver. }
  change (list_fmap (Z * option Z)%type Z fst ops) with (ops.*1).
  case_bool_decide as Hd.
  - rewrite !elem_of_cons, IH, not_elem_of_cons.
    destruct (decide (k = k')) as [->|]; tauto.
  - rewrite elem_of_cons, IH, not_elem_of_cons.
    destruct (decide (k = k')) as [->|]; tauto.
Qed.

(** *** The leaf chain *)

Lemma leftmost_spec G t fuel i n :
  Inv G t → nodes t !! i = Some n → lo G i = None → (lvl G i < fuel)%nat →
  ∃ l ln, leftmost fuel (nodes t) i = Some l ∧ nodes t !! l = Some ln ∧
          is_leaf_node ln = true ∧ lo G l = None.
Proof.
  intros HI. revert i n. induction fuel as [|fuel IH]; intros i n Hn Hlo Hf; [lia|].
  simpl. rewrite Hn. destruct n as [ks par vs ptr|ks par cs].
  - eauto 10.
  - pose proof (inv_node HI _ _ Hn) as (Hne & Hlen & Hnd & Hch).
    destruct (lookup_lt_is_Some_2 cs 0) as [c Hc]; [lia|].
    rewrite Hc. destruct (Hch _ _ Hc) as (cn & Hcn & Hp & Hl & Hclo & Hchi).
    apply (IH c cn); [done| |lia]. by rewrite Hclo.
Qed.

Lemma chain_rest_lo G h a rest b :
  chain_ok G h a rest → b ∈ rest → is_Some (lo G b).
Proof.
  revert a. induction rest as [|b0 rest IH]; intros a Hc Hin.
  { by apply elem_of_nil in Hin. }
  simpl in Hc. destruct Hc as (n & Hn & Hl & Hp & (x & Hx1 & Hx2) & Hc).
  apply elem_of_cons in Hin as [->|Hin]; [eauto|]. by apply (IH b0).
Qed.

Lemma chain_concat_cons h a l :
  chain_concat h (a :: l) =
  (match h !! a with Some n => keys n | None => [] end) ++ chain_concat h l.
Proof. done. Qed.

Lemma chain_keys_spec G h fuel a rest :
  chain_ok G h a rest → (length rest < fuel)%nat →
  chain_keys fuel h a = Some (chain_concat h (a :: rest)).
Proof.
  revert a rest. induction fuel as [|fuel IH]; intros a rest Hc Hf; [lia|].
  cbn [chain_keys]. destruct rest as [|b rest]; simpl in Hc.
  - destruct Hc as (n & Hn & Hl & Hp). rewrite Hn.
    destruct n as [ks par vs ptr|]; [|done]. simpl in Hp. subst ptr.
    rewrite chain_concat_cons, Hn. simpl. by rewrite app_nil_r.
  - destruct Hc as (n & Hn & Hl & Hp & _ & Hc). rewrite Hn.
    destruct n as [ks par vs ptr|]; [|done]. simpl in Hp. subst ptr.
    rewrite (IH b rest Hc) by (simpl in Hf; lia).
    by rewrite (chain_concat_cons h a), Hn.
Qed.

Lemma chain_sorted G h a rest :
  (∀ i n, i ∈ a :: rest → h !! i = Some n → node_ok None G h i n) →
  chain_ok G h a rest →
  StronglySorted Z.lt (chain_concat h (a :: rest)) ∧
  Forall (fun k => ∀ x, lo G a = Some x → x <= k) (chain_concat h (a :: rest)).
Proof.
  revert a. induction rest as [|b rest IH]; intros a Hok Hc; simpl in Hc.
  - destruct Hc as (n & Hn & Hl & Hp). rewrite chain_concat_cons, Hn.
    change (chain_concat h []) with (@nil Z). rewrite app_nil_r.
    destruct n as [ks par vs ptr|]; [|done].
    destruct (Hok a _ ltac:(by left) Hn) as (_ & _ & Hs & Hall & _).
    split; [done|]. simpl. eapply Forall_impl; [exact Hall|]. intros k [Hk _]. done.
  - destruct Hc as (n & Hn & Hl & Hp & (x & Hx1 & Hx2) & Hc).
    destruct (IH b) as [Hs' Hlo']; [|done|].
    { intros i m Hi. apply Hok. by right. }
    destruct n as [ks par vs ptr|]; [|done].
    destruct (Hok a _ ltac:(by left) Hn) as (_ & _ & Hs & Hall & Hble).
    rewrite (chain_concat_cons h a), Hn. simpl. rewrite Forall_forall in Hall, Hlo'. split.
    + apply StronglySorted_app_2; [|done|done].
      intros x1 x2 H1 H2. destruct (Hall _ H1) as [_ Hu]. specialize (Hu _ Hx1).
      specialize (Hlo' _ H2 _ Hx2). lia.
    + apply Forall_app. split.
      * apply Forall_forall. intros k Hk. by apply Hall.
      * apply Forall_forall. intros k Hk y Hy. specialize (Hlo' _ Hk _ Hx2).
        specialize (Hble _ _ Hy Hx1). lia.
Qed.

Lemma leaf_chain_spec G t :
  Inv G t →
  ∃ ks, leaf_chain t = Some ks ∧ StronglySorted Z.lt ks ∧
        ∀ k, k ∈ ks ↔ ∃ v, stored (nodes t) k v.
Proof.
  intros HI. destruct (inv_root HI) as (r & Hr & _).
  destruct (leftmost_spec G t (length (nodes t)) (root t) r HI Hr)
    as (l & ln & Hlm & Hln & Hll & Hlo);
    [apply (inv_root_lo HI)|apply (inv_height HI)|].
  destruct (inv_chain HI) as (a & rest & Hch & Hok).
  assert (l = a) as ->.
  { assert (l ∈ a :: rest) as Hin.
    { rewrite <- Hch. apply (inv_chain_leaves HI). eauto. }
    apply elem_of_cons in Hin as [?|Hin]; [done|].
    destruct (chain_rest_lo _ _ _ _ _ Hok Hin) as [x Hx]. congruence. }
  exists (chain_concat (nodes t) (a :: rest)). split_and!.
  - unfold leaf_chain. rewrite Hlm. apply (chain_keys_spec G); [done|].
    pose proof (inv_chain_len HI) as Hl. rewrite Hch in Hl. simpl in Hl. lia.
  - apply (chain_sorted G); [|done]. intros i n _ Hn. by apply (inv_node HI).
  - intros k. unfold chain_concat. rewrite list_elem_of_bind. rewrite <- Hch. split.
    + intros (i & Hk & Hi). apply (inv_chain_leaves HI) in Hi as (n & Hn & Hl).
      rewrite Hn in Hk. apply list_elem_of_lookup in Hk as [j Hj].
      destruct n as [ks par vs ptr|]; [|done].
      destruct (inv_node HI _ _ Hn) as (_ & Hlen & _).
      destruct (lookup_lt_is_Some_2 vs j) as [v Hv].
      { rewrite Hlen. by eapply lookup_lt_Some. }
      exists v, i, (Leaf ks par vs ptr), j. done.
    + intros (v & i & n & j & Hn & Hl & Hk & Hv). exists i. rewrite Hn. split.
      * by eapply list_elem_of_lookup_2.
      * apply (inv_chain_leaves HI). eauto.
Qed.

(** ** The B+ tree: properties of the specification *)

(** C1: for every sequence of distinct keys inserted into a fresh tree,
    every insert succeeds, [search] on each inserted key returns the value
    inserted with it (the key itself when no value was given), and
    [search] on a key that was never inserted returns [None]. *)
Theorem bplus_search_after_inserts (ops : list (Z * option Z)) :
  NoDup ops.*1 →
  ∃ flags t,
    insert_all new ops = Some (flags, t) ∧
    Forall (fun b => b = true) flags ∧
    (∀ k ov, (k, ov) ∈ ops → search t k = Some (Some (default k ov))) ∧
    (∀ k, k ∉ ops.*1 → search t k = Some None).
Proof.
  intros Hnd. destruct (bplus_run_from_new ops) as (G & t & Hrun & HI & Hst).
  exists (flags_spec [] ops), t. split_and!.
  - done.
  - apply flags_spec_NoDup; [done|]. intros k _. apply not_elem_of_nil.
  - intros k ov Hin. apply (search_stored G); [done|].
    apply Hst. by apply lookup_first_NoDup.
  - intros k Hk. apply (search_not_stored G); [done|].
    intros v Hv. apply Hk. apply lookup_first_Some. apply Hst in Hv. by exists v.
Qed.

Lemma bplus_search_after_inserts_witness :
  ∃ flags t,
    insert_all new [(10, None); (5, Some 50); (7, None)] = Some (flags, t) ∧
    Forall (fun b => b = true) flags ∧
    (∀ k ov, (k, ov) ∈ [(10, None); (5, Some 50); (7, None)] →
             search t k = Some (Some (default k ov))) ∧
    (∀ k, k ∉ [(10, None); (5, Some 50); (7, None)].*1 → search t k = Some None).
Proof.
  apply (bplus_search_after_inserts [(10, None); (5, Some 50); (7, None)]).
  apply (bool_decide_unpack _). vm_compute. reflexivity.
Defined.

(** C3: after any sequence of inserts on a fresh tree, walking the leaf
    chain from the leftmost leaf along the next-leaf pointers and
    concatenating the key sequences gives a strictly ascending list whose
    members are exactly the keys whose insert succeeded. *)
Theorem bplus_leaf_chain_sorted (ops : list (Z * option Z)) :
  ∃ flags t ks,
    insert_all new ops = Some (flags, t) ∧
    leaf_chain t = Some ks ∧
    StronglySorted Z.lt ks ∧
    NoDup ks ∧
    ∀ k, k ∈ ks ↔ k ∈ inserted_keys ops flags.
Proof.
  destruct (bplus_run_from_new ops) as (G & t & Hrun & HI & Hst).
  destruct (leaf_chain_spec G t HI) as (ks & Hks & Hsorted & Hmem).
  exists (flags_spec [] ops), t, ks. split_and!; [done|done|done| |].
  - clear -Hsorted. induction Hsorted as [|k ks _ IH Hall]; constructor; [|done].
    intros Hin. rewrite Forall_forall in Hall. specialize (Hall k Hin). lia.
  - intros k. rewrite Hmem, inserted_keys_spec, <- lookup_first_Some. split.
    + intros (v & Hv). split; [|apply not_elem_of_nil]. exists v. by apply Hst.
    + intros [(v & Hv) _]. exists v. by apply Hst.
Qed.

(** C5: in a fresh tree the inserts of 1, 2, 3 leave the root a leaf; the
    insert of 4 fills it and splits it into the leaves [1,2] and [3,4]
    under a new root, an internal node with the key sequence [3] and those
    two children, and the leaf chain reads 1, 2, 3, 4; the insert of 5 then
    goes into the leaf [3,4], which becomes [3,4,5], and nothing splits. *)
Theorem bplus_scenario_order4 :
  let t3 := {| nodes := [Leaf [1; 2; 3] None [1; 2; 3] None];
               root := 0; leaf_num := 1 |} in
  let t4 := {| nodes := [Leaf [1; 2] (Some 2%nat) [1; 2] (Some 1%nat);
                         Leaf [3; 4] (Some 2%nat) [3; 4] None;
                         Internal [3] None [0%nat; 1%nat]];
               root := 2; leaf_num := 2 |} in
  let t5 := {| nodes := [Leaf [1; 2] (Some 2%nat) [1; 2] (Some 1%nat);
                         Leaf [3; 4; 5] (Some 2%nat) [3; 4; 5] None;
                         Internal [3] None [0%nat; 1%nat]];
               root := 2; leaf_num := 2 |} in
  insert_all new [(1, None); (2, None); (3, None)] = Some ([true; true; true], t3) ∧
  insert t3 4 None = Some (true, t4) ∧
  leaf_chain t4 = Some [1; 2; 3; 4] ∧
  insert t4 5 None = Some (true, t5) ∧
  leaf_chain t5 = Some [1; 2; 3; 4; 5].
Proof. vm_compute. repeat split. Qed.

End bplus_facts.

(** ** Facts about the extendible hash table *)
Section exthash_facts.
Import ExtHash ExtHashInv.

Section dict_facts.
Context {K V : Type} `{EqDecision K}.
Implicit Types d : list (K * V).

Lemma dict_get_Some_elem k v d : dict_get k d = Some v → (k, v) ∈ d.
Proof.
  induction d as [|[k' v'] d IH]; simpl; [done|].
  case_decide; [intros [= <-]; subst; by left|]. intros ?. right. by apply IH.
Qed.

Lemma dict_get_None k d : dict_get k d = None ↔ k ∉ d.*1.
Proof.
  induction d as [|[k' v'] d IH]; simpl.
  - split; [intros _; apply not_elem_of_nil|done].
  - rewrite not_elem_of_cons. case_decide; [subst; naive_solver|].
    rewrite IH. naive_solver.
Qed.

Lemma dict_mem_true k d : dict_mem k d = true ↔ k ∈ d.*1.
Proof.
  unfold dict_mem. rewrite bool_decide_eq_true.
  destruct (dict_get k d) eqn:E.
  - split; [|eauto]. intros _. apply dict_get_Some_elem in E.
    apply list_elem_of_fmap. by exists (k, v).
  - apply dict_get_None in E. split; [by intros [? ?]|done].
Qed.

Lemma dict_mem_false k d : dict_mem k d = false ↔ k ∉ d.*1.
Proof. rewrite <- dict_mem_true. by destruct (dict_mem k d). Qed.

Lemma dict_get_elem k v d : NoDup d.*1 → (k, v) ∈ d → dict_get k d = Some v.
Proof.
  induction d as [|[k' v'] d IH]; simpl; intros Hnd Hin.
  { by apply elem_of_nil in Hin. }
  apply NoDup_cons in Hnd as [Hk Hnd].
  apply elem_of_cons in Hin as [[= -> ->]|Hin]; [by rewrite decide_True|].
  rewrite decide_False; [by apply IH|].
  intros ->. apply Hk. apply list_elem_of_fmap. by exists (k, v).
Qed.

Lemma dict_set_new k v d : k ∉ d.*1 → dict_set k v d = d ++ [(k, v)].
Proof.
  induction d as [|[k' v'] d IH]; simpl; [done|].
  rewrite not_elem_of_cons. intros [Hne Hni].
  rewrite decide_False by done. by rewrite IH.
Qed.
End dict_facts.

(** *** Bits of slot indices *)

Lemma shiftl_1 n : 0 <= n → Z.shiftl 1 n = 2 ^ n.
Proof. intros. by rewrite Z.shiftl_1_l. Qed.

Lemma land_pow2_nonzero x n :
  0 <= n → Z.land x (Z.shiftl 1 n) ≠ 0 ↔ Z.testbit x n = true.
Proof.
  intros Hn. rewrite shiftl_1 by done. split.
  - intros Hne. destruct (Z.testbit x n) eqn:E; [done|]. exfalso. apply Hne.
    apply Z.bits_inj'. intros m Hm. rewrite Z.land_spec, Z.bits_0, Z.pow2_bits_eqb by done.
    destruct (Z.eqb_spec n m); [subst; by rewrite E|by rewrite andb_false_r].
  - intros Hb E. apply (f_equal (fun z => Z.testbit z n)) in E.
    rewrite Z.land_spec, Z.bits_0, Z.pow2_bits_true, Hb in E by done. done.
Qed.

Lemma index_mod h (gd : nat) :
  Z.land h (Z.shiftl 1 (Z.of_nat gd) - 1) = h mod 2 ^ Z.of_nat gd.
Proof.
  rewrite shiftl_1 by lia. rewrite <- Z.land_ones by lia.
  by rewrite Z.ones_equiv, Z.sub_1_r.
Qed.

Lemma pow2_nat (n : nat) : Z.of_nat (2 ^ n) = 2 ^ Z.of_nat n.
Proof. by rewrite Nat2Z.inj_pow. Qed.

Lemma testbit_add_pow2_low (j : Z) (gd n : nat) :
  0 <= j → (n < gd)%nat →
  Z.testbit (j + 2 ^ Z.of_nat gd) (Z.of_nat n) = Z.testbit j (Z.of_nat n).
Proof.
  intros Hj Hn. rewrite <- (Z.mod_pow2_bits_low (j + 2 ^ Z.of_nat gd) (Z.of_nat gd)) by lia.
  rewrite <- (Z.mod_pow2_bits_low j (Z.of_nat gd) (Z.of_nat n)) by lia.
  f_equal. rewrite <- (Z.mul_1_l (2 ^ Z.of_nat gd)) at 1.
  by rewrite Z.mod_add by lia.
Qed.

Lemma testbit_high_false (j : Z) (gd : nat) n :
  0 <= j < 2 ^ Z.of_nat gd → Z.of_nat gd <= n → Z.testbit j n = false.
Proof.
  intros Hj Hn. destruct (decide (j = 0)) as [->|]; [apply Z.bits_0|].
  apply Z.bits_above_log2; [lia|].
  assert (Z.log2 j < Z.of_nat gd); [|lia]. apply Z.log2_lt_pow2; lia.
Qed.

Lemma testbit_add_pow2_top (j : Z) (gd : nat) :
  0 <= j < 2 ^ Z.of_nat gd →
  Z.testbit (j + 2 ^ Z.of_nat gd) (Z.of_nat gd) = true.
Proof.
  intros Hj. rewrite Z.testbit_odd, Z.shiftr_div_pow2 by lia.
  rewrite <- (Z.mul_1_l (2 ^ Z.of_nat gd)) at 1.
  rewrite Z.div_add by lia. by rewrite Z.div_small by lia.
Qed.

Lemma bits_bound (x : Z) (gd : nat) :
  0 <= x → (∀ n, Z.of_nat gd <= n → Z.testbit x n = false) → x < 2 ^ Z.of_nat gd.
Proof.
  intros Hx Hb. assert (x mod 2 ^ Z.of_nat gd = x) as <-.
  { apply Z.bits_inj'. intros n Hn. rewrite Z.testbit_mod_pow2 by lia.
    destruct (Z.ltb_spec n (Z.of_nat gd)); [done|]. simpl. symmetry. by apply Hb. }
  apply Z.mod_pos_bound. lia.
Qed.

(** *** The directory loops *)

Lemma double_spec (dir : list nat) : double dir = dir ++ dir.
Proof.
  unfold double.
  assert (∀ m i acc, (i + m <= length dir)%nat →
            foldl (fun d i => match d !! i with Some b => d ++ [b] | None => d end)
                  (dir ++ acc) (seq i m) = dir ++ acc ++ take m (drop i dir)) as Hgen.
  { induction m as [|m IH]; intros i acc Hi; simpl.
    - by rewrite take_0, !app_nil_r.
    - destruct (lookup_lt_is_Some_2 dir i) as [b Hb]; [lia|].
      rewrite lookup_app_l by lia. rewrite Hb.
      rewrite <- app_assoc. rewrite IH by lia.
      rewrite (drop_S dir b i Hb). simpl. by rewrite <- app_assoc. }
  specialize (Hgen (length dir) 0%nat [] ltac:(lia)).
  rewrite app_nil_r in Hgen. rewrite Hgen. simpl.
  by rewrite drop_0, firstn_all.
Qed.

Lemma repoint_lookup o nw s dir i :
  repoint o nw s dir !! i =
    (fun b => if decide (b = o ∧ Z.land (Z.of_nat i) s ≠ 0) then nw else b) <$> dir !! i.
Proof. unfold repoint. by rewrite list_lookup_imap. Qed.

Lemma length_repoint o nw s dir : length (repoint o nw s dir) = length dir.
Proof. unfold repoint. by rewrite length_imap. Qed.

(** *** File names *)

Lemma show_nat_digit n :
  ∃ c s, show_nat n = String c s ∧ c ≠ "_"%char.
Proof.
  unfold show_nat. destruct (Nat.to_uint n); simpl; eauto.
Qed.

Lemma save_load_filename id id' : save_filename id ≠ load_filename id'.
Proof.
  unfold save_filename, load_filename.
  destruct (show_nat_digit id') as (c & s & -> & Hc).
  cbv [String.append]. congruence.
Qed.

Lemma metadata_load_filename id : metadata_filename ≠ load_filename id.
Proof. unfold metadata_filename, load_filename. cbv [String.append]. congruence. Qed.

Section clean_facts.
Context {K V : Type}.
Implicit Types fs : gmap string (blob K V).

Lemma clean_save_metadata gd nx fs : clean fs → clean (save_metadata gd nx fs).
Proof.
  intros Hc id. unfold save_metadata. rewrite lookup_insert_ne; [done|].
  apply metadata_load_filename.
Qed.

Lemma clean_Bucket_save (b : Bucket K V) fs : clean fs → clean (Bucket_save b fs).
Proof.
  intros Hc id. unfold Bucket_save. destruct (bucket_id b); [|done].
  rewrite lookup_insert_ne; [done|]. apply save_load_filename.
Qed.

Lemma Bucket_init_clean fs cap ld id :
  clean fs →
  Bucket_init fs cap ld id =
    {| capacity := cap; local_depth := ld; items := []; bucket_id := id |}.
Proof.
  intros Hc. unfold Bucket_init. destruct id as [id|]; [|done]. by rewrite Hc.
Qed.
End clean_facts.

Lemma agreeb_spec g0 d x y : agreeb g0 d x y = true ↔ agree g0 d x y.
Proof.
  unfold agreeb, agree. rewrite forallb_forall. split.
  - intros Hf n Hn. apply Bool.eqb_prop, Hf, in_seq. lia.
  - intros Ha n Hn%in_seq. rewrite Ha by lia. apply Bool.eqb_reflx.
Qed.

Lemma agree_S g0 d x y :
  (g0 <= d)%nat →
  agree g0 (S d) x y ↔
  agree g0 d x y ∧ Z.testbit x (Z.of_nat d) = Z.testbit y (Z.of_nat d).
Proof.
  intros Hd. unfold agree. split.
  - intros Ha. split; [intros n Hn; apply Ha; lia|apply Ha; lia].
  - intros [Ha Hb] n Hn. destruct (decide (n = d)) as [->|]; [done|]. apply Ha. lia.
Qed.

Lemma agree_refl g0 d x : agree g0 d x x.
Proof. by intros n _. Qed.

Lemma agree_empty g0 x y : agree g0 g0 x y.
Proof. intros n Hn. lia. Qed.

Lemma countb_ext f g start len :
  (∀ j, (start <= j < start + len)%nat → f j = g j) →
  countb f start len = countb g start len.
Proof.
  revert start. induction len as [|len IH]; intros start Hfg; simpl; [done|].
  rewrite (Hfg start) by lia. f_equal. apply IH. intros j Hj. apply Hfg. lia.
Qed.

Lemma countb_app f start a b :
  countb f start (a + b) = (countb f start a + countb f (start + a) b)%nat.
Proof.
  revert start. induction a as [|a IH]; intros start; simpl.
  - by rewrite Nat.add_0_r.
  - rewrite IH. replace (S start + a)%nat with (start + S a)%nat by lia. lia.
Qed.

Lemma countb_shift f k start len :
  countb f (start + k) len = countb (fun j => f (j + k)%nat) start len.
Proof.
  revert start. induction len as [|len IH]; intros start; simpl; [done|].
  f_equal. apply (IH (S start)).
Qed.

Lemma countb_true f start len :
  (∀ j, (start <= j < start + len)%nat → f j = true) → countb f start len = len.
Proof.
  revert start. induction len as [|len IH]; intros start Hf; simpl; [done|].
  rewrite Hf by lia. rewrite IH; [done|]. intros j Hj. apply Hf. lia.
Qed.

Lemma countb_false f start len :
  (∀ j, (start <= j < start + len)%nat → f j = false) → countb f start len = 0%nat.
Proof.
  revert start. induction len as [|len IH]; intros start Hf; simpl; [done|].
  rewrite Hf by lia. rewrite IH; [done|]. intros j Hj. apply Hf. lia.
Qed.

Lemma filter_countb (b : nat) (l : list nat) f start :
  (∀ j x, l !! j = Some x → f (start + j)%nat = bool_decide (x = b)) →
  length (filter (fun x => x = b) l) = countb f start (length l).
Proof.
  revert start. induction l as [|a l IH]; intros start Hf; [done|].
  pose proof (Hf 0%nat a eq_refl) as H0. rewrite Nat.add_0_r in H0.
  assert (length (filter (fun x => x = b) l) = countb f (S start) (length l)) as IH'.
  { apply IH. intros j x Hj. rewrite <- (Hf (S j) x Hj). f_equal. lia. }
  rewrite filter_cons. cbn [length countb]. rewrite H0.
  destruct (decide (a = b)).
  - rewrite bool_decide_eq_true_2 by done. cbn [length]. by rewrite IH'.
  - rewrite bool_decide_eq_false_2 by done. by rewrite IH'.
Qed.

Lemma count_agree g0 x gd d :
  (g0 <= d <= gd)%nat →
  countb (fun j => agreeb g0 d x (Z.of_nat j)) 0 (2 ^ gd) = (2 ^ (gd - d + g0))%nat.
Proof.
  revert d. induction gd as [|gd IH]; intros d Hd.
  - assert (d = 0%nat) as -> by lia. assert (g0 = 0%nat) as -> by lia. reflexivity.
  - assert (∀ j, (j < 2 ^ gd)%nat → 0 <= Z.of_nat j < 2 ^ Z.of_nat gd) as Hbound.
    { intros j Hj. rewrite <- pow2_nat. lia. }
    replace (2 ^ S gd)%nat with (2 ^ gd + 2 ^ gd)%nat by (simpl; lia).
    rewrite countb_app. simpl. rewrite (countb_shift _ (2 ^ gd) 0).
    destruct (decide (d <= gd)%nat) as [Hle|Hgt].
    + (* the top bit is not looked at: both halves count alike *)
      rewrite (countb_ext (fun j => agreeb g0 d x (Z.of_nat (j + 2 ^ gd)))
                          (fun j => agreeb g0 d x (Z.of_nat j))).
      * rewrite IH by lia. replace (S gd - d + g0)%nat with (S (gd - d + g0)) by lia.
        simpl. lia.
      * intros j Hj. apply eq_true_iff_eq. rewrite !agreeb_spec. unfold agree.
        split; intros Ha n Hn; rewrite Ha by done.
        -- rewrite Nat2Z.inj_add, pow2_nat.
           apply testbit_add_pow2_low; [lia|lia].
        -- rewrite Nat2Z.inj_add, pow2_nat. symmetry.
           apply testbit_add_pow2_low; [lia|lia].
    + assert (d = S gd) as -> by lia.
      replace (S gd - S gd + g0)%nat with g0 by lia.
      destruct (decide (g0 = S gd)) as [->|Hg].
      { rewrite !countb_true; [simpl; lia| |];
          intros j _; apply agreeb_spec, agree_empty. }
      destruct (Z.testbit x (Z.of_nat gd)) eqn:Hx.
      * (* only the upper half agrees on the top bit *)
        rewrite (countb_false _ 0).
        2:{ intros j Hj. apply not_true_is_false. rewrite agreeb_spec, agree_S by lia.
            intros [_ Hb]. rewrite Hx in Hb.
            rewrite (testbit_high_false (Z.of_nat j) gd) in Hb; [done| |lia].
            apply Hbound. lia. }
        rewrite (countb_ext _ (fun j => agreeb g0 gd x (Z.of_nat j))).
        -- rewrite IH by lia. replace (gd - gd + g0)%nat with g0 by lia. lia.
        -- intros j Hj. apply eq_true_iff_eq. rewrite !agreeb_spec, agree_S by lia.
           rewrite Hx, Nat2Z.inj_add, pow2_nat.
           rewrite testbit_add_pow2_top by (apply Hbound; lia).
           unfold agree. split.
           ++ intros [Ha _] n Hn. rewrite Ha by done.
              apply testbit_add_pow2_low; lia.
           ++ intros Ha. split; [|done]. intros n Hn. rewrite Ha by done.
              symmetry. apply testbit_add_pow2_low; lia.
      * rewrite (countb_false (fun j => agreeb g0 (S gd) x (Z.of_nat (j + 2 ^ gd)))
                              0 (2 ^ gd)).
        2:{ intros j Hj. apply not_true_is_false. rewrite agreeb_spec, agree_S by lia.
            intros [_ Hb]. rewrite Hx, Nat2Z.inj_add, pow2_nat in Hb.
            rewrite testbit_add_pow2_top in Hb; [done|]. apply Hbound. lia. }
        rewrite (countb_ext _ (fun j => agreeb g0 gd x (Z.of_nat j))).
        -- rewrite IH by lia. replace (gd - gd + g0)%nat with g0 by lia. lia.
        -- intros j Hj. apply eq_true_iff_eq. rewrite !agreeb_spec, agree_S by lia.
           rewrite Hx. rewrite (testbit_high_false (Z.of_nat j) gd); [|apply Hbound; lia|lia].
           tauto.
Qed.

(** The index of a key lies in the directory. *)
Section index.
Context {K : Type} (py_hash : K → Z).

Lemma index_bound gd (k : K) :
  0 <= get_directory_index py_hash gd k < 2 ^ Z.of_nat gd.
Proof.
  unfold get_directory_index. cbv zeta. rewrite index_mod.
  apply Z.mod_pos_bound. lia.
Qed.

Lemma index_lt gd (k : K) :
  (Z.to_nat (get_directory_index py_hash gd k) < 2 ^ gd)%nat.
Proof.
  pose proof (index_bound gd k). rewrite <- pow2_nat in H. lia.
Qed.

Lemma index_grow gd (k : K) :
  (Z.to_nat (get_directory_index py_hash (S gd) k) mod 2 ^ gd)%nat =
  Z.to_nat (get_directory_index py_hash gd k).
Proof.
  unfold get_directory_index. cbv zeta. rewrite !index_mod.
  set (h := hash_function py_hash k).
  apply Nat2Z.inj. rewrite Nat2Z.inj_mod, pow2_nat.
  rewrite !Z2Nat.id by (apply Z.mod_pos_bound; lia).
  rewrite Nat2Z.inj_succ, Z.pow_succ_r by lia.
  rewrite (Z.mul_comm 2). rewrite Z.rem_mul_r by lia.
  rewrite Z.mul_comm, Z.mod_add by lia. apply Z.mod_mod. lia.
Qed.
End index.

Lemma lookup_double (dir : list nat) j :
  (0 < length dir)%nat → (j < length dir + length dir)%nat →
  (dir ++ dir) !! j = dir !! (j mod length dir)%nat.
Proof.
  intros Hpos Hj. destruct (decide (j < length dir)%nat).
  - rewrite lookup_app_l by done. by rewrite Nat.mod_small.
  - rewrite lookup_app_r by lia. f_equal.
    apply (Nat.mod_unique _ _ 1); lia.
Qed.

Lemma agree_mod g0 d gd (j : nat) y :
  (d <= gd)%nat →
  agree g0 d (Z.of_nat (j mod 2 ^ gd)) y ↔ agree g0 d (Z.of_nat j) y.
Proof.
  intros Hd. assert (∀ n : nat, (n < gd)%nat →
    Z.testbit (Z.of_nat (j mod 2 ^ gd)) (Z.of_nat n) = Z.testbit (Z.of_nat j) (Z.of_nat n)) as Hb.
  { intros n Hn. rewrite Nat2Z.inj_mod, pow2_nat. apply Z.mod_pow2_bits_low. lia. }
  unfold agree. split; intros Ha n Hn; [rewrite <- Hb by lia|rewrite Hb by lia]; by apply Ha.
Qed.

Lemma agree_mod_r g0 d gd x (j : nat) :
  (d <= gd)%nat →
  agree g0 d x (Z.of_nat (j mod 2 ^ gd)) ↔ agree g0 d x (Z.of_nat j).
Proof.
  intros Hd. assert (∀ n : nat, (n < gd)%nat →
    Z.testbit (Z.of_nat (j mod 2 ^ gd)) (Z.of_nat n) = Z.testbit (Z.of_nat j) (Z.of_nat n)) as Hb.
  { intros n Hn. rewrite Nat2Z.inj_mod, pow2_nat. apply Z.mod_pow2_bits_low. lia. }
  unfold agree. split; intros Ha n Hn; [rewrite <- Hb by lia|rewrite Hb by lia]; by apply Ha.
Qed.

Lemma setbit_slot (i gd d : nat) :
  (i < 2 ^ gd)%nat → (d < gd)%nat →
  ∃ j : nat, (j < 2 ^ gd)%nat ∧ Z.testbit (Z.of_nat j) (Z.of_nat d) = true ∧
             ∀ g0, agree g0 d (Z.of_nat i) (Z.of_nat j).
Proof.
  intros Hi Hd. set (x := Z.of_nat i). set (y := Z.setbit x (Z.of_nat d)).
  assert (0 <= x < 2 ^ Z.of_nat gd) as Hx by (unfold x; rewrite <- pow2_nat; lia).
  assert (∀ m, 0 <= m → Z.testbit y m = (Z.of_nat d =? m) || Z.testbit x m) as Hbits.
  { intros m Hm. unfold y. apply Z.setbit_eqb. lia. }
  assert (0 <= y) as Hy0.
  { unfold y. rewrite Z.setbit_spec'. apply Z.lor_nonneg. split; [lia|].
    apply Z.pow_nonneg. lia. }
  assert (y < 2 ^ Z.of_nat gd) as Hy1.
  { apply bits_bound; [done|]. intros n Hn. rewrite Hbits by lia.
    rewrite (testbit_high_false x gd) by done.
    destruct (Z.eqb_spec (Z.of_nat d) n); [lia|done]. }
  exists (Z.to_nat y). rewrite Z2Nat.id by done. split_and!.
  - rewrite <- pow2_nat in Hy1. lia.
  - rewrite Hbits by lia. by rewrite Z.eqb_refl.
  - intros g0 n Hn. rewrite Hbits by lia.
    destruct (Z.eqb_spec (Z.of_nat d) (Z.of_nat n)); [lia|done].
Qed.

Lemma clearbit_slot (i gd d : nat) :
  (i < 2 ^ gd)%nat → (d < gd)%nat →
  ∃ j : nat, (j < 2 ^ gd)%nat ∧ Z.testbit (Z.of_nat j) (Z.of_nat d) = false ∧
             ∀ g0, agree g0 d (Z.of_nat i) (Z.of_nat j).
Proof.
  intros Hi Hd. set (x := Z.of_nat i). set (y := Z.clearbit x (Z.of_nat d)).
  assert (0 <= x < 2 ^ Z.of_nat gd) as Hx by (unfold x; rewrite <- pow2_nat; lia).
  assert (∀ m, 0 <= m → Z.testbit y m = Z.testbit x m && negb (Z.of_nat d =? m)) as Hbits.
  { intros m Hm. unfold y. apply Z.clearbit_eqb. }
  assert (0 <= y) as Hy0.
  { unfold y. rewrite Z.clearbit_spec'. apply Z.ldiff_nonneg. left. lia. }
  assert (y < 2 ^ Z.of_nat gd) as Hy1.
  { apply bits_bound; [done|]. intros n Hn. rewrite Hbits by lia.
    by rewrite (testbit_high_false x gd) by done. }
  exists (Z.to_nat y). rewrite Z2Nat.id by done. split_and!.
  - rewrite <- pow2_nat in Hy1. lia.
  - rewrite Hbits by lia. rewrite Z.eqb_refl. apply andb_false_r.
  - intros g0 n Hn. rewrite Hbits by lia.
    destruct (Z.eqb_spec (Z.of_nat d) (Z.of_nat n)); [lia|]. simpl. by rewrite andb_true_r.
Qed.

Section hash_facts.
Context {K V : Type} `{EqDecision K}.
Variable py_hash : K → Z.
Implicit Types bs : list (Bucket K V).
Implicit Types t : ExtendibleHash K V.

Lemma all_items_elem bs kv :
  kv ∈ all_items bs ↔ ∃ b bk, bs !! b = Some bk ∧ kv ∈ items bk.
Proof.
  unfold all_items. rewrite list_elem_of_bind. split.
  - intros (bk & Hkv & [b Hb]%list_elem_of_lookup). eauto.
  - intros (b & bk & Hb & Hkv). exists bk. split; [done|].
    by eapply list_elem_of_lookup_2.
Qed.

Lemma all_items_insert bs b bk bk' :
  bs !! b = Some bk →
  all_items (<[b := bk']> bs) ++ items bk ≡ₚ all_items bs ++ items bk'.
Proof.
  intros Hb. rewrite insert_take_drop by (by eapply lookup_lt_Some).
  rewrite <- (take_drop_middle bs b bk Hb) at 3.
  unfold all_items. rewrite !bind_app, !bind_cons. solve_Permutation.
Qed.

Lemma all_items_snoc bs b bk kv :
  bs !! b = Some bk →
  all_items (<[b := set_items (items bk ++ [kv]) bk]> bs) ≡ₚ all_items bs ++ [kv].
Proof.
  intros Hb. rewrite insert_take_drop by (by eapply lookup_lt_Some).
  rewrite <- (take_drop_middle bs b bk Hb) at 3.
  unfold all_items. rewrite !bind_app, !bind_cons. simpl. solve_Permutation.
Qed.

Lemma all_items_app bs1 bs2 : all_items (bs1 ++ bs2) = all_items bs1 ++ all_items bs2.
Proof. unfold all_items. by rewrite bind_app. Qed.

Lemma redistribute_ok gd dir its bs :
  (∀ k v, (k, v) ∈ its →
     ∃ b, dir !! Z.to_nat (get_directory_index py_hash gd k) = Some b ∧
          (b < length bs)%nat) →
  NoDup (all_items bs ++ its).*1 →
  placed py_hash gd dir bs →
  ∃ bs', redistribute py_hash gd dir its bs = Some bs' ∧
    length bs' = length bs ∧
    all_items bs' ≡ₚ all_items bs ++ its ∧
    placed py_hash gd dir bs' ∧
    ∀ b bk', bs' !! b = Some bk' →
      ∃ bk, bs !! b = Some bk ∧ local_depth bk' = local_depth bk.
Proof.
  unfold redistribute. revert bs. induction its as [|[k v] its IH]; intros bs Hdir Hnd Hpl.
  { exists bs. simpl. rewrite app_nil_r. split_and!; eauto. }
  simpl. destruct (Hdir k v) as (b & Hb & Hblt); [by left|]. rewrite Hb.
  destruct (lookup_lt_is_Some_2 bs b Hblt) as [bk Hbk]. rewrite Hbk.
  assert (k ∉ (items bk).*1) as Hk.
  { intros (kv & Hkeq & Hin)%list_elem_of_fmap. destruct kv as [k' v']. simpl in Hkeq. subst k'.
    rewrite fmap_app in Hnd. apply NoDup_app in Hnd as (_ & Hdis & _).
    apply (Hdis k).
    - apply list_elem_of_fmap. exists (k, v'). split; [done|].
      apply all_items_elem. eauto.
    - simpl. by left. }
  rewrite dict_set_new by done.
  set (bs1 := <[b := set_items (items bk ++ [(k, v)]) bk]> bs).
  assert (all_items bs1 ≡ₚ all_items bs ++ [(k, v)]) as Hperm by (by apply all_items_snoc).
  destruct (IH bs1) as (bs' & Hr & Hlen & Hperm' & Hpl' & Hld).
  - intros k' v' Hin. destruct (Hdir k' v') as (b' & ? & ?); [by right|].
    exists b'. split; [done|]. unfold bs1. by rewrite length_insert.
  - rewrite Hperm. by rewrite <- app_assoc.
  - intros b' bk' k' v'. unfold bs1. rewrite list_lookup_insert.
    case_decide as E.
    + destruct E as [<- _]. intros [= <-]. simpl.
      intros [Hin|[= -> ->]%list_elem_of_singleton]%elem_of_app; [by eapply Hpl|done].
    + apply Hpl.
  - exists bs'. split; [done|]. split_and!.
    + rewrite Hlen. unfold bs1. by rewrite length_insert.
    + rewrite Hperm', Hperm. by rewrite <- app_assoc.
    + done.
    + intros b' bk' Hb'. destruct (Hld b' bk' Hb') as (bk1 & Hbk1 & Hl1).
      unfold bs1 in Hbk1. rewrite list_lookup_insert in Hbk1.
      case_decide as E; [|eauto]. destruct E as [<- _]. simplify_eq. eauto.
Qed.

Lemma grow_inv g0 t : EInv py_hash g0 t → EInv py_hash g0 (grow_directory t).
Proof.
  intros HI. pose proof (e_len HI) as Hlen.
  assert (0 < 2 ^ global_depth t)%nat as Hpos.
  { pose proof (Nat.pow_nonzero 2 (global_depth t)). lia. }
  assert (∀ j, (j < length (directory t ++ directory t))%nat →
            (directory t ++ directory t) !! j =
            directory t !! (j mod 2 ^ global_depth t)%nat) as Hlook.
  { intros j Hj. rewrite length_app in Hj. rewrite lookup_double by lia.
    by rewrite Hlen. }
  constructor; simpl; rewrite ?double_spec.
  - rewrite length_app, Hlen. lia.
  - intros i b Hb. apply (e_refs HI (i mod 2 ^ global_depth t)%nat).
    rewrite <- Hlook; [done|]. by eapply lookup_lt_Some.
  - intros b Hb. apply elem_of_app. left. by apply (e_used HI).
  - intros b bk Hb. pose proof (e_depth HI b bk Hb). lia.
  - intros i j b bk Hi Hb Hj.
    rewrite Hlook in Hi by (by eapply lookup_lt_Some). rewrite Hlook by done.
    pose proof (e_depth HI b bk Hb) as Hd.
    rewrite (e_slots HI _ (j mod 2 ^ global_depth t)%nat _ _ Hi Hb).
    + rewrite agree_mod, agree_mod_r by lia. done.
    + rewrite Hlen. apply Nat.mod_upper_bound. lia.
  - intros b bk k v Hb Hin.
    rewrite Hlook.
    + rewrite index_grow. by eapply (e_place HI).
    + rewrite length_app, Hlen. pose proof (index_lt py_hash (S (global_depth t)) k) as Hi.
      simpl in Hi. lia.
  - apply (e_keys HI).
  - apply clean_save_metadata, (e_clean HI).
Qed.

End hash_facts.

Section split_facts.
Context {K V : Type} `{EqDecision K}.
Variable py_hash : K → Z.
Implicit Types bs : list (Bucket K V).
Implicit Types t : ExtendibleHash K V.

(** The part of [split_bucket] after the directory has grown: the depth
    of the bucket is below the global depth. *)
Lemma split_core g0 t o ob i1 :
  EInv py_hash g0 t →
  directory t !! i1 = Some o → buckets t !! o = Some ob →
  (local_depth ob < global_depth t)%nat →
  let ld := S (local_depth ob) in
  let nw := length (buckets t) in
  let nb := Bucket_init (files t) (bucket_capacity t) ld (Some (next_bucket_id t)) in
  let dir := repoint o nw (Z.shiftl 1 (Z.of_nat ld - 1)) (directory t) in
  let ob' := {| capacity := capacity ob; local_depth := ld; items := [];
                bucket_id := bucket_id ob |} in
  ∃ bs' ob'' nb'',
    redistribute py_hash (global_depth t) dir (items ob)
      (<[o := ob']> (buckets t) ++ [nb]) = Some bs' ∧
    bs' !! o = Some ob'' ∧ bs' !! nw = Some nb'' ∧
    all_items bs' ≡ₚ all_items (buckets t) ∧
    ∀ fs, clean fs →
      EInv py_hash g0
        {| global_depth := global_depth t; bucket_capacity := bucket_capacity t;
           directory := dir; next_bucket_id := S (next_bucket_id t);
           buckets := bs'; files := fs |}.
Proof.
  intros HI Hi1 Hob Hlt ld nw nb dir ob'.
  set (d := local_depth ob) in *.
  assert (nb = {| capacity := bucket_capacity t; local_depth := ld; items := [];
                  bucket_id := Some (next_bucket_id t) |}) as Hnb.
  { apply Bucket_init_clean, (e_clean HI). }
  assert (o < nw)%nat as Honw by (by eapply lookup_lt_Some).
  pose proof (e_len HI) as Hlen.
  assert (length dir = length (directory t)) as Hlend by apply length_repoint.
  assert (∀ j x, directory t !! j = Some x → x ≠ nw) as Hold.
  { intros j x Hx ->. pose proof (e_refs HI _ _ Hx). lia. }
  (* the slots after repointing *)
  assert (∀ j b, dir !! j = Some b ↔
            (b = nw ∧ directory t !! j = Some o ∧
             Z.testbit (Z.of_nat j) (Z.of_nat d) = true) ∨
            (b ≠ nw ∧ directory t !! j = Some b ∧
             (b = o → Z.testbit (Z.of_nat j) (Z.of_nat d) = false))) as Hdir.
  { intros j b. unfold dir. rewrite repoint_lookup.
    replace (Z.of_nat ld - 1) with (Z.of_nat d) by (unfold ld; lia).
    destruct (directory t !! j) as [x|] eqn:Hx; simpl; [|naive_solver].
    pose proof (Hold _ _ Hx).
    pose proof (land_pow2_nonzero (Z.of_nat j) (Z.of_nat d) ltac:(lia)) as Hbit.
    destruct (Z.testbit (Z.of_nat j) (Z.of_nat d)) eqn:Hb.
    - case_decide as E; [naive_solver|]. split.
      + intros [= <-]. right. split_and!; [done|done|].
        intros ->. exfalso. apply E. split; [done|]. by apply Hbit.
      + naive_solver.
    - rewrite decide_False.
      + split; [intros [= <-]; right; done|naive_solver].
      + intros [_ Hne]. apply Hbit in Hne. done. }
  set (bs2 := <[o := ob']> (buckets t) ++ [nb]).
  assert (length bs2 = S nw) as Hlen2.
  { unfold bs2. rewrite length_app, length_insert. simpl. unfold nw. lia. }
  assert (∀ b, bs2 !! b = if decide (b = nw) then Some nb
                          else if decide (b = o) then Some ob' else buckets t !! b) as Hbs2.
  { intros b. unfold bs2. rewrite lookup_snoc_decide, length_insert. fold nw.
    case_decide; [done|]. rewrite list_lookup_insert.
    repeat case_decide; try done; exfalso; naive_solver lia. }
  assert (all_items bs2 ++ items ob ≡ₚ all_items (buckets t)) as Hperm2.
  { assert (all_items [nb] = []) as Hnil.
    { unfold all_items. simpl. rewrite Hnb. done. }
    unfold bs2. rewrite all_items_app, Hnil, app_nil_r.
    rewrite (all_items_insert _ _ ob ob' Hob). simpl. by rewrite app_nil_r. }
  destruct (redistribute_ok py_hash (global_depth t) dir (items ob) bs2)
    as (bs' & Hr & Hlen' & Hperm' & Hpl' & Hld).
  { intros k v Hin.
    pose proof (index_lt py_hash (global_depth t) k) as Hidx.
    destruct (lookup_lt_is_Some_2 dir (Z.to_nat (get_directory_index py_hash (global_depth t) k)))
      as [b Hb]; [lia|].
    exists b. split; [done|]. rewrite Hlen2.
    apply Hdir in Hb as [(-> & _)|(_ & Hb & _)]; [lia|].
    pose proof (e_refs HI _ _ Hb) as Hrf. fold nw in Hrf. lia. }
  { rewrite Hperm2. apply (e_keys HI). }
  { intros b bk k v. rewrite Hbs2. repeat case_decide.
    - intros [= <-]. rewrite Hnb. simpl. by intros ?%elem_of_nil.
    - intros [= <-]. simpl. by intros ?%elem_of_nil.
    - intros Hb Hin. apply Hdir. right. split_and!; [done| |done].
      by eapply (e_place HI). }
  destruct (lookup_lt_is_Some_2 bs' o) as [ob'' Hob'']; [lia|].
  destruct (lookup_lt_is_Some_2 bs' nw) as [nb'' Hnb'']; [lia|].
  exists bs', ob'', nb''. split; [exact Hr|]. split; [done|]. split; [done|].
  assert (all_items bs' ≡ₚ all_items (buckets t)) as Hperm.
  { by rewrite Hperm', Hperm2. }
  split; [done|]. intros fs Hfs.
  (* the depths afterwards *)
  assert (∀ b bk', bs' !! b = Some bk' →
            (b = nw ∧ local_depth bk' = S d) ∨
            (b = o ∧ local_depth bk' = S d) ∨
            (b ≠ nw ∧ b ≠ o ∧ ∃ bk, buckets t !! b = Some bk ∧
                                   local_depth bk' = local_depth bk)) as Hdepth.
  { intros b bk' Hb. destruct (Hld b bk' Hb) as (bk2 & Hbk2 & Hl). rewrite Hbs2 in Hbk2.
    repeat case_decide; simplify_eq.
    - left. rewrite Hl, Hnb. done.
    - right. left. done.
    - right. right. eauto. }
  constructor; simpl.
  - by rewrite Hlend.
  - intros i b [(-> & _)|(_ & Hb & _)]%Hdir; [lia|].
    pose proof (e_refs HI _ _ Hb) as Hrf. fold nw in Hrf. lia.
  - intros b Hb. rewrite Hlen', Hlen2 in Hb.
    assert (i1 < 2 ^ global_depth t)%nat as Hi1lt.
    { rewrite <- Hlen. by eapply lookup_lt_Some. }
    destruct (decide (b = nw)) as [->|Hbn]; [|destruct (decide (b = o)) as [->|Hbo]].
    + destruct (setbit_slot i1 (global_depth t) d Hi1lt Hlt) as (j & Hj & Hbit & Hag).
      apply (list_elem_of_lookup_2 _ j). apply Hdir. left. split_and!; [done| |done].
      apply (e_slots HI i1 j o ob Hi1 Hob); [lia|]. apply Hag.
    + destruct (clearbit_slot i1 (global_depth t) d Hi1lt Hlt) as (j & Hj & Hbit & Hag).
      apply (list_elem_of_lookup_2 _ j). apply Hdir. right. split_and!; [lia| |done].
      apply (e_slots HI i1 j o ob Hi1 Hob); [lia|]. apply Hag.
    + assert (b ∈ directory t) as [j Hj]%list_elem_of_lookup.
      { apply (e_used HI). fold nw. lia. }
      apply (list_elem_of_lookup_2 _ j). apply Hdir. right. done.
  - intros b bk' Hb. pose proof (e_depth HI o ob Hob) as Hdo. fold d in Hdo.
    destruct (Hdepth b bk' Hb) as [[_ ->]|[[_ ->]|(_ & _ & bk & Hbk & ->)]]; [lia|lia|].
    apply (e_depth HI b bk Hbk).
  - intros i j b bk' Hi Hb Hj. rewrite Hlend in Hj.
    pose proof (e_depth HI o ob Hob) as Hdo. fold d in Hdo.
    apply Hdir in Hi. rewrite Hdir.
    destruct (Hdepth b bk' Hb) as [[-> ->]|[[-> ->]|(Hbn & Hbo & bk & Hbk & ->)]].
    + destruct Hi as [(_ & Hi & Hbit)|(? & _)]; [|done].
      rewrite (e_slots HI i j o ob Hi Hob Hj), agree_S by lia. fold d.
      rewrite Hbit. naive_solver.
    + destruct Hi as [(-> & _)|(_ & Hi & Hbit)]; [lia|]. specialize (Hbit eq_refl).
      rewrite (e_slots HI i j o ob Hi Hob Hj), agree_S by lia. fold d.
      rewrite Hbit.
      destruct (Z.testbit (Z.of_nat j) (Z.of_nat d)); naive_solver lia.
    + destruct Hi as [(-> & _)|(_ & Hi & _)]; [done|].
      rewrite <- (e_slots HI i j b bk Hi Hbk Hj). naive_solver.
  - done.
  - rewrite Hperm. apply (e_keys HI).
  - done.
Qed.

Lemma split_bucket_ok g0 t index :
  EInv py_hash g0 t → (index < length (directory t))%nat →
  ∃ t', split_bucket py_hash t index = Some t' ∧ EInv py_hash g0 t' ∧
        all_items (buckets t') ≡ₚ all_items (buckets t) ∧
        (global_depth t <= global_depth t')%nat.
Proof.
  intros HI Hidx. unfold split_bucket.
  destruct (lookup_lt_is_Some_2 _ _ Hidx) as [o Ho]. rewrite Ho.
  destruct (lookup_lt_is_Some_2 (buckets t) o (e_refs HI _ _ Ho)) as [ob Hob]. rewrite Hob.
  set (t1 := if (global_depth t <=? local_depth ob)%nat then grow_directory t else t).
  assert (EInv py_hash g0 t1 ∧ buckets t1 = buckets t ∧
          directory t1 !! index = Some o ∧
          (local_depth ob < global_depth t1)%nat ∧
          (global_depth t <= global_depth t1)%nat) as (HI1 & Hbs & Ho1 & Hlt & Hge).
  { unfold t1. pose proof (e_depth HI o ob Hob).
    destruct (Nat.leb_spec (global_depth t) (local_depth ob)).
    - split_and!; [by apply grow_inv|done| |simpl; lia|simpl; lia].
      simpl. rewrite double_spec. by apply lookup_app_l_Some.
    - split_and!; [done|done|done|lia|lia]. }
  clearbody t1. rewrite <- Hbs in Hob.
  destruct (split_core g0 t1 o ob index HI1 Ho1 Hob Hlt)
    as (bs' & ob'' & nb'' & Hr & Hob'' & Hnb'' & Hperm & HI').
  cbv zeta in Hr. rewrite Hr, Hob'', Hnb''.
  eexists. split; [done|]. split_and!.
  - apply HI'. apply clean_save_metadata, clean_Bucket_save, clean_Bucket_save, (e_clean HI1).
  - simpl. by rewrite Hperm, Hbs.
  - done.
Qed.

End split_facts.

Section table_facts.
Context {K V : Type} `{EqDecision K}.
Variable py_hash : K → Z.
Implicit Types bs : list (Bucket K V).
Implicit Types t : ExtendibleHash K V.

Lemma exthash_new_inv (fs : gmap string (blob K V)) cap g0 :
  clean fs → EInv py_hash g0 (new fs cap g0).
Proof.
  intros Hfs. unfold new. rewrite Bucket_init_clean by done.
  constructor; simpl.
  - apply length_replicate.
  - intros i b [-> _]%lookup_replicate. lia.
  - intros b Hb. assert (b = 0%nat) as -> by lia. apply elem_of_replicate.
    split; [done|]. apply Nat.pow_nonzero. lia.
  - intros [|b] bk; simpl; [|done]. intros [= <-]. simpl. lia.
  - intros i j b bk [-> _]%lookup_replicate. simpl. intros [= <-] Hj. simpl.
    rewrite length_replicate in Hj. rewrite lookup_replicate_2 by done.
    split; [intros _; apply agree_empty|done].
  - intros [|b] bk k v; simpl; [|done]. intros [= <-]. simpl. by intros ?%elem_of_nil.
  - constructor.
  - by apply clean_save_metadata.
Qed.

Lemma stored_bucket g0 t b bk k v :
  EInv py_hash g0 t → buckets t !! b = Some bk → (k, v) ∈ items bk →
  directory t !! Z.to_nat (get_directory_index py_hash (global_depth t) k) = Some b ∧
  dict_mem k (items bk) = true.
Proof.
  intros HI Hb Hin. split; [by eapply (e_place HI)|].
  apply dict_mem_true. apply list_elem_of_fmap. by exists (k, v).
Qed.

Lemma insert_loop_ok g0 n t k v :
  EInv py_hash g0 t →
  ∃ b t', insert_loop py_hash n t k v = Some (b, t') ∧ EInv py_hash g0 t'.
Proof.
  revert t. induction n as [|n IH]; intros t HI; simpl; [eauto|].
  set (index := Z.to_nat (get_directory_index py_hash (global_depth t) k)).
  assert (index < length (directory t))%nat as Hidx.
  { rewrite (e_len HI). apply index_lt. }
  destruct (lookup_lt_is_Some_2 _ _ Hidx) as [b Hb]. rewrite Hb.
  destruct (lookup_lt_is_Some_2 (buckets t) b (e_refs HI _ _ Hb)) as [bk Hbk]. rewrite Hbk.
  destruct (dict_mem k (items bk)) eqn:Hmem; [eauto|].
  unfold Bucket_insert. rewrite Hmem.
  destruct (Z.ltb_spec (Z.of_nat (length (items bk))) (capacity bk)).
  - (* room in the bucket *)
    eexists _, _. split; [done|].
    apply dict_mem_false in Hmem. rewrite dict_set_new by done.
    assert (all_items (<[b := set_items (items bk ++ [(k, v)]) bk]> (buckets t))
            ≡ₚ all_items (buckets t) ++ [(k, v)]) as Hperm by (by apply all_items_snoc).
    constructor; simpl.
    + apply (e_len HI).
    + intros i b' Hb'. rewrite length_insert. by eapply (e_refs HI).
    + intros b'. rewrite length_insert. apply (e_used HI).
    + intros b' bk'. rewrite list_lookup_insert. case_decide as E.
      * destruct E as [<- _]. intros [= <-]. simpl. by eapply (e_depth HI).
      * apply (e_depth HI).
    + intros i j b' bk' Hi. rewrite list_lookup_insert. case_decide as E.
      * destruct E as [<- _]. intros [= <-]. simpl. by apply (e_slots HI).
      * by apply (e_slots HI).
    + intros b' bk' k' v'. rewrite list_lookup_insert. case_decide as E.
      * destruct E as [<- _]. intros [= <-]. simpl.
        intros [Hin|[= -> ->]%list_elem_of_singleton]%elem_of_app; [|done].
        by eapply (e_place HI).
      * apply (e_place HI).
    + assert (NoDup (all_items (buckets t) ++ [(k, v)]).*1) as Hk;
        [|rewrite <- Hperm in Hk; exact Hk].
      rewrite fmap_app. apply NoDup_app. split_and!.
      * apply (e_keys HI).
      * intros k0 Hk1 Hk2. apply list_elem_of_singleton in Hk2. simpl in Hk2. subst k0.
        apply list_elem_of_fmap in Hk1 as ([k' v'] & Heq & Hin). simpl in Heq. subst k'.
        rename k into k'.
        apply all_items_elem in Hin as (b' & bk' & Hb' & Hin').
        destruct (stored_bucket g0 t b' bk' k' v' HI Hb' Hin') as [Hd _].
        simpl in Hmem. fold index in Hd. assert (b' = b) as -> by congruence.
        assert (bk' = bk) as -> by congruence.
        apply Hmem. apply list_elem_of_fmap. by exists (k', v').
      * apply NoDup_singleton.
    + apply clean_Bucket_save, (e_clean HI).
  - destruct (split_bucket_ok py_hash g0 t index HI Hidx) as (t' & -> & HI' & _).
    by apply IH.
Qed.

Lemma exthash_insert_ok g0 t k v :
  EInv py_hash g0 t →
  ∃ b t', insert py_hash t k v = Some (b, t') ∧ EInv py_hash g0 t'.
Proof. apply insert_loop_ok. Qed.

Lemma exthash_reachable_inv g0 t : reachable py_hash g0 t → EInv py_hash g0 t.
Proof.
  induction 1 as [fs cap Hfs|t k v b t' _ IH Hins|t index t' _ IH Hsp].
  - by apply exthash_new_inv.
  - destruct (exthash_insert_ok g0 t k v IH) as (b' & t'' & Hins' & HI). congruence.
  - assert (index < length (directory t))%nat as Hidx.
    { unfold split_bucket in Hsp. apply lookup_lt_is_Some.
      destruct (directory t !! index); [eauto|done]. }
    destruct (split_bucket_ok py_hash g0 t index IH Hidx) as (t'' & Hsp' & HI & _).
    congruence.
Qed.

Lemma bind_seq_lookup bs (g : nat → list (K * V)) s :
  (∀ j, g (s + j)%nat = match bs !! j with Some bk => items bk | None => [] end) →
  seq s (length bs) ≫= g = all_items bs.
Proof.
  revert s. induction bs as [|a bs IH]; intros s Hg; [done|].
  change (seq s (length (a :: bs))) with (s :: seq (S s) (length bs)).
  unfold all_items. rewrite !bind_cons. f_equal.
  - rewrite <- (Nat.add_0_r s). by rewrite Hg.
  - apply IH. intros j. replace (S s + j)%nat with (s + S j)%nat by lia. by rewrite Hg.
Qed.

Lemma table_items_all g0 t :
  EInv py_hash g0 t → table_items t ≡ₚ all_items (buckets t).
Proof.
  intros HI. unfold table_items.
  assert (remove_dups (directory t) ≡ₚ seq 0 (length (buckets t))) as ->.
  { apply NoDup_Permutation; [apply NoDup_remove_dups|apply NoDup_seq|].
    intros b. rewrite elem_of_remove_dups, elem_of_seq. split.
    - intros [i Hi]%list_elem_of_lookup. pose proof (e_refs HI _ _ Hi). lia.
    - intros Hb. apply (e_used HI). lia. }
  by rewrite (bind_seq_lookup (buckets t) _ 0).
Qed.

Lemma slot_count_inv g0 t i b bk :
  EInv py_hash g0 t →
  directory t !! i = Some b → buckets t !! b = Some bk →
  (local_depth bk <= global_depth t)%nat ∧
  slot_count t b = (2 ^ (global_depth t - local_depth bk + g0))%nat.
Proof.
  intros HI Hi Hb. pose proof (e_depth HI b bk Hb) as Hd. split; [lia|].
  unfold slot_count.
  rewrite (filter_countb b (directory t)
             (fun j => agreeb g0 (local_depth bk) (Z.of_nat i) (Z.of_nat j)) 0).
  - rewrite (e_len HI). by apply count_agree.
  - intros j x Hj. simpl.
    pose proof (e_slots HI i j b bk Hi Hb (lookup_lt_Some _ _ _ Hj)) as Hs.
    apply eq_true_iff_eq. rewrite agreeb_spec, bool_decide_eq_true, <- Hs, Hj.
    naive_solver.
Qed.

End table_facts.

(** *** The table does not depend on the files it wrote, nor on the
    builtin hash beyond its values *)
Section same_facts.
Context {K V : Type} `{EqDecision K}.
Variables h1 h2 : K → Z.
Hypothesis h_eq : ∀ k, h1 k = h2 k.
Implicit Types t : ExtendibleHash K V.

Lemma get_directory_index_ext gd k :
  get_directory_index h1 gd k = get_directory_index h2 gd k.
Proof. unfold get_directory_index, hash_function. by rewrite h_eq. Qed.

Lemma redistribute_ext gd dir (its : list (K * V)) bs :
  redistribute h1 gd dir its bs = redistribute h2 gd dir its bs.
Proof.
  unfold redistribute. generalize (Some bs).
  induction its as [|kv its IH]; intros acc; simpl; [done|].
  rewrite get_directory_index_ext. apply IH.
Qed.

Lemma split_bucket_same t1 t2 index t2' :
  same_state t1 t2 → clean (files t1) → clean (files t2) →
  split_bucket h2 t2 index = Some t2' →
  ∃ t1', split_bucket h1 t1 index = Some t1' ∧ same_state t1' t2' ∧
         clean (files t1') ∧ clean (files t2').
Proof.
  intros (Hg & Hc & Hd & Hn & Hb) C1 C2.
  destruct t1 as [gd cap dir nx bs fs1], t2 as [gd2 cap2 dir2 nx2 bs2 fs2].
  simpl in *. subst gd2 cap2 dir2 nx2 bs2.
  unfold split_bucket. cbn [directory buckets global_depth].
  destruct (dir !! index) as [old|]; [|done].
  destruct (bs !! old) as [ob|]; [|done].
  destruct (gd <=? local_depth ob)%nat.
  all: rewrite !Bucket_init_clean by (done || by apply clean_save_metadata).
  all: simpl.
  all: rewrite redistribute_ext.
  all: match goal with |- context [redistribute ?h ?g ?d ?i ?b] =>
         destruct (redistribute h g d i b) as [bs'|]; [|done] end.
  all: destruct (bs' !! old) as [ob''|]; [|done].
  all: destruct (bs' !! length bs) as [nb''|]; [|done].
  all: intros [= <-]; eexists; (split; [done|]); simpl.
  all: split; [done|].
  all: split; repeat first [apply clean_save_metadata | apply clean_Bucket_save]; done.
Qed.

Lemma insert_loop_same n t1 t2 k v b t2' :
  same_state t1 t2 → clean (files t1) → clean (files t2) →
  insert_loop h2 n t2 k v = Some (b, t2') →
  ∃ t1', insert_loop h1 n t1 k v = Some (b, t1') ∧ same_state t1' t2' ∧
         clean (files t1') ∧ clean (files t2').
Proof.
  revert t1 t2. induction n as [|n IH]; intros t1 t2 Hs C1 C2; simpl.
  { intros [= <- <-]. eauto. }
  pose proof Hs as (Hg & Hc & Hd & Hn & Hb).
  rewrite get_directory_index_ext, Hg, Hd, Hb.
  destruct (directory t2 !! _) as [bucket|] eqn:Hdir; [|done].
  destruct (buckets t2 !! bucket) as [bk|]; [|done].
  destruct (dict_mem k (items bk)) eqn:Hmem.
  { intros [= <- <-]. eauto. }
  unfold Bucket_insert. rewrite Hmem.
  destruct (Z.of_nat (length (items bk)) <? capacity bk).
  - intros [= <- <-]. eexists. split; [done|]. unfold same_state. simpl.
    split_and!; try done; by apply clean_Bucket_save.
  - destruct (split_bucket h2 t2 _) as [t2s|] eqn:Hsp; [|done].
    destruct (split_bucket_same t1 t2 _ t2s Hs C1 C2 Hsp) as (t1s & Hsp1 & Hs' & C1' & C2').
    rewrite Hsp1. by apply IH.
Qed.
End same_facts.

(** ** The extendible hash table: properties of the specification *)

(** C4: a table constructed with bucket capacity 2 and global depth 1, with
    a builtin hash that is the identity at 0, 2 and 4.  The inserts of 0
    and 2 fill the one bucket without a split.  The insert of 4 finds it
    full at slot 0 with local depth 1 = global depth: the directory grows
    to 4 slots, the global depth to 2, under the new mask 0 stays at slot 0
    and 2 goes to slot 2, and 4 is then stored at slot 0.  At the end the
    bucket at slot 0 holds exactly 0 and 4, the bucket at slot 2 exactly 2,
    both at local depth 2. *)
Theorem exthash_scenario_0_2_4 {V : Type} (py_hash : Z → Z)
    (fs : gmap string (blob Z V)) (v0 v2 v4 : V) :
  py_hash 0 = 0 → py_hash 2 = 2 → py_hash 4 = 4 → clean fs →
  ∃ t1 t2 t3,
    insert py_hash (new fs 2 1) 0 v0 = Some (true, t1) ∧
    insert py_hash t1 2 v2 = Some (true, t2) ∧
    global_depth t2 = 1%nat ∧ length (directory t2) = 2%nat ∧
    bucket_at t2 0 =
      Some {| capacity := 2; local_depth := 1;
              items := [(0, v0); (2, v2)]; bucket_id := Some 0%nat |} ∧
    get_directory_index py_hash (global_depth t2) 4 = 0 ∧
    insert py_hash t2 4 v4 = Some (true, t3) ∧
    global_depth t3 = 2%nat ∧ length (directory t3) = 4%nat ∧
    get_directory_index py_hash (global_depth t3) 0 = 0 ∧
    get_directory_index py_hash (global_depth t3) 2 = 2 ∧
    get_directory_index py_hash (global_depth t3) 4 = 0 ∧
    bucket_at t3 0 =
      Some {| capacity := 2; local_depth := 2;
              items := [(0, v0); (4, v4)]; bucket_id := Some 0%nat |} ∧
    bucket_at t3 2 =
      Some {| capacity := 2; local_depth := 2;
              items := [(2, v2)]; bucket_id := Some 1%nat |}.
Proof.
  intros H0 H2 H4 Hfs.
  set (h := fun k : Z => if decide (k = 0) then 0 else if decide (k = 2) then 2
                         else if decide (k = 4) then 4 else py_hash k).
  assert (∀ k, py_hash k = h k) as Hh.
  { intros k. unfold h. repeat case_decide; by subst. }
  assert (same_state (new fs 2 1) (new (∅ : gmap string (blob Z V)) 2 1)) as S0.
  { unfold new. by rewrite Bucket_init_clean. }
  assert (clean (files (new fs 2 1))) as C0 by by apply clean_save_metadata.
  assert (clean (files (new (∅ : gmap string (blob Z V)) 2 1))) as C0'.
  { apply clean_save_metadata. intros id. apply lookup_empty. }
  unfold insert.
  eassert (insert_loop h 10 (new ∅ 2 1) 0 v0 = Some (true, _)) as E1'
    by (vm_compute; reflexivity).
  destruct (insert_loop_same py_hash h Hh 10 _ _ 0 v0 true _ S0 C0 C0' E1')
    as (t1 & E1 & S1 & C1 & C1').
  match type of E1' with _ = Some (_, ?c1) =>
    eassert (insert_loop h 10 c1 2 v2 = Some (true, _)) as E2'
      by (vm_compute; reflexivity)
  end.
  destruct (insert_loop_same py_hash h Hh 10 _ _ 2 v2 true _ S1 C1 C1' E2')
    as (t2 & E2 & S2 & C2 & C2').
  match type of E2' with _ = Some (_, ?c2) =>
    eassert (insert_loop h 10 c2 4 v4 = Some (true, _)) as E3'
      by (vm_compute; reflexivity)
  end.
  destruct (insert_loop_same py_hash h Hh 10 _ _ 4 v4 true _ S2 C2 C2' E3')
    as (t3 & E3 & S3 & C3 & C3').
  exists t1, t2, t3.
  destruct S2 as (Hg2 & _ & Hd2 & _ & Hb2), S3 as (Hg3 & _ & Hd3 & _ & Hb3).
  cbn [global_depth directory buckets] in Hg2, Hd2, Hb2, Hg3, Hd3, Hb3.
  clear -E1 E2 E3 Hg2 Hd2 Hb2 Hg3 Hd3 Hb3 Hh.
  unfold bucket_at. rewrite Hg2, Hd2, Hb2, Hg3, Hd3, Hb3.
  rewrite !(get_directory_index_ext py_hash h Hh).
  split_and!; try done; vm_compute; reflexivity.
Qed.

Lemma exthash_scenario_0_2_4_witness :
  ∃ t1 t2 t3 : ExtendibleHash Z Z,
    insert (fun k => k) (new ∅ 2 1) 0 0 = Some (true, t1) ∧
    insert (fun k => k) t1 2 2 = Some (true, t2) ∧
    insert (fun k => k) t2 4 4 = Some (true, t3) ∧
    length (directory t3) = 4%nat.
Proof.
  destruct (exthash_scenario_0_2_4 (fun k => k) (∅ : gmap string (blob Z Z)) 0 2 4)
    as (t1 & t2 & t3 & E1 & E2 & _ & _ & _ & _ & E3 & _ & Hlen & _).
  - reflexivity.
  - reflexivity.
  - reflexivity.
  - intros id. apply lookup_empty.
  - exists t1, t2, t3. split_and!; assumption.
Defined.

Section claims.
Context {K V : Type} `{EqDecision K}.
Implicit Types t : ExtendibleHash K V.

(** A key that sits in some bucket is found by [insert] in the bucket the
    directory gives for it, and the call changes nothing. *)
Lemma exthash_reinsert (py_hash : K → Z) g0 t k v v' :
  EInv py_hash g0 t → (k, v) ∈ all_items (buckets t) →
  insert py_hash t k v' = Some (false, t).
Proof.
  intros HI (b & bk & Hb & Hin)%all_items_elem.
  destruct (stored_bucket py_hash g0 t b bk k v HI Hb Hin) as [Hdir Hmem].
  unfold insert. simpl. by rewrite Hdir, Hb, Hmem.
Qed.

(** C2, as the code has it: in every reachable table, the one just
    constructed included, a bucket that the directory refers to has a local
    depth [d] of at most the global depth, every slot that refers to it
    sees that same depth, and the number of slots that refer to it is
    [2 ^ (global_depth - d + g0)], where [g0] is the global depth the table
    was constructed with. *)
Theorem slot_count_reachable (py_hash : K → Z) g0 t i b bk :
  reachable py_hash g0 t →
  directory t !! i = Some b → buckets t !! b = Some bk →
  (local_depth bk <= global_depth t)%nat ∧
  (∀ j, directory t !! j = Some b → local_depth <$> bucket_at t j = Some (local_depth bk)) ∧
  slot_count t b = (2 ^ (global_depth t - local_depth bk + g0))%nat.
Proof.
  intros Hr Hi Hb. apply exthash_reachable_inv in Hr.
  destruct (slot_count_inv py_hash g0 t i b bk Hr Hi Hb) as [Hd Hc].
  split_and!; [done| |done].
  intros j Hj. unfold bucket_at. rewrite Hj. simpl. by rewrite Hb.
Qed.


(** C7, on the code: [save] writes the bucket under [bucket_<id>.pkl] and
    the constructor looks for [bucket<id>.pkl], so a bucket re-created with
    the identity of a saved one starts empty, at the local depth the
    constructor was given, although the saved file is there. *)
Theorem bucket_reload_misses_saved_file (fs : gmap string (blob K V))
    (b : Bucket K V) id cap ld :
  bucket_id b = Some id → clean fs →
  Bucket_save b fs !! save_filename id = Some (BucketBlob (items b) (local_depth b)) ∧
  Bucket_init (Bucket_save b fs) cap ld (Some id) =
    {| capacity := cap; local_depth := ld; items := []; bucket_id := Some id |}.
Proof.
  intros Hid Hfs. split.
  - unfold Bucket_save. rewrite Hid. apply lookup_insert_eq.
  - apply Bucket_init_clean. by apply clean_Bucket_save.
Qed.

(** C9, as the code has it: [hash_function] is the absolute value of the
    builtin hash reduced modulo [2^32]; it lies in [0, 2^32), the directory
    index lies in [0, 2^global_depth), and two runs compute the same index
    for a key when their builtin hashes agree on it. *)
Theorem directory_index_from_builtin_hash (run1 run2 : K → Z) gd key :
  run1 key = run2 key →
  hash_function run1 key = Z.abs (run1 key) mod 2 ^ 32 ∧
  0 <= hash_function run1 key < 2 ^ 32 ∧
  0 <= get_directory_index run1 gd key < 2 ^ Z.of_nat gd ∧
  get_directory_index run1 gd key = get_directory_index run2 gd key.
Proof.
  intros Heq. split; [done|]. split; [|split].
  - apply Z.mod_pos_bound. lia.
  - apply index_bound.
  - unfold get_directory_index, hash_function. by rewrite Heq.
Qed.
End claims.

Lemma slot_count_reachable_witness :
  let t := new (∅ : gmap string (blob Z Z)) 2 1 in
  (local_depth (Bucket_init (∅ : gmap string (blob Z Z)) 2 1 (Some 0%nat)) <= global_depth t)%nat ∧
  (∀ j, directory t !! j = Some 0%nat →
        local_depth <$> bucket_at t j = Some 1%nat) ∧
  slot_count t 0 = (2 ^ (1 - 1 + 1))%nat.
Proof.
  apply (slot_count_reachable (fun k : Z => k) 1 (new ∅ 2 1) 0 0).
  - apply reach_new. intros id. apply lookup_empty.
  - reflexivity.
  - reflexivity.
Defined.

(** C2 as stated fails on the table just constructed with global depth 1:
    both slots refer to the one bucket, whose local depth is 1. *)
Lemma fresh_table_slot_count :
  let t := new (∅ : gmap string (blob Z Z)) 2 1 in
  reachable (fun k : Z => k) 1 t ∧
  ∃ bk, bucket_at t 0 = Some bk ∧ bucket_at t 1 = Some bk ∧
        global_depth t = 1%nat ∧ local_depth bk = 1%nat ∧
        slot_count t 0 = 2%nat ∧
        slot_count t 0 ≠ (2 ^ (global_depth t - local_depth bk))%nat.
Proof.
  split.
  - apply reach_new. intros id. apply lookup_empty.
  - eexists. split_and!; [reflexivity|reflexivity|reflexivity|reflexivity|reflexivity|].
    vm_compute. discriminate.
Qed.


Lemma bucket_reload_misses_saved_file_witness :
  let b := {| capacity := 2; local_depth := 3;
              items := [(1, 1)]; bucket_id := Some 0%nat |} in
  Bucket_save b (∅ : gmap string (blob Z Z)) !! save_filename 0 =
    Some (BucketBlob [(1, 1)] 3) ∧
  Bucket_init (Bucket_save b ∅) 2 1 (Some 0%nat) =
    {| capacity := 2; local_depth := 1; items := []; bucket_id := Some 0%nat |}.
Proof.
  apply (bucket_reload_misses_saved_file (∅ : gmap string (blob Z Z))
           {| capacity := 2; local_depth := 3;
              items := [(1, 1)]; bucket_id := Some 0%nat |} 0%nat 2 1%nat).
  - reflexivity.
  - intros id. apply lookup_empty.
Defined.

Lemma directory_index_from_builtin_hash_witness :
  hash_function (fun k : Z => k) (-5) = Z.abs (-5) mod 2 ^ 32 ∧
  0 <= hash_function (fun k : Z => k) (-5) < 2 ^ 32 ∧
  0 <= get_directory_index (fun k : Z => k) 2 (-5) < 2 ^ Z.of_nat 2 ∧
  get_directory_index (fun k : Z => k) 2 (-5) =
    get_directory_index (fun k : Z => if decide (k = -5) then -5 else 0) 2 (-5).
Proof.
  apply (directory_index_from_builtin_hash
           (fun k : Z => k) (fun k : Z => if decide (k = -5) then -5 else 0) 2 (-5)).
  reflexivity.
Defined.

(** C9 as stated fails: the index follows the builtin hash, which the
    interpreter salts per process for strings; two runs whose builtin
    hashes differ on a key compute different slots for it. *)
Lemma directory_index_varies_with_builtin_hash :
  let run1 : string → Z := fun s => Z.of_nat (String.length s) in
  let run2 : string → Z := fun s => Z.of_nat (String.length s) + 1 in
  get_directory_index run1 1 "a"%string = 1 ∧
  get_directory_index run2 1 "a"%string = 0 ∧
  get_directory_index run1 1 "a"%string ≠ get_directory_index run2 1 "a"%string.
Proof. vm_compute. split_and!; [done|done|discriminate]. Qed.

(** *** Bulk load *)





End exthash_facts.

(** ** Both structures *)

(** C6: in a reachable state of either structure, [insert] of a key that
    is already stored returns [False] and hands back the very state it was
    given: the store of the tree (keys, values, node structure) and the
    buckets, directory and files of the table are all as before. *)
Theorem reinsert_existing_key :
  (∀ t k v ov,
     BPlusInv.reachable t → BPlusInv.stored (BPlus.nodes t) k v →
     BPlus.insert t k ov = Some (false, t)) ∧
  (∀ (K V : Type) (eq_dec : EqDecision K) (py_hash : K → Z) g0
     (t : ExtHash.ExtendibleHash K V) k v v',
     ExtHashInv.reachable py_hash g0 t → (k, v) ∈ ExtHashInv.table_items t →
     ExtHash.insert py_hash t k v' = Some (false, t)).
Proof.
  split.
  - intros t k v ov Hr Hst. destruct (bplus_reachable_inv t Hr) as [G HI].
    destruct (bplus_insert_ok G t k ov HI) as (G' & t' & b & -> & _ & Hdup & _).
    destruct Hdup as [-> ->]; [by exists v|done].
  - intros K V eq_dec py_hash g0 t k v v' Hr Hin.
    apply exthash_reachable_inv in Hr.
    apply (exthash_reinsert py_hash g0 t k v v' Hr).
    by rewrite <- (table_items_all py_hash g0 t Hr).
Qed.

Lemma reinsert_existing_key_witness :
  (let t := {| BPlus.nodes := [BPlus.Leaf [1] None [1] None];
               BPlus.root := 0; BPlus.leaf_num := 1 |} in
   BPlus.insert t 1 (Some 5) = Some (false, t)) ∧
  (∃ t : ExtHash.ExtendibleHash Z Z,
     ExtHash.insert (fun k => k) (ExtHash.new ∅ 2 1) 0 0 = Some (true, t) ∧
     ExtHash.insert (fun k => k) t 0 9 = Some (false, t)).
Proof.
  split.
  - apply (proj1 reinsert_existing_key _ 1 1 (Some 5)).
    + exists [(1, None)], [true]. reflexivity.
    + exists 0%nat, (BPlus.Leaf [1] None [1] None), 0%nat. repeat split.
  - eexists. split; [vm_compute; reflexivity|].
    apply (proj2 reinsert_existing_key Z Z _ (fun k => k) 1%nat _ 0 0 9).
    + apply (ExtHashInv.reach_insert (fun k : Z => k) 1%nat
               (ExtHash.new (∅ : gmap string (ExtHash.blob Z Z)) 2 1) 0 0 true).
      * apply ExtHashInv.reach_new. intros id. apply lookup_empty.
      * vm_compute. reflexivity.
    + vm_compute. left.
Defined.


(** ** Further properties of the B+ tree *)
Section bplus_more.
Import BPlus BPlusInv BPlusMore.

Lemma stored_decide G t k :
  Inv G t → (∃ v, stored (nodes t) k v) ∨ (∀ v, ¬ stored (nodes t) k v).
Proof.
  intros HI. destruct (leaf_chain_spec G t HI) as (ks & _ & _ & Hmem).
  destruct (decide (k ∈ ks)) as [Hin|Hni].
  - left. by apply Hmem.
  - right. intros v Hv. apply Hni, Hmem. eauto.
Qed.

Lemma search_spec G t k :
  Inv G t →
  ∃ r, search t k = Some r ∧ ∀ v, r = Some v ↔ stored (nodes t) k v.
Proof.
  intros HI. destruct (stored_decide G t k HI) as [[v Hv]|Hno].
  - exists (Some v). split; [by apply (search_stored G)|].
    intros v'. split; [by intros [= <-]|].
    intros Hv'. apply (search_stored G t k v' HI) in Hv'.
    rewrite (search_stored G t k v HI Hv) in Hv'. congruence.
  - exists None. split; [by apply (search_not_stored G)|].
    intros v. split; [done|]. intros Hv. by apply Hno in Hv.
Qed.

Lemma insert_all_app t ops1 ops2 flags1 t1 :
  insert_all t ops1 = Some (flags1, t1) →
  insert_all t (ops1 ++ ops2) =
    match insert_all t1 ops2 with
    | Some (flags2, t2) => Some (flags1 ++ flags2, t2)
    | None => None
    end.
Proof.
  revert t flags1. induction ops1 as [|[k ov] ops1 IH]; intros t flags1; simpl.
  { intros [= <- ->]. by destruct (insert_all t1 ops2) as [[? ?]|]. }
  destruct (insert t k ov) as [[b t']|]; [|done].
  destruct (insert_all t' ops1) as [[bs t'']|] eqn:Hrun; [|done].
  intros [= <- ->]. rewrite (IH t' bs Hrun).
  by destruct (insert_all t1 ops2) as [[? ?]|].
Qed.

Lemma reachable_insert_all t ops flags t' :
  reachable t → insert_all t ops = Some (flags, t') → reachable t'.
Proof.
  intros (ops0 & flags0 & Hrun0) Hrun. exists (ops0 ++ ops), (flags0 ++ flags).
  by rewrite (insert_all_app _ _ _ _ _ Hrun0), Hrun.
Qed.

Lemma reachable_insert t k ov b t' :
  reachable t → insert t k ov = Some (b, t') → reachable t'.
Proof.
  intros Hr Hins. apply (reachable_insert_all t [(k, ov)] [b] t' Hr).
  simpl. by rewrite Hins.
Qed.

Lemma reachable_insert_returns t k ov :
  reachable t → ∃ b t', insert t k ov = Some (b, t') ∧ reachable t'.
Proof.
  intros Hr. destruct (bplus_reachable_inv t Hr) as [G HI].
  destruct (bplus_insert_ok G t k ov HI) as (G' & t' & b & Hins & _).
  exists b, t'. split; [done|]. by eapply reachable_insert.
Qed.

Lemma flags_spec_lookup seen ops i k ov :
  ops !! i = Some (k, ov) →
  flags_spec seen ops !! i =
    Some (bool_decide ((k ∉ seen) ∧ (k ∉ (take i ops).*1))).
Proof.
  revert seen i. induction ops as [|[k0 ov0] ops IH]; intros seen i Hi; [done|].
  destruct i as [|i]; simpl in *.
  - simplify_eq. f_equal. apply bool_decide_ext. rewrite elem_of_nil. tauto.
  - rewrite (IH _ _ Hi). f_equal. apply bool_decide_ext.
    rewrite !not_elem_of_cons. tauto.
Qed.

(** X1: a run of inserts on a fresh tree, with repeated keys allowed.
    Every call returns; a call returns [True] exactly when its key did not
    occur earlier in the run; and afterwards [search] gives, for each key,
    the value of its first insert (a later insert of the key does not
    overwrite), and [None] for a key that was never inserted. *)
Theorem bplus_first_insert_wins (ops : list (Z * option Z)) :
  ∃ flags t,
    insert_all new ops = Some (flags, t) ∧
    length flags = length ops ∧
    (∀ i k ov, ops !! i = Some (k, ov) →
       flags !! i = Some (bool_decide (k ∉ (take i ops).*1))) ∧
    ∀ k, search t k = Some (lookup_first ops k).
Proof.
  destruct (bplus_run_from_new ops) as (G & t & Hrun & HI & Hst).
  exists (flags_spec [] ops), t. split_and!; [done| | |].
  - clear. generalize (@nil Z). induction ops as [|[k ov] ops IH]; intros seen; simpl; [done|].
    by rewrite IH.
  - intros i k ov Hi. rewrite (flags_spec_lookup [] ops i k ov Hi). f_equal.
    apply bool_decide_ext. rewrite elem_of_nil. tauto.
  - intros k. destruct (lookup_first ops k) as [v|] eqn:Hl.
    + apply (search_stored G); [done|]. by apply Hst.
    + apply (search_not_stored G); [done|]. intros v Hv. apply Hst in Hv. congruence.
Qed.

(** X2: one [insert] on a reachable tree.  The call returns; it returns
    [True] exactly when [search] did not find the key before; on [False]
    the tree is unchanged; on [True] a [search] for the key now gives the
    inserted value; and a [search] for any other key gives what it gave
    before. *)
Theorem bplus_insert_then_search t k ov :
  reachable t →
  ∃ b t',
    insert t k ov = Some (b, t') ∧ reachable t' ∧
    (b = true ↔ search t k = Some None) ∧
    (b = false → t' = t) ∧
    (b = true → search t' k = Some (Some (default k ov))) ∧
    ∀ k', k' ≠ k → search t' k' = search t k'.
Proof.
  intros Hr. destruct (bplus_reachable_inv t Hr) as [G HI].
  destruct (bplus_insert_ok G t k ov HI) as (G' & t' & b & Hins & HI' & Hdup & Hnew).
  exists b, t'. split; [done|]. split; [by eapply reachable_insert|].
  destruct (stored_decide G t k HI) as [[v Hv]|Hno].
  - destruct (Hdup (ex_intro _ v Hv)) as [-> ->].
    rewrite (search_stored G t k v HI Hv). split_and!; done.
  - destruct (Hnew Hno) as [-> Hst].
    rewrite (search_not_stored G t k HI Hno). split_and!; try done.
    + intros _. apply (search_stored G'); [done|]. apply Hst. by right.
    + intros k' Hk'.
      destruct (search_spec G t k' HI) as (r & -> & Hr1).
      destruct (search_spec G' t' k' HI') as (r' & -> & Hr2). f_equal.
      destruct r as [v|], r' as [v'|]; try done.
      * f_equal. assert (stored (nodes t') k' v) as Hv by (apply Hst; left; by apply Hr1).
        apply Hr2 in Hv. congruence.
      * assert (stored (nodes t') k' v) as Hv by (apply Hst; left; by apply Hr1).
        by apply Hr2 in Hv.
      * assert (stored (nodes t') k' v') as Hv by by apply Hr2.
        apply Hst in Hv as [Hv|[? _]]; [|done]. by apply Hr1 in Hv.
Qed.

Lemma bplus_insert_then_search_witness :
  ∃ b t',
    insert new 7 None = Some (b, t') ∧ reachable t' ∧
    (b = true ↔ search new 7 = Some None) ∧
    (b = false → t' = new) ∧
    (b = true → search t' 7 = Some (Some (default 7 None))) ∧
    ∀ k', k' ≠ 7 → search t' k' = search new k'.
Proof.
  apply (bplus_insert_then_search new 7 None).
  exists [], []. reflexivity.
Defined.




Lemma load_lines_prefix filename lines :
  ∀ t, reachable t →
  ∃ flags t',
    insert_all t ((fun k => (k, None)) <$> good_prefix lines) = Some (flags, t') ∧
    load_lines filename t lines =
      Some (t', (Inserted <$> inserted_keys ((fun k => (k, None)) <$> good_prefix lines) flags)
                ++ (if decide (length (good_prefix lines) = length lines)
                    then [] else [InvalidValue filename])).
Proof.
  induction lines as [|line lines IH]; intros t Hr.
  { exists [], t. done. }
  cbn [load_lines good_prefix].
  destruct (py_int (py_strip line)) as [number|].
  - destruct (reachable_insert_returns t number None Hr) as (b & t1 & Hins & Hr1).
    destruct (IH t1 Hr1) as (flags & t' & Hrun & Hload).
    exists (b :: flags), t'. cbn [fmap list_fmap insert_all length].
    rewrite Hins. change (list_fmap Z (Z * option Z)%type (λ k : Z, (k, None))) with
      (fmap (M := list) (λ k : Z, (k, @None Z))).
    rewrite Hrun, Hload. split; [done|]. f_equal. f_equal.
    rewrite app_assoc. f_equal.
    + by destruct b.
    + repeat case_decide; (done || lia).
  - exists [], t. done.
Qed.

(** X4: [load_from_file] on a reachable tree always returns.  Without the
    file the tree is unchanged and one message names the file.  With it,
    the tree at the end is the one that [insert(number)] builds from the
    keys of the lines before the first line that [int] rejects; one
    [Inserted] message is printed per insert that returned [True]; and the
    [Invalid value] message closes the output exactly when some line was
    rejected, the lines after it being left unread. *)
Theorem bplus_load_reads_good_prefix t filename file :
  reachable t →
  match file with
  | None => load_from_file t filename None = Some (t, [NotFound filename])
  | Some lines =>
      let ops := (fun k => (k, None)) <$> good_prefix lines in
      ∃ flags t',
        insert_all t ops = Some (flags, t') ∧
        load_from_file t filename (Some lines) =
          Some (t', (Inserted <$> inserted_keys ops flags)
                    ++ (if decide (length (good_prefix lines) = length lines)
                        then [] else [InvalidValue filename]))
  end.
Proof.
  intros Hr. destruct file as [lines|]; [|done].
  apply (load_lines_prefix filename lines t Hr).
Qed.

Lemma bplus_load_reads_good_prefix_witness :
  let ops := (fun k => (k, None)) <$> good_prefix ["4"; "x"; "5"]%string in
  ∃ flags t',
    insert_all new ops = Some (flags, t') ∧
    load_from_file new "keys.txt" (Some ["4"; "x"; "5"]%string) =
      Some (t', (Inserted <$> inserted_keys ops flags)
                ++ (if decide (length (good_prefix ["4"; "x"; "5"]%string)
                               = length ["4"; "x"; "5"]%string)
                    then [] else [InvalidValue "keys.txt"])).
Proof.
  apply (bplus_load_reads_good_prefix new "keys.txt" (Some ["4"; "x"; "5"]%string)).
  exists [], []. reflexivity.
Defined.

(** *** Fill of the nodes and the leaf counter *)

Lemma shape_alter_set_parent q i h : shape (alter (set_parent q) i h) = shape h.
Proof.
  unfold shape. apply list_eq. intros j. rewrite !list_lookup_fmap.
  destruct (decide (j = i)) as [->|Hne].
  - rewrite list_lookup_alter_eq. destruct (h !! i) as [n|]; simpl; [|done].
    by rewrite set_parent_leaf, set_parent_keys.
  - by rewrite list_lookup_alter_ne.
Qed.

Lemma shape_set_parents cs p h : shape (set_parents cs p h) = shape h.
Proof.
  unfold set_parents. revert h. induction cs as [|c cs IH]; intros h; simpl; [done|].
  by rewrite IH, shape_alter_set_parent.
Qed.

Lemma shape_insert i n h :
  shape (<[i := n]> h) = <[i := (is_leaf_node n, length (keys n))]> (shape h).
Proof. unfold shape. by rewrite list_fmap_insert. Qed.

Lemma shape_snoc n h :
  shape (h ++ [n]) = shape h ++ [(is_leaf_node n, length (keys n))].
Proof. unfold shape. by rewrite fmap_app. Qed.

Lemma shape_lookup h i n :
  h !! i = Some n → shape h !! i = Some (is_leaf_node n, length (keys n)).
Proof. intros Hn. unfold shape. by rewrite list_lookup_fmap, Hn. Qed.

Lemma length_shape h : length (shape h) = length h.
Proof. unfold shape. by rewrite length_fmap. Qed.

Lemma count_leaves_snoc s lf len :
  count_leaves (s ++ [(lf, len)]) = (count_leaves s + if lf then 1 else 0)%nat.
Proof.
  unfold count_leaves. rewrite filter_app, length_app. f_equal.
  destruct lf; [by rewrite filter_cons_True|by rewrite filter_cons_False].
Qed.

Lemma count_leaves_insert s i lf len len' :
  s !! i = Some (lf, len) → count_leaves (<[i := (lf, len')]> s) = count_leaves s.
Proof.
  intros Hi. pose proof (lookup_lt_Some _ _ _ Hi) as Hlt.
  rewrite insert_take_drop by done.
  rewrite <- (take_drop_middle s i (lf, len) Hi) at 3.
  unfold count_leaves. rewrite !filter_app, !length_app. f_equal.
  destruct lf; [by rewrite !filter_cons_True|by rewrite !filter_cons_False].
Qed.

Lemma split_halves_shape h X n h1 sep :
  split_halves h X n = Some (h1, sep) →
  let len := length (keys n) in
  (len / 2 < len)%nat ∧ length h1 = S (length h) ∧
  shape h1 = <[X := (is_leaf_node n, (len / 2)%nat)]> (shape h)
             ++ [(is_leaf_node n,
                  if is_leaf_node n then (len - len / 2)%nat else (len - S (len / 2))%nat)].
Proof.
  unfold split_halves. destruct n as [ks par vs ptr|ks par cs]; cbv zeta; cbn [keys].
  - destruct (head (drop (length ks / 2) ks)) as [key|] eqn:Hh; [|done].
    intros [= <- <-].
    assert (length ks / 2 < length ks)%nat as Hlt.
    { destruct (decide (length ks / 2 < length ks)%nat); [done|].
      rewrite drop_ge in Hh by lia. done. }
    split; [done|]. split.
    + rewrite length_app, length_insert. cbn [length]. lia.
    + rewrite shape_snoc, shape_insert. cbn [is_leaf_node keys].
      change (Nat.divmod (length ks) 1 0 1).1 with (length ks / 2)%nat.
      rewrite length_take, length_drop, Nat.min_l by lia. done.
  - destruct (ks !! (length ks / 2)%nat) as [key|] eqn:Hk; [|done].
    intros [= <- <-]. pose proof (lookup_lt_Some _ _ _ Hk) as Hlt.
    split; [done|]. split.
    + rewrite length_set_parents, length_app, length_insert. cbn [length]. lia.
    + rewrite shape_set_parents, shape_snoc, shape_insert. cbn [is_leaf_node keys].
      change (Nat.divmod (length ks) 1 0 1).1 with (length ks / 2)%nat.
      rewrite length_take, length_drop, Nat.min_l by lia. done.
Qed.

Lemma split_step_shape t X n t' r :
  nodes t !! X = Some n → split_step t X = Some (t', r) →
  let lf := is_leaf_node n in
  let len := length (keys n) in
  let s1 := <[X := (lf, (len / 2)%nat)]> (shape (nodes t))
            ++ [(lf, if lf then (len - len / 2)%nat else (len - S (len / 2))%nat)] in
  (len / 2 < len)%nat ∧
  leaf_num t' = (leaf_num t + if lf then 1 else 0)%nat ∧
  match parent n with
  | None =>
      shape (nodes t') = s1 ++ [(false, 1%nat)] ∧
      root t' = S (length (nodes t)) ∧ r = None
  | Some p =>
      ∃ pk, s1 !! p = Some (false, pk) ∧
            shape (nodes t') = <[p := (false, S pk)]> s1 ∧
            root t' = root t ∧ r = (if (4 <? S pk)%nat then Some p else None)
  end.
Proof.
  intros HX Hstep lf len s1. unfold split_step in Hstep. rewrite HX in Hstep.
  destruct (split_halves (nodes t) X n) as [[h1 sep]|] eqn:Hh; [|done].
  pose proof (split_halves_shape _ _ _ _ _ Hh) as Hsh. cbv zeta in Hsh.
  destruct Hsh as (Hlt & Hlen & Hs1). change (shape h1 = s1) in Hs1.
  cbv zeta in Hstep. split; [done|]. destruct (parent n) as [p|].
  - destruct (h1 !! p) as [[|pks ppar pcs]|] eqn:Hp; [done| |done].
    destruct (py_index X pcs) as [position|]; [|done].
    injection Hstep as <- <-. cbn [nodes root leaf_num]. split.
    { subst lf. destruct (is_leaf_node n); lia. }
    exists (length pks). rewrite <- Hs1. split; [by rewrite (shape_lookup _ _ _ Hp)|].
    rewrite shape_alter_set_parent, shape_insert. cbn [is_leaf_node keys].
    by rewrite length_py_insert.
  - injection Hstep as <- <-. cbn [nodes root leaf_num]. split.
    { subst lf. destruct (is_leaf_node n); lia. }
    rewrite !shape_alter_set_parent, shape_snoc, Hs1. cbn [is_leaf_node keys length].
    split; [done|]. split; [lia|done].
Qed.

Lemma split_step_fill G t X n t' r :
  Inv G t → nodes t !! X = Some n → split_step t X = Some (t', r) →
  fill_ok (root t) (Some X) (shape (nodes t)) →
  leaf_num t = count_leaves (shape (nodes t)) →
  fill_ok (root t') r (shape (nodes t')) ∧
  leaf_num t' = count_leaves (shape (nodes t')).
Proof.
  intros HI HX Hstep Hfill Hcount.
  pose proof (split_step_shape t X n t' r HX Hstep) as Hsh. cbv zeta in Hsh.
  destruct Hsh as (_ & Hleaf & Hsh).
  pose proof (shape_lookup _ _ _ HX) as HsX.
  pose proof (lookup_lt_Some _ _ _ HsX) as HXlt.
  pose proof (Hfill X _ _ HsX) as HfX. rewrite decide_True in HfX by done.
  set (lf := is_leaf_node n) in *. set (sh := shape (nodes t)) in *.
  assert ((length (keys n) / 2)%nat = 2%nat) as Ha.
  { rewrite HfX. by destruct lf. }
  rewrite Ha in Hsh.
  assert ((if lf then (length (keys n) - 2)%nat
           else (length (keys n) - 3)%nat) = 2%nat) as Hb.
  { rewrite HfX. by destruct lf. }
  rewrite Hb in Hsh. clear Ha Hb.
  assert (∀ i, (<[X := (lf, 2%nat)]> sh ++ [(lf, 2%nat)]) !! i =
               if decide (i = length sh) then Some (lf, 2%nat)
               else if decide (i = X) then Some (lf, 2%nat) else sh !! i) as Hs1.
  { intros i. rewrite lookup_snoc_decide, length_insert, list_lookup_insert.
    repeat case_decide; try done; exfalso; naive_solver lia. }
  assert (count_leaves (<[X := (lf, 2%nat)]> sh ++ [(lf, 2%nat)]) =
          (count_leaves sh + if lf then 1 else 0)%nat) as Hc1.
  { by rewrite count_leaves_snoc, (count_leaves_insert sh X lf _ _ HsX). }
  destruct (parent n) as [p|] eqn:Hpar.
  - destruct Hsh as (pk & Hp & -> & -> & ->). split.
    2:{ rewrite (count_leaves_insert _ p false pk _ Hp), Hc1. lia. }
    pose proof (lookup_lt_Some _ _ _ Hp) as Hplt.
    assert ((1 <= pk <= 4)%nat) as Hpk.
    { rewrite Hs1 in Hp. repeat case_decide; simplify_eq; [lia|lia|].
      pose proof (Hfill p _ _ Hp) as Hfp. rewrite decide_False in Hfp by congruence.
      destruct Hfp as (? & _ & ?). lia. }
    intros i lf' len. destruct (decide (i = p)) as [->|Hip].
    + rewrite list_lookup_insert_eq by done. intros [= <- <-].
      destruct (Nat.ltb_spec 4 (S pk)).
      * rewrite decide_True by done. lia.
      * rewrite decide_False by done. split_and!; intros; lia.
    + rewrite list_lookup_insert_ne by done. rewrite Hs1.
      rewrite (decide_False (P := (_ = Some i)))
        by (destruct (4 <? S pk)%nat; congruence).
      destruct (decide (i = length sh)) as [->|Hil].
      { intros [= <- <-]. destruct lf; split_and!; intros; lia. }
      destruct (decide (i = X)) as [->|HiX].
      { intros [= <- <-]. destruct lf; split_and!; intros; lia. }
      intros Hi. pose proof (Hfill i _ _ Hi) as Hfi.
      by rewrite decide_False in Hfi by congruence.
  - destruct Hsh as (-> & -> & ->). split.
    2:{ rewrite count_leaves_snoc, Hc1. lia. }
    assert (X = root t) as HXr.
    { pose proof (inv_parent HI _ _ HX) as Hpo. unfold parent_ok in Hpo.
      rewrite Hpar in Hpo. destruct Hpo as [?|[? ?]]; done. }
    intros i lf' len. rewrite lookup_snoc_decide, length_app, length_insert.
    cbn [length]. rewrite Hs1.
    assert (length sh = length (nodes t)) as -> by apply length_shape.
    rewrite (decide_False (P := (None = Some i))) by done.
    destruct (decide (i = length (nodes t) + 1)%nat) as [->|Hir].
    { intros [= <- <-]. split_and!; intros; lia. }
    destruct (decide (i = length (nodes t))) as [->|Hil].
    { intros [= <- <-]. destruct lf; split_and!; intros; lia. }
    destruct (decide (i = X)) as [->|HiX].
    { intros [= <- <-]. destruct lf; split_and!; intros; lia. }
    intros Hi. pose proof (Hfill i _ _ Hi) as Hfi.
    rewrite decide_False in Hfi by congruence.
    destruct Hfi as (Hle & Hge & Hint). split_and!; [done| |done].
    intros _. apply Hge. congruence.
Qed.

Lemma split_node_fill fuel G t X n t' :
  Inv G t → nodes t !! X = Some n → splittable n →
  fill_ok (root t) (Some X) (shape (nodes t)) →
  leaf_num t = count_leaves (shape (nodes t)) →
  split_node fuel t X = Some t' →
  fill_ok (root t') None (shape (nodes t')) ∧
  leaf_num t' = count_leaves (shape (nodes t')).
Proof.
  revert G t X n. induction fuel as [|fuel IH]; intros G t X n HI HX Hsp Hfill Hc; [done|].
  simpl. destruct (split_step_ok G t X n HI HX Hsp) as (G1 & t1 & r & Hstep & HI1 & _ & Hr).
  rewrite Hstep.
  destruct (split_step_fill G t X n t1 r HI HX Hstep Hfill Hc) as [Hfill1 Hc1].
  destruct r as [p|].
  - destruct Hr as (pn & Hpn & Hspn & _). by apply (IH G1 t1 p pn).
  - by intros [= <-].
Qed.

Lemma insert_leaf_inv G t k v l ks par vs ptr :
  Inv G t → find_leaf (length (nodes t)) (nodes t) (root t) k = Some l →
  nodes t !! l = Some (Leaf ks par vs ptr) →
  ks !! position_gt k ks ≠ Some k →
  Inv G {| nodes := <[l := Leaf (py_insert (position_gt k ks) k ks) par
                                (py_insert (position_gt k ks) v vs) ptr]> (nodes t);
           root := root t; leaf_num := leaf_num t |}.
Proof.
  intros HI Hf Hln Hpos.
  destruct (root_find_leaf G t k HI) as (l' & ln & Hf' & _ & _ & Hrange).
  assert (l' = l) as -> by congruence.
  destruct (inv_node HI _ _ Hln) as (Hl0 & Hlen & Hs & Hall & Hble).
  destruct (position_gt_insert k ks Hs Hpos) as [Hni Hs'].
  apply (inv_update_leaf G t l ks par vs ptr); try done.
  - rewrite !length_py_insert. lia.
  - apply Forall_forall. intros x [->|Hx]%elem_of_py_insert; [done|].
    rewrite Forall_forall in Hall. by apply Hall.
Qed.

Lemma insert_fill G t k ov b t' :
  Inv G t → fill_ok (root t) None (shape (nodes t)) →
  leaf_num t = count_leaves (shape (nodes t)) →
  insert t k ov = Some (b, t') →
  fill_ok (root t') None (shape (nodes t')) ∧
  leaf_num t' = count_leaves (shape (nodes t')).
Proof.
  intros HI Hfill Hc Hins. unfold insert in Hins.
  destruct (inv_root HI) as (r & Hr & Hrp). rewrite Hr in Hins.
  assert (∀ l ks par vs ptr len',
            nodes t !! l = Some (Leaf ks par vs ptr) →
            count_leaves (<[l := (true, len')]> (shape (nodes t))) =
              count_leaves (shape (nodes t))) as Hcl.
  { intros l ks par vs ptr len' Hl.
    apply (count_leaves_insert _ l true (length ks)). by apply (shape_lookup _ _ _ Hl). }
  case_decide as Hempty.
  - destruct r as [rks rpar rvs rptr|]; [|done]. injection Hins as <- <-.
    cbn [nodes root leaf_num]. rewrite shape_insert. cbn [is_leaf_node keys].
    split; [|by rewrite (Hcl _ _ _ _ _ _ Hr)].
    intros i lf len. rewrite list_lookup_insert.
    rewrite (decide_False (P := (None = Some i))) by done.
    case_decide as Hi.
    + destruct Hi as [<- _]. intros [= <- <-]. rewrite length_app.
      simpl in Hempty. rewrite Hempty. simpl. split_and!; intros; (done || lia).
    + intros Hl. pose proof (Hfill i _ _ Hl) as Hfi. by rewrite decide_False in Hfi by done.
  - destruct (find_leaf (length (nodes t)) (nodes t) (root t) k) as [l|] eqn:Hf; [|done].
    destruct (nodes t !! l) as [[ks par vs ptr|]|] eqn:Hln; [|done|done].
    unfold insert_key_and_value in Hins. case_decide as Hpos.
    { injection Hins as <- <-. done. }
    pose proof (insert_leaf_inv G t k (default k ov) l ks par vs ptr HI Hf Hln Hpos) as HI1.
    pose proof (Hfill l _ _ (shape_lookup _ _ _ Hln)) as Hfl.
    rewrite decide_False in Hfl by done. cbn [is_leaf_node keys] in Hfl.
    destruct Hfl as (Hle & Hge & _).
    pose proof (lookup_lt_Some _ _ _ Hln) as Hllt.
    set (n' := Leaf (py_insert (position_gt k ks) k ks) par
                    (py_insert (position_gt k ks) (default k ov) vs) ptr) in *.
    set (t1 := {| nodes := <[l := n']> (nodes t); root := root t;
                  leaf_num := leaf_num t |}) in *.
    assert (shape (nodes t1) = <[l := (true, S (length ks))]> (shape (nodes t))) as Hsh1.
    { unfold t1, n'. cbn [nodes]. rewrite shape_insert. cbn [is_leaf_node keys].
      by rewrite length_py_insert. }
    assert (leaf_num t1 = count_leaves (shape (nodes t1))) as Hc1.
    { rewrite Hsh1, (Hcl _ _ _ _ _ _ Hln). done. }
    destruct (is_full n') eqn:Hfull.
    + destruct (split_node (length (nodes t)) t1 l) as [t2|] eqn:Hsn; [|done].
      injection Hins as <- <-.
      assert (nodes t1 !! l = Some n') as Hl1.
      { unfold t1. cbn [nodes]. by apply list_lookup_insert_eq. }
      apply (split_node_fill (length (nodes t)) G t1 l n' t2 HI1 Hl1); [| |done|done].
      { unfold n'. simpl. rewrite length_py_insert. lia. }
      rewrite Hsh1. unfold t1. cbn [root].
      assert (S (length ks) = 4%nat) as Hfour.
      { unfold is_full, n' in Hfull. cbn [keys] in Hfull.
        rewrite length_py_insert in Hfull. apply Nat.leb_le in Hfull. lia. }
      intros i lf len. rewrite list_lookup_insert. case_decide as Hi.
      * destruct Hi as [<- _]. intros [= <- <-]. by rewrite decide_True.
      * assert (l ≠ i) as Hli.
        { intros <-. apply Hi. split; [done|]. by rewrite length_shape. }
        intros Hl. rewrite (decide_False (P := (Some l = Some i))) by congruence.
        pose proof (Hfill i _ _ Hl) as Hfi. by rewrite decide_False in Hfi by done.
    + injection Hins as <- <-. split; [|done]. rewrite Hsh1. unfold t1. cbn [root].
      assert (S (length ks) <= 3)%nat as Hthree.
      { unfold is_full, n' in Hfull. cbn [keys] in Hfull.
        rewrite length_py_insert in Hfull. apply Nat.leb_gt in Hfull. lia. }
      intros i lf len. rewrite list_lookup_insert.
    rewrite (decide_False (P := (None = Some i))) by done.
      case_decide as Hi.
      * destruct Hi as [<- _]. intros [= <- <-]. split_and!; [done| |done].
        intros Hne. specialize (Hge Hne). lia.
      * intros Hl. pose proof (Hfill i _ _ Hl) as Hfi.
        by rewrite decide_False in Hfi by done.
Qed.

Lemma insert_all_fill ops :
  ∀ G t flags t',
    Inv G t → fill_ok (root t) None (shape (nodes t)) →
    leaf_num t = count_leaves (shape (nodes t)) →
    insert_all t ops = Some (flags, t') →
    fill_ok (root t') None (shape (nodes t')) ∧
    leaf_num t' = count_leaves (shape (nodes t')).
Proof.
  induction ops as [|[k ov] ops IH]; intros G t flags t' HI Hfill Hc; simpl.
  { by intros [= <- <-]. }
  destruct (bplus_insert_ok G t k ov HI) as (G1 & t1 & b & Hins & HI1 & _).
  rewrite Hins. destruct (insert_fill G t k ov b t1 HI Hfill Hc Hins) as [Hfill1 Hc1].
  destruct (insert_all t1 ops) as [[bs t2]|] eqn:Hrun; [|done].
  intros [= <- <-]. by apply (IH G1 t1 bs).
Qed.

Lemma reachable_fill t :
  reachable t →
  fill_ok (root t) None (shape (nodes t)) ∧
  leaf_num t = count_leaves (shape (nodes t)).
Proof.
  intros (ops & flags & Hrun).
  apply (insert_all_fill ops ghost0 new flags t bplus_inv_new); [|done|done].
  intros [|i] lf len; [|done]. intros [= <- <-]. simpl. split_and!; (done || lia).
Qed.

Lemma count_leaves_shape h :
  count_leaves (shape h) = length (filter (fun n => is_leaf_node n = true) h).
Proof.
  unfold count_leaves, shape. induction h as [|n h IH]; [done|].
  rewrite fmap_cons. destruct (is_leaf_node n) eqn:Hn.
  - rewrite !filter_cons_True by done. simpl. by rewrite IH.
  - rewrite !filter_cons_False by (simpl; congruence). done.
Qed.

(** X5: the fill of the nodes of a reachable tree.  A leaf holds at most
    3 keys and as many values as keys; an internal node holds between 1
    and 4 keys and one child more than keys; and every node other than the
    root holds at least 2 keys. *)
Theorem bplus_node_fill t i n :
  reachable t → nodes t !! i = Some n →
  match n with
  | Leaf ks _ vs _ =>
      (length ks <= 3)%nat ∧ length vs = length ks ∧ StronglySorted Z.lt ks
  | Internal ks _ cs =>
      (1 <= length ks <= 4)%nat ∧ length cs = S (length ks)
  end ∧
  (i ≠ root t → 2 <= length (keys n))%nat.
Proof.
  intros Hr Hn. destruct (reachable_fill t Hr) as [Hfill _].
  destruct (bplus_reachable_inv t Hr) as [G HI].
  pose proof (inv_node HI _ _ Hn) as Hok.
  pose proof (Hfill i _ _ (shape_lookup _ _ _ Hn)) as Hf.
  rewrite decide_False in Hf by done. destruct Hf as (Hle & Hge & Hint).
  split; [|done]. destruct n as [ks par vs ptr|ks par cs]; simpl in *.
  - destruct Hok as (_ & Hlen & Hs & _). done.
  - destruct Hok as (_ & Hlen & _). split; [|done]. split; [by apply Hint|done].
Qed.

Lemma bplus_node_fill_witness :
  let t4 := {| nodes := [Leaf [1; 2] (Some 2%nat) [1; 2] (Some 1%nat);
                         Leaf [3; 4] (Some 2%nat) [3; 4] None;
                         Internal [3] None [0%nat; 1%nat]];
               root := 2; leaf_num := 2 |} in
  let ks : list Z := [3; 4] in
  ((length ks <= 3)%nat ∧ length ks = length ks ∧ StronglySorted Z.lt ks) ∧
  (1%nat ≠ root t4 → (2 <= length (keys (Leaf ks (Some 2%nat) ks None)))%nat).
Proof.
  apply (bplus_node_fill
           {| nodes := [Leaf [1; 2] (Some 2%nat) [1; 2] (Some 1%nat);
                        Leaf [3; 4] (Some 2%nat) [3; 4] None;
                        Internal [3] None [0%nat; 1%nat]];
              root := 2; leaf_num := 2 |} 1 (Leaf [3; 4] (Some 2%nat) [3; 4] None)).
  - exists [(1, None); (2, None); (3, None); (4, None)], [true; true; true; true].
    reflexivity.
  - reflexivity.
Defined.

(** X6: the counter [leaf_num] of a reachable tree is the number of leaf
    nodes the tree holds. *)
Theorem bplus_leaf_num_counts_leaves t :
  reachable t →
  leaf_num t = length (filter (fun n => is_leaf_node n = true) (nodes t)).
Proof.
  intros Hr. destruct (reachable_fill t Hr) as [_ Hc].
  by rewrite Hc, count_leaves_shape.
Qed.

Lemma bplus_leaf_num_counts_leaves_witness :
  let t4 := {| nodes := [Leaf [1; 2] (Some 2%nat) [1; 2] (Some 1%nat);
                         Leaf [3; 4] (Some 2%nat) [3; 4] None;
                         Internal [3] None [0%nat; 1%nat]];
               root := 2; leaf_num := 2 |} in
  leaf_num t4 = length (filter (fun n => is_leaf_node n = true) (nodes t4)).
Proof.
  apply (bplus_leaf_num_counts_leaves
           {| nodes := [Leaf [1; 2] (Some 2%nat) [1; 2] (Some 1%nat);
                        Leaf [3; 4] (Some 2%nat) [3; 4] None;
                        Internal [3] None [0%nat; 1%nat]];
              root := 2; leaf_num := 2 |}).
  exists [(1, None); (2, None); (3, None); (4, None)], [true; true; true; true].
  reflexivity.
Defined.

(** *** The node methods *)

Lemma position_gt_absent key ks :
  StronglySorted Z.lt ks → (ks !! position_gt key ks = Some key ↔ key ∈ ks).
Proof.
  intros Hs. split.
  - intros Hk. by eapply list_elem_of_lookup_2.
  - intros Hin. destruct (decide (ks !! position_gt key ks = Some key)) as [|Hne]; [done|].
    by destruct (position_gt_insert key ks Hs Hne).
Qed.

(** X16: [Leaf.insert_key_and_value] on a leaf whose keys ascend strictly
    and whose values are as many as its keys.  It returns [False], leaving
    the leaf as it is, exactly when the key is among the keys; otherwise
    the keys still ascend strictly, the values are still as many, and the
    key-value pairs are the old ones and the new one; the parent and the
    next-leaf link are untouched. *)
Theorem leaf_insert_key_and_value key value ks par vs ptr :
  StronglySorted Z.lt ks → length vs = length ks →
  ∃ b n',
    insert_key_and_value key value (Leaf ks par vs ptr) = Some (b, n') ∧
    (b = false ↔ key ∈ ks) ∧
    (b = false → n' = Leaf ks par vs ptr) ∧
    (b = true →
     ∃ ks' vs', n' = Leaf ks' par vs' ptr ∧
                StronglySorted Z.lt ks' ∧ length vs' = length ks' ∧
                zip ks' vs' ≡ₚ (key, value) :: zip ks vs).
Proof.
  intros Hs Hlen. unfold insert_key_and_value.
  pose proof (position_gt_absent key ks Hs) as Habs.
  pose proof (position_gt_le key ks) as Hle.
  set (p := position_gt key ks) in *. case_decide as Hpos.
  - exists false, (Leaf ks par vs ptr). split_and!; try done. split; [|done].
    intros _. by apply Habs.
  - eexists true, _. split; [done|]. split_and!.
    + split; [done|]. intros Hin. by apply Habs in Hin.
    + done.
    + intros _. eexists _, _. split; [done|].
      destruct (position_gt_insert key ks Hs Hpos) as [_ Hs'].
      split_and!; [done|by rewrite !length_py_insert, Hlen|].
      unfold py_insert. rewrite zip_with_app by (rewrite !length_take; lia).
      simpl. rewrite <- zip_with_take, <- zip_with_drop.
      rewrite <- Permutation_middle. by rewrite take_drop.
Qed.

Lemma leaf_insert_key_and_value_witness :
  ∃ b n',
    insert_key_and_value 4 40 (Leaf [1; 5] None [10; 50] None) = Some (b, n') ∧
    (b = false ↔ 4 ∈ [1; 5]) ∧
    (b = false → n' = Leaf [1; 5] None [10; 50] None) ∧
    (b = true →
     ∃ ks' vs', n' = Leaf ks' None vs' None ∧
                StronglySorted Z.lt ks' ∧ length vs' = length ks' ∧
                zip ks' vs' ≡ₚ (4, 40) :: zip [1; 5] [10; 50]).
Proof.
  apply (leaf_insert_key_and_value 4 40 [1; 5] None [10; 50] None).
  - repeat constructor.
  - reflexivity.
Defined.

Lemma lookup_alter2_proj {B} (P : Node → B) q (a b : nat) (h : list Node) (i : nat) :
  (∀ n, P (set_parent q n) = P n) →
  P <$> alter (set_parent q) b (alter (set_parent q) a h) !! i = P <$> h !! i.
Proof.
  intros HP. rewrite !list_lookup_alter.
  repeat case_decide; subst; destruct (h !! _); simpl; rewrite ?HP; done.
Qed.

Lemma lookup_alter2_parent q (a b : nat) (h : list Node) (i : nat) :
  (i < length h)%nat → i = a ∨ i = b →
  parent <$> alter (set_parent q) b (alter (set_parent q) a h) !! i = Some q.
Proof.
  intros Hlt Hi. destruct (lookup_lt_is_Some_2 h i Hlt) as [n Hn].
  rewrite !list_lookup_alter.
  repeat case_decide; subst; rewrite ?Hn; simpl; rewrite ?set_parent_parent;
    (done || by destruct Hi).
Qed.

(** X17: [Internal.insert_key] on an internal node of the store.  The key
    goes to its place in the key sequence; the two children take the slots
    at that place and the next, the child that was at that place, if any,
    being replaced; both children get the node as parent; no other node
    changes.  Strictly ascending keys stay so when the key is new; and a
    node with one child more than keys, or a fresh node without keys and
    children, ends with one child more than keys. *)
Theorem internal_insert_key h self key l r ks par cs :
  h !! self = Some (Internal ks par cs) →
  (l < length h)%nat → (r < length h)%nat →
  let p := position_gt key ks in
  let ks' := take p ks ++ key :: drop p ks in
  let cs' := take p cs ++ [l; r] ++ drop (S p) cs in
  ∃ h',
    insert_key h self key l r = Some h' ∧ length h' = length h ∧
    keys <$> h' !! self = Some ks' ∧
    children <$> h' !! self = Some cs' ∧
    parent <$> h' !! l = Some (Some self) ∧
    parent <$> h' !! r = Some (Some self) ∧
    (∀ i, i ≠ self → i ≠ l → i ≠ r → h' !! i = h !! i) ∧
    (StronglySorted Z.lt ks → key ∉ ks → StronglySorted Z.lt ks') ∧
    (length cs = S (length ks) ∨ (ks = [] ∧ cs = []) → length cs' = S (length ks')).
Proof.
  intros Hself Hl Hr p ks' cs'. unfold insert_key. rewrite Hself. fold p.
  pose proof (lookup_lt_Some _ _ _ Hself) as Hslt.
  assert ((if (p <? length cs)%nat then py_insert (S p) r (<[p := l]> cs)
           else cs ++ [l; r]) = cs') as ->.
  { unfold cs'. destruct (Nat.ltb_spec p (length cs)).
    - unfold py_insert. rewrite drop_insert_lt by lia.
      rewrite (take_S_r (<[p := l]> cs) p l) by (by apply list_lookup_insert_eq).
      rewrite take_insert_ge by lia. by rewrite <- app_assoc.
    - rewrite take_ge, drop_ge by lia. done. }
  change (py_insert p key ks) with ks'.
  set (h1 := <[self := Internal ks' par cs']> h).
  assert (length h1 = length h) as Hlen1 by apply length_insert.
  destruct (lookup_lt_is_Some_2 h1 l) as [ln Hln]; [lia|]. rewrite Hln.
  destruct (lookup_lt_is_Some_2 (alter (set_parent (Some self)) l h1) r) as [rn Hrn].
  { rewrite length_alter. lia. }
  rewrite Hrn. eexists. split; [done|].
  assert (h1 !! self = Some (Internal ks' par cs')) as H1s.
  { by apply list_lookup_insert_eq. }
  split_and!.
  - by rewrite !length_alter.
  - rewrite (lookup_alter2_proj keys) by apply set_parent_keys. by rewrite H1s.
  - rewrite (lookup_alter2_proj children) by apply set_parent_children. by rewrite H1s.
  - apply lookup_alter2_parent; [lia|by left].
  - apply lookup_alter2_parent; [lia|by right].
  - intros i Hi1 Hi2 Hi3. rewrite !list_lookup_alter_ne by done.
    by apply list_lookup_insert_ne.
  - intros Hs Hni. apply (position_gt_insert key ks Hs).
    intros Hk. apply Hni. by eapply list_elem_of_lookup_2.
  - pose proof (position_gt_le key ks) as Hple. fold p in Hple.
    unfold cs', ks'. rewrite !length_app, length_take, length_drop. simpl.
    rewrite length_take, length_drop.
    intros [Hw|[-> ->]]; [lia|done].
Qed.

Lemma internal_insert_key_witness :
  let h := [Internal [] None []; Leaf [1] None [1] (Some 2%nat); Leaf [5] None [5] None] in
  ∃ h',
    insert_key h 0 5 1 2 = Some h' ∧ length h' = length h ∧
    keys <$> h' !! 0%nat = Some [5] ∧
    children <$> h' !! 0%nat = Some [1%nat; 2%nat] ∧
    parent <$> h' !! 1%nat = Some (Some 0%nat) ∧
    parent <$> h' !! 2%nat = Some (Some 0%nat) ∧
    (∀ i, i ≠ 0%nat → i ≠ 1%nat → i ≠ 2%nat → h' !! i = h !! i) ∧
    (StronglySorted Z.lt [] → 5 ∉ ([] : list Z) → StronglySorted Z.lt [5]) ∧
    (length ([] : list nat) = S (length ([] : list Z)) ∨
     (([] : list Z) = [] ∧ ([] : list nat) = []) →
     length [1%nat; 2%nat] = S (length [5])).
Proof.
  apply (internal_insert_key
           [Internal [] None []; Leaf [1] None [1] (Some 2%nat); Leaf [5] None [5] None]
           0 5 1 2 [] None []).
  - reflexivity.
  - simpl. lia.
  - simpl. lia.
Defined.

(** *** What a load leaves in the tree *)

Lemma load_lines_stored filename lines :
  ∀ G t t' out,
    Inv G t → load_lines filename t lines = Some (t', out) →
    ∃ G', Inv G' t' ∧
      (∀ k v, stored (nodes t) k v → stored (nodes t') k v) ∧
      (∀ k, Inserted k ∈ out →
            (∀ v, ¬ stored (nodes t) k v) ∧ stored (nodes t') k k) ∧
      (∀ k, k ∈ good_prefix lines → ∃ v, stored (nodes t') k v).
Proof.
  induction lines as [|line lines IH]; intros G t t' out HI; cbn [load_lines good_prefix].
  { intros [= <- <-]. exists G. split_and!; [done|done| |].
    - by intros k ?%elem_of_nil.
    - by intros k ?%elem_of_nil. }
  destruct (py_int (py_strip line)) as [number|].
  2:{ intros [= <- <-]. exists G. split_and!; [done|done| |].
      - intros k [[=]|?%elem_of_nil]%elem_of_cons. done.
      - by intros k ?%elem_of_nil. }
  destruct (bplus_insert_ok G t number None HI) as (G1 & t1 & b & Hins & HI1 & Hdup & Hnew).
  rewrite Hins.
  destruct (load_lines filename t1 lines) as [[t2 out2]|] eqn:Hload; [|done].
  intros [= <- <-]. destruct (IH G1 t1 t2 out2 HI1 Hload) as (G2 & HI2 & Hmono & Hins2 & Hpre).
  assert (∀ k v, stored (nodes t) k v → stored (nodes t1) k v) as Hmono1.
  { intros k v Hst. destruct (stored_decide G t number HI) as [Hex|Hno].
    - by destruct (Hdup Hex) as [_ ->].
    - destruct (Hnew Hno) as [_ Hst1]. apply Hst1. by left. }
  assert (∃ v, stored (nodes t1) number v) as Hnum.
  { destruct (stored_decide G t number HI) as [[v Hex]|Hno].
    - exists v. by apply Hmono1.
    - destruct (Hnew Hno) as [_ Hst1]. exists number. apply Hst1. by right. }
  exists G2. split_and!; [done| | |].
  - intros k v Hst. by apply Hmono, Hmono1.
  - intros k [Hin|Hin]%elem_of_app.
    + destruct b; [|by apply elem_of_nil in Hin].
      apply list_elem_of_singleton in Hin. injection Hin as ->.
      destruct (stored_decide G t number HI) as [Hex|Hno].
      { by destruct (Hdup Hex). }
      split; [done|]. apply Hmono. destruct (Hnew Hno) as [_ Hst1]. apply Hst1. by right.
    + destruct (Hins2 k Hin) as [Hno Hst]. split; [|done].
      intros v Hv. apply (Hno v). by apply Hmono1.
  - intros k [->|Hin]%elem_of_cons; [|by apply Hpre].
    destruct Hnum as [v Hv]. exists v. by apply Hmono.
Qed.

(** X18: what [load_from_file] leaves in a reachable tree.  Whatever
    [search] found before the load it finds after it, with the same value;
    every key reported as inserted was absent before and is found
    afterwards with itself as value; and every key of the lines before the
    first rejected line is found afterwards. *)
Theorem bplus_load_then_search t filename lines t' out :
  reachable t → load_from_file t filename (Some lines) = Some (t', out) →
  (∀ k v, search t k = Some (Some v) → search t' k = Some (Some v)) ∧
  (∀ k, Inserted k ∈ out → search t k = Some None ∧ search t' k = Some (Some k)) ∧
  (∀ k, k ∈ good_prefix lines → ∃ v, search t' k = Some (Some v)).
Proof.
  intros Hr Hload. destruct (bplus_reachable_inv t Hr) as [G HI].
  destruct (load_lines_stored filename lines G t t' out HI Hload)
    as (G' & HI' & Hmono & Hins & Hpre).
  split_and!.
  - intros k v Hs. apply (search_stored G'); [done|]. apply Hmono.
    destruct (search_spec G t k HI) as (r & Hsr & Hrv). apply Hrv. congruence.
  - intros k Hin. destruct (Hins k Hin) as [Hno Hst].
    split; [by apply (search_not_stored G)|by apply (search_stored G')].
  - intros k Hin. destruct (Hpre k Hin) as [v Hv]. exists v. by apply (search_stored G').
Qed.

Lemma bplus_load_then_search_witness :
  let t' := {| nodes := [Leaf [4] None [4] None]; root := 0; leaf_num := 1 |} in
  let out := [Inserted 4; InvalidValue "keys.txt"] in
  (∀ k v, search new k = Some (Some v) → search t' k = Some (Some v)) ∧
  (∀ k, Inserted k ∈ out → search new k = Some None ∧ search t' k = Some (Some k)) ∧
  (∀ k, k ∈ good_prefix ["4"; "x"; "5"]%string → ∃ v, search t' k = Some (Some v)).
Proof.
  apply (bplus_load_then_search new "keys.txt" ["4"; "x"; "5"]%string).
  - exists [], []. reflexivity.
  - reflexivity.
Defined.
End bplus_more.

(** ** Further properties of the extendible hash table *)
Section exthash_more.
Import ExtHash ExtHashInv ExtHashMore.

(** *** File names are distinct *)

Lemma to_uint_nonnil n : Nat.to_uint n ≠ Decimal.Nil.
Proof.
  intros Hn. pose proof (DecimalNat.Unsigned.of_to n) as E. rewrite Hn in E.
  simpl in E. subst n. discriminate Hn.
Qed.

Lemma show_nat_inj a b : show_nat a = show_nat b → a = b.
Proof.
  unfold show_nat. intros Heq. apply DecimalNat.Unsigned.to_uint_inj.
  pose proof (NilZero.usu _ (to_uint_nonnil a)) as Ha.
  pose proof (NilZero.usu _ (to_uint_nonnil b)) as Hb.
  rewrite Heq in Ha. congruence.
Qed.

Lemma string_length_append (s1 s2 : string) :
  String.length (s1 +:+ s2) = (String.length s1 + String.length s2)%nat.
Proof.
  induction s1 as [|c s1 IH]; [done|].
  cbv [String.append]. fold String.append. simpl. by rewrite IH.
Qed.

Lemma append_cancel_r (s1 s2 t : string) :
  (s1 +:+ t = s2 +:+ t)%string → s1 = s2.
Proof.
  revert s2. induction s1 as [|c s1 IH]; intros s2 Heq.
  - destruct s2 as [|c s2]; [done|]. exfalso.
    apply (f_equal String.length) in Heq. cbv [String.append] in Heq.
    fold String.append in Heq. simpl in Heq. rewrite string_length_append in Heq. lia.
  - destruct s2 as [|c' s2].
    + exfalso. apply (f_equal String.length) in Heq. cbv [String.append] in Heq.
      fold String.append in Heq. simpl in Heq. rewrite string_length_append in Heq. lia.
    + cbv [String.append] in Heq. fold String.append in Heq.
      injection Heq as -> Heq. f_equal. by apply IH.
Qed.

Lemma save_filename_inj a b : save_filename a = save_filename b → a = b.
Proof.
  unfold save_filename. intros Heq. apply show_nat_inj.
  cbv [String.append] in Heq. fold String.append in Heq.
  injection Heq as Heq. by apply append_cancel_r in Heq.
Qed.

Lemma metadata_save_filename id : metadata_filename ≠ save_filename id.
Proof. unfold metadata_filename, save_filename. cbv [String.append]. congruence. Qed.

Context {K V : Type} `{EqDecision K}.
Variable py_hash : K → Z.
Implicit Types t : ExtendibleHash K V.

Lemma items_NoDup g0 t b bk :
  EInv py_hash g0 t → buckets t !! b = Some bk → NoDup (items bk).*1.
Proof.
  intros HI Hb. pose proof (e_keys HI) as Hnd.
  rewrite <- (take_drop_middle (buckets t) b bk Hb) in Hnd.
  rewrite all_items_app in Hnd. unfold all_items at 2 in Hnd.
  rewrite bind_cons, !fmap_app in Hnd.
  apply NoDup_app in Hnd as (_ & _ & Hnd). by apply NoDup_app in Hnd as (Hnd & _).
Qed.

Lemma exthash_search_spec g0 t k :
  EInv py_hash g0 t →
  ∃ r, search py_hash t k = Some r ∧
       ∀ v, r = Some v ↔ (k, v) ∈ all_items (buckets t).
Proof.
  intros HI. unfold search.
  set (index := Z.to_nat (get_directory_index py_hash (global_depth t) k)).
  assert (index < length (directory t))%nat as Hidx.
  { rewrite (e_len HI). apply index_lt. }
  destruct (lookup_lt_is_Some_2 _ _ Hidx) as [b Hb]. rewrite Hb.
  destruct (lookup_lt_is_Some_2 (buckets t) b (e_refs HI _ _ Hb)) as [bk Hbk]. rewrite Hbk.
  eexists. split; [done|]. intros v. split.
  - intros Hg. apply dict_get_Some_elem in Hg. apply all_items_elem. eauto.
  - intros (b' & bk' & Hb' & Hin)%all_items_elem.
    destruct (stored_bucket py_hash g0 t b' bk' k v HI Hb' Hin) as [Hd _].
    fold index in Hd. assert (b' = b) as -> by congruence.
    assert (bk' = bk) as -> by congruence.
    apply dict_get_elem; [|done]. by eapply items_NoDup.
Qed.

Lemma split_bucket_depth t index t' :
  split_bucket py_hash t index = Some t' →
  (global_depth t' <= S (global_depth t))%nat.
Proof.
  unfold split_bucket.
  destruct (directory t !! index) as [o|]; [|done].
  destruct (buckets t !! o) as [ob|]; [|done].
  destruct (global_depth t <=? local_depth ob)%nat;
    (destruct (redistribute _ _ _ _ _) as [bs'|]; [|done]);
    (destruct (bs' !! o) as [?|]; [|done]);
    (destruct (bs' !! _) as [?|]; [|done]);
    intros [= <-]; simpl; lia.
Qed.

Lemma insert_loop_items g0 n t k v :
  EInv py_hash g0 t →
  ∃ b t', insert_loop py_hash n t k v = Some (b, t') ∧ EInv py_hash g0 t' ∧
          all_items (buckets t') ≡ₚ
            (if b then all_items (buckets t) ++ [(k, v)] else all_items (buckets t)) ∧
          (global_depth t <= global_depth t' <= global_depth t + n)%nat.
Proof.
  revert t. induction n as [|n IH]; intros t HI.
  { exists false, t. split_and!; (done || lia). }
  destruct (insert_loop_ok py_hash g0 (S n) t k v HI) as (b0 & t0 & Hrun & HI0).
  simpl in Hrun |- *.
  set (index := Z.to_nat (get_directory_index py_hash (global_depth t) k)) in *.
  assert (index < length (directory t))%nat as Hidx.
  { rewrite (e_len HI). apply index_lt. }
  destruct (lookup_lt_is_Some_2 _ _ Hidx) as [b Hb]. rewrite Hb in Hrun |- *.
  destruct (lookup_lt_is_Some_2 (buckets t) b (e_refs HI _ _ Hb)) as [bk Hbk].
  rewrite Hbk in Hrun |- *.
  destruct (dict_mem k (items bk)) eqn:Hmem.
  { exists false, t. split_and!; (done || lia). }
  unfold Bucket_insert in Hrun |- *. rewrite Hmem in Hrun |- *.
  destruct (Z.of_nat (length (items bk)) <? capacity bk).
  - injection Hrun as <- <-. eexists _, _. split; [done|]. split; [done|].
    cbn [buckets global_depth]. split; [|lia].
    apply dict_mem_false in Hmem. rewrite dict_set_new by done.
    by apply (all_items_snoc (buckets t) b bk (k, v)).
  - destruct (split_bucket_ok py_hash g0 t index HI Hidx) as (t1 & Hsp & HI1 & Hperm & Hge).
    pose proof (split_bucket_depth t index t1 Hsp) as Hle.
    rewrite Hsp. destruct (IH t1 HI1) as (b1 & t2 & Hrun2 & HI2 & Hperm2 & Hgd2).
    exists b1, t2. split_and!; [done|done| |lia|lia].
    rewrite Hperm2. by destruct b1; rewrite Hperm.
Qed.

Lemma search_same_items g0 t t' k :
  EInv py_hash g0 t → EInv py_hash g0 t' →
  (∀ v, (k, v) ∈ all_items (buckets t') ↔ (k, v) ∈ all_items (buckets t)) →
  search py_hash t' k = search py_hash t k.
Proof.
  intros HI HI' Hsame.
  destruct (exthash_search_spec g0 t k HI) as (r & -> & Hr).
  destruct (exthash_search_spec g0 t' k HI') as (r' & -> & Hr').
  f_equal. destruct r as [v|], r' as [v'|]; try done.
  - pose proof (proj1 (Hr' v') eq_refl) as Hin. apply Hsame in Hin.
    pose proof (proj2 (Hr v') Hin) as Heq. congruence.
  - pose proof (proj1 (Hr v) eq_refl) as Hin. apply Hsame in Hin.
    pose proof (proj2 (Hr' v) Hin) as Heq. congruence.
  - pose proof (proj1 (Hr' v') eq_refl) as Hin. apply Hsame in Hin.
    pose proof (proj2 (Hr v') Hin) as Heq. congruence.
Qed.


(** X8: one [insert] on a reachable table.  The call returns.  When it
    returns [True] the pair has been added to the pairs held before and
    [search] finds it; when it returns [False] the table holds the pairs
    it held before (buckets may have been split on the way).  It returns
    [False] when the key was already present.  In both cases [search] for
    any other key gives what it gave before. *)
Theorem exthash_insert_then_search g0 t k v :
  reachable py_hash g0 t →
  ∃ b t',
    insert py_hash t k v = Some (b, t') ∧ reachable py_hash g0 t' ∧
    table_items t' ≡ₚ (if b then table_items t ++ [(k, v)] else table_items t) ∧
    (search py_hash t k ≠ Some None → b = false) ∧
    search py_hash t' k = (if b then Some (Some v) else search py_hash t k) ∧
    ∀ k', k' ≠ k → search py_hash t' k' = search py_hash t k'.
Proof.
  intros Hr. pose proof (exthash_reachable_inv py_hash g0 t Hr) as HI.
  destruct (insert_loop_items g0 10 t k v HI) as (b & t' & Hins & HI' & Hperm & _).
  change (insert py_hash t k v = Some (b, t')) in Hins.
  exists b, t'. split; [done|]. split; [exact (reach_insert py_hash g0 t k v b t' Hr Hins)|].
  split.
  { rewrite (table_items_all py_hash g0 t' HI'), Hperm.
    destruct b; by rewrite (table_items_all py_hash g0 t HI). }
  split_and!.
  - intros Hs. destruct (exthash_search_spec g0 t k HI) as (r & Hsr & Hrv).
    rewrite Hsr in Hs. destruct r as [v0|]; [|done].
    assert ((k, v0) ∈ all_items (buckets t)) as Hin by by apply Hrv.
    pose proof (exthash_reinsert py_hash g0 t k v0 v HI Hin) as Hre. congruence.
  - destruct b.
    + destruct (exthash_search_spec g0 t' k HI') as (r & -> & Hrv). f_equal.
      apply Hrv. rewrite Hperm, elem_of_app, list_elem_of_singleton. by right.
    + apply (search_same_items g0); [done|done|]. intros v0. by rewrite Hperm.
  - intros k' Hk'. apply (search_same_items g0); [done|done|]. intros v0.
    destruct b; rewrite Hperm; [|done].
    rewrite elem_of_app, list_elem_of_singleton. naive_solver.
Qed.

(** X9: the directory of a reachable table has [2 ^ global_depth] slots,
    and an [insert] grows the global depth by at most 10 (one doubling per
    attempt) and never lowers it. *)
Theorem exthash_insert_depth g0 t k v b t' :
  reachable py_hash g0 t → insert py_hash t k v = Some (b, t') →
  length (directory t) = (2 ^ global_depth t)%nat ∧
  length (directory t') = (2 ^ global_depth t')%nat ∧
  (global_depth t <= global_depth t' <= global_depth t + 10)%nat.
Proof.
  intros Hr Hins. pose proof (exthash_reachable_inv py_hash g0 t Hr) as HI.
  destruct (insert_loop_items g0 10 t k v HI) as (b1 & t1 & Hins1 & HI' & _ & Hgd).
  change (insert py_hash t k v = Some (b1, t1)) in Hins1.
  assert (t1 = t') as -> by congruence.
  split; [apply (e_len HI)|]. split; [apply (e_len HI')|done].
Qed.

(** *** What a split changes *)

Lemma dict_set_length (k : K) (v : V) d : (length (dict_set k v d) <= S (length d))%nat.
Proof.
  induction d as [|[k' v'] d IH]; simpl; [lia|]. case_decide; simpl; lia.
Qed.

Lemma redistribute_cons gd dir kv (its : list (K * V)) bs :
  redistribute py_hash gd dir (kv :: its) bs =
    match dir !! Z.to_nat (get_directory_index py_hash gd kv.1) with
    | Some b =>
        match bs !! b with
        | Some bk =>
            redistribute py_hash gd dir its
              (<[b := set_items (dict_set kv.1 kv.2 (items bk)) bk]> bs)
        | None => None
        end
    | None => None
    end.
Proof.
  unfold redistribute. simpl.
  destruct (dir !! _) as [b|]; [destruct (bs !! b) as [bk|]; [done|]|];
    (induction its as [|? ? IH]; [done|apply IH]).
Qed.

Lemma redistribute_frame gd dir (its : list (K * V)) :
  ∀ bs bs', redistribute py_hash gd dir its bs = Some bs' →
    length bs' = length bs ∧
    ∀ b bk, bs !! b = Some bk →
      ∃ bk', bs' !! b = Some bk' ∧
        capacity bk' = capacity bk ∧ local_depth bk' = local_depth bk ∧
        bucket_id bk' = bucket_id bk ∧
        (length (items bk') <= length (items bk) + length its)%nat ∧
        ((∀ kv, kv ∈ its →
            dir !! Z.to_nat (get_directory_index py_hash gd kv.1) ≠ Some b) →
         bk' = bk).
Proof.
  induction its as [|kv its IH]; intros bs bs'.
  { intros [= <-]. split; [done|]. intros b bk Hb. exists bk.
    split_and!; try done. simpl. lia. }
  rewrite redistribute_cons.
  destruct (dir !! _) as [b0|] eqn:Hdir; [|done].
  destruct (bs !! b0) as [bk0|] eqn:Hb0; [|done].
  intros Hred. destruct (IH _ _ Hred) as [Hlen Hall].
  rewrite length_insert in Hlen. split; [done|].
  intros b bk Hb. destruct (decide (b = b0)) as [->|Hne].
  - assert (bk = bk0) as -> by congruence.
    destruct (Hall b0 (set_items (dict_set kv.1 kv.2 (items bk0)) bk0))
      as (bk' & Hb' & Hc & Hl & Hi & Hn & Hsame).
    { apply list_lookup_insert_eq. by eapply lookup_lt_Some. }
    exists bk'. simpl in *. split_and!; try done.
    + pose proof (dict_set_length kv.1 kv.2 (items bk0)). lia.
    + intros Hno. exfalso. apply (Hno kv); [by left|done].
  - destruct (Hall b bk) as (bk' & Hb' & Hc & Hl & Hi & Hn & Hsame).
    { by rewrite list_lookup_insert_ne. }
    exists bk'. split_and!; try done.
    + simpl. lia.
    + intros Hno. apply Hsame. intros kv' Hin. apply Hno. by right.
Qed.

Lemma split_bucket_detail g0 t index o ob t' :
  EInv py_hash g0 t → directory t !! index = Some o → buckets t !! o = Some ob →
  split_bucket py_hash t index = Some t' →
  ∃ ob' nb' fs1,
    bucket_capacity t' = bucket_capacity t ∧
    next_bucket_id t' = S (next_bucket_id t) ∧
    length (buckets t') = S (length (buckets t)) ∧
    buckets t' !! o = Some ob' ∧ buckets t' !! length (buckets t) = Some nb' ∧
    (∀ b, b ≠ o → b ≠ length (buckets t) → buckets t' !! b = buckets t !! b) ∧
    (capacity ob' = capacity ob ∧ bucket_id ob' = bucket_id ob ∧
     local_depth ob' = S (local_depth ob) ∧
     (length (items ob') <= length (items ob))%nat) ∧
    (capacity nb' = bucket_capacity t ∧ bucket_id nb' = Some (next_bucket_id t) ∧
     local_depth nb' = S (local_depth ob) ∧
     (length (items nb') <= length (items ob))%nat) ∧
    clean fs1 ∧
    (fs1 = files t ∨
     fs1 = save_metadata (S (global_depth t)) (next_bucket_id t) (files t)) ∧
    files t' = save_metadata (global_depth t') (S (next_bucket_id t))
                 (Bucket_save nb' (Bucket_save ob' fs1)).
Proof.
  intros HI Ho Hob Hsp. unfold split_bucket in Hsp. rewrite Ho, Hob in Hsp.
  set (t1 := if (global_depth t <=? local_depth ob)%nat then grow_directory t else t) in Hsp.
  assert (EInv py_hash g0 t1 ∧ buckets t1 = buckets t ∧
          bucket_capacity t1 = bucket_capacity t ∧
          next_bucket_id t1 = next_bucket_id t ∧
          (files t1 = files t ∨
           files t1 = save_metadata (S (global_depth t)) (next_bucket_id t) (files t)))
    as (HI1 & Hbs & Hcap & Hnext & Hfs).
  { unfold t1. destruct (global_depth t <=? local_depth ob)%nat.
    - split_and!; [by apply grow_inv|done|done|done|by right].
    - split_and!; [done|done|done|done|by left]. }
  clearbody t1. cbv zeta in Hsp.
  rewrite Bucket_init_clean in Hsp by apply (e_clean HI1).
  rewrite Hbs, Hcap, Hnext in Hsp.
  set (nw := length (buckets t)) in *.
  set (ld := S (local_depth ob)) in *.
  set (dir := repoint o nw (Z.shiftl 1 (Z.of_nat ld - 1)) (directory t1)) in *.
  set (ob0 := {| capacity := capacity ob; local_depth := ld; items := [];
                 bucket_id := bucket_id ob |}) in *.
  set (nb := {| capacity := bucket_capacity t; local_depth := ld; items := [];
                bucket_id := Some (next_bucket_id t) |}) in *.
  destruct (redistribute py_hash (global_depth t1) dir (items ob)
              (<[o := ob0]> (buckets t) ++ [nb])) as [bs'|] eqn:Hred; [|done].
  destruct (bs' !! o) as [ob'|] eqn:Hob'; [|done].
  destruct (bs' !! nw) as [nb'|] eqn:Hnb'; [|done].
  injection Hsp as <-. cbn [bucket_capacity next_bucket_id buckets files global_depth].
  destruct (redistribute_frame _ _ _ _ _ Hred) as [Hlen Hall].
  rewrite length_app, length_insert in Hlen. cbn [length] in Hlen.
  pose proof (lookup_lt_Some _ _ _ Hob) as Holt. fold nw in Holt.
  assert (∀ kv, kv ∈ items ob →
            dir !! Z.to_nat (get_directory_index py_hash (global_depth t1) kv.1) = Some o ∨
            dir !! Z.to_nat (get_directory_index py_hash (global_depth t1) kv.1) = Some nw)
    as Hland.
  { intros [k v] Hin. rewrite <- Hbs in Hob.
    pose proof (e_place HI1 o ob k v Hob Hin) as Hd.
    unfold dir. rewrite repoint_lookup. simpl. rewrite Hd. simpl.
    case_decide; [by right|by left]. }
  assert (capacity ob' = capacity ob ∧ bucket_id ob' = bucket_id ob ∧
          local_depth ob' = ld ∧
          (length (items ob') <= length (items ob))%nat) as Hfob.
  { destruct (Hall o ob0) as (bk' & Hb' & Hc & Hl & Hi & Hn & _).
    { rewrite lookup_app_l by (rewrite length_insert; lia).
      by apply list_lookup_insert_eq. }
    assert (bk' = ob') as -> by congruence. unfold ob0 in *. simpl in *. done. }
  assert (capacity nb' = bucket_capacity t ∧ bucket_id nb' = Some (next_bucket_id t) ∧
          local_depth nb' = ld ∧
          (length (items nb') <= length (items ob))%nat) as Hfnb.
  { destruct (Hall nw nb) as (bk' & Hb' & Hc & Hl & Hi & Hn & _).
    { apply list_lookup_middle. by rewrite length_insert. }
    assert (bk' = nb') as -> by congruence. unfold nb in *. simpl in *. done. }
  exists ob', nb', (files t1).
  split; [done|]. split; [done|]. split; [lia|]. split; [done|]. split; [done|].
  split; [|split; [done|]; split; [done|]; split; [apply (e_clean HI1)|done]].
  intros b Hbo Hbn. destruct (buckets t !! b) as [bk|] eqn:Hb.
  - destruct (Hall b bk) as (bk' & Hb' & _ & _ & _ & _ & Hsame).
    { pose proof (lookup_lt_Some _ _ _ Hb). rewrite lookup_app_l by (rewrite length_insert; lia).
      by rewrite list_lookup_insert_ne. }
    rewrite Hb'. f_equal. apply Hsame. intros kv Hin.
    destruct (Hland kv Hin) as [-> | ->]; congruence.
  - apply lookup_ge_None. apply lookup_ge_None in Hb. fold nw in Hb. lia.
Qed.

(** *** Identities, fill and files of the buckets *)

Lemma book_new (fs : gmap string (blob K V)) cap g0 :
  clean fs → EBook g0 (new fs cap g0).
Proof.
  intros Hfs. unfold new. rewrite Bucket_init_clean by done.
  constructor; simpl.
  - done.
  - intros [|b] bk; simpl; [|done]. intros [= <-]. simpl. split_and!; (done || lia).
  - apply lookup_insert_eq.
  - intros [|b] bk; simpl; [|done]. intros [= <-]. by left.
Qed.

Lemma book_split g0 t index t' :
  EInv py_hash g0 t → EBook g0 t → split_bucket py_hash t index = Some t' →
  EBook g0 t'.
Proof.
  intros HI HB Hsp.
  destruct (directory t !! index) as [o|] eqn:Ho; [|by unfold split_bucket in Hsp; rewrite Ho in Hsp].
  destruct (buckets t !! o) as [ob|] eqn:Hob;
    [|by unfold split_bucket in Hsp; rewrite Ho, Hob in Hsp].
  destruct (split_bucket_detail g0 t index o ob t' HI Ho Hob Hsp)
    as (ob' & nb' & fs1 & Hcap & Hnext & Hlen & Hob' & Hnb' & Hframe &
        (Hoc & Hoi & Hol & Hon) & (Hnc & Hni & Hnl & Hnn) & Hclean & Hfs1 & Hfiles).
  destruct (b_ids HB o ob Hob) as (Hid & Hc & Hsize).
  pose proof (b_next HB) as Hnx.
  pose proof (lookup_lt_Some _ _ _ Hob) as Holt.
  assert (∀ b, fs1 !! save_filename b = files t !! save_filename b) as Hfs1'.
  { intros b. destruct Hfs1 as [->| ->]; [done|]. unfold save_metadata.
    rewrite lookup_insert_ne; [done|]. apply metadata_save_filename. }
  assert (∀ b, files t' !! save_filename b =
               if decide (b = length (buckets t))
               then Some (BucketBlob (items nb') (local_depth nb'))
               else if decide (b = o)
                    then Some (BucketBlob (items ob') (local_depth ob'))
                    else files t !! save_filename b) as Hlook.
  { intros b. rewrite Hfiles. unfold save_metadata.
    rewrite lookup_insert_ne by apply metadata_save_filename.
    unfold Bucket_save. rewrite Hni, Hoi, Hid, Hnx.
    case_decide as Hb1.
    - subst b. apply lookup_insert_eq.
    - rewrite lookup_insert_ne by (intros ?%save_filename_inj; done).
      case_decide as Hb2.
      + subst b. apply lookup_insert_eq.
      + rewrite lookup_insert_ne by (intros ?%save_filename_inj; done). apply Hfs1'. }
  constructor.
  - by rewrite Hnext, Hlen, Hnx.
  - intros b bk Hb. rewrite Hcap.
    destruct (decide (b = length (buckets t))) as [->|Hb1].
    { assert (bk = nb') as -> by congruence. rewrite Hnc, Hni, Hnx. split_and!; [done|done|lia]. }
    destruct (decide (b = o)) as [->|Hb2].
    { assert (bk = ob') as -> by congruence. rewrite Hoc, Hoi. split_and!; [done|done|lia]. }
    rewrite Hframe in Hb by done. by apply (b_ids HB).
  - rewrite Hfiles, Hnext. apply lookup_insert_eq.
  - intros b bk Hb. rewrite Hlook.
    destruct (decide (b = length (buckets t))) as [->|Hb1].
    { assert (bk = nb') as -> by congruence. by right. }
    destruct (decide (b = o)) as [->|Hb2].
    { assert (bk = ob') as -> by congruence. by right. }
    rewrite Hframe in Hb by done. by apply (b_files HB).
Qed.

Lemma book_insert_loop g0 n :
  ∀ t k v b t',
    EInv py_hash g0 t → EBook g0 t →
    insert_loop py_hash n t k v = Some (b, t') → EBook g0 t'.
Proof.
  induction n as [|n IH]; intros t k v b t' HI HB; simpl.
  { by intros [= <- <-]. }
  set (index := Z.to_nat (get_directory_index py_hash (global_depth t) k)).
  destruct (directory t !! index) as [o|] eqn:Ho; [|done].
  destruct (buckets t !! o) as [bk|] eqn:Hbk; [|done].
  destruct (dict_mem k (items bk)) eqn:Hmem.
  { by intros [= <- <-]. }
  unfold Bucket_insert. rewrite Hmem.
  destruct (b_ids HB o bk Hbk) as (Hid & Hc & Hsize).
  pose proof (lookup_lt_Some _ _ _ Hbk) as Holt.
  destruct (Z.ltb_spec (Z.of_nat (length (items bk))) (capacity bk)) as [Hroom|Hfull].
  - intros [= <- <-].
    set (bk' := {| capacity := capacity bk; local_depth := local_depth bk;
                   items := dict_set k v (items bk); bucket_id := bucket_id bk |}).
    assert (∀ b, Bucket_save bk' (files t) !! save_filename b =
                 if decide (b = o) then Some (BucketBlob (items bk') (local_depth bk'))
                 else files t !! save_filename b) as Hlook.
    { intros b. unfold Bucket_save. simpl. rewrite Hid. case_decide as Hb.
      - subst b. apply lookup_insert_eq.
      - rewrite lookup_insert_ne by (intros ?%save_filename_inj; done). done. }
    constructor; cbn [next_bucket_id buckets bucket_capacity files global_depth].
    + rewrite length_insert. apply (b_next HB).
    + intros b bk0. rewrite list_lookup_insert. case_decide as Hb.
      * destruct Hb as [<- _]. intros [= <-]. simpl. split_and!; [done|done|].
        pose proof (dict_set_length k v (items bk)). lia.
      * apply (b_ids HB).
    + unfold Bucket_save. simpl. rewrite Hid.
      rewrite lookup_insert_ne by (intros Heq; by apply (metadata_save_filename o)).
      apply (b_meta HB).
    + intros b bk0. rewrite Hlook, list_lookup_insert. case_decide as Hb.
      * destruct Hb as [<- _]. intros [= <-]. rewrite decide_True by done. by right.
      * intros Hb0. rewrite decide_False; [by apply (b_files HB)|].
        intros ->. apply Hb. done.
  - destruct (split_bucket py_hash t index) as [t1|] eqn:Hsp; [|done].
    assert (index < length (directory t))%nat as Hidx by (by eapply lookup_lt_Some).
    destruct (split_bucket_ok py_hash g0 t index HI Hidx) as (t1' & Hsp' & HI1 & _).
    assert (t1' = t1) as -> by congruence.
    apply IH; [done|]. by apply (book_split g0 t index t1).
Qed.

Lemma reachable_book g0 t : reachable py_hash g0 t → EBook g0 t.
Proof.
  induction 1 as [fs cap Hfs|t k v b t' Hr IH Hins|t index t' Hr IH Hsp].
  - by apply book_new.
  - apply (book_insert_loop g0 10 t k v b t'); [|done|done].
    by apply exthash_reachable_inv.
  - apply (book_split g0 t index t'); [|done|done]. by apply exthash_reachable_inv.
Qed.

Lemma directory_buckets g0 t :
  EInv py_hash g0 t → remove_dups (directory t) ≡ₚ seq 0 (length (buckets t)).
Proof.
  intros HI. apply NoDup_Permutation; [apply NoDup_remove_dups|apply NoDup_seq|].
  intros b. rewrite elem_of_remove_dups, elem_of_seq. split.
  - intros [i Hi]%list_elem_of_lookup. pose proof (e_refs HI _ _ Hi). lia.
  - intros Hb. apply (e_used HI). lia.
Qed.

Lemma bucket_at_Some t i bk :
  bucket_at t i = Some bk ↔ ∃ b, directory t !! i = Some b ∧ buckets t !! b = Some bk.
Proof.
  unfold bucket_at. destruct (directory t !! i) as [b|]; simpl; naive_solver.
Qed.

(** X10: in a reachable table [count_buckets] is the number of buckets
    ever created, which is [next_bucket_id]; the bucket a slot refers to
    carries an identity below [next_bucket_id]; and two slots whose buckets
    carry the same identity refer to the same bucket. *)
Theorem exthash_bucket_ids g0 t :
  reachable py_hash g0 t →
  count_buckets t = next_bucket_id t ∧
  ∀ i bi, bucket_at t i = Some bi →
    (∃ id, bucket_id bi = Some id ∧ (id < next_bucket_id t)%nat) ∧
    ∀ j bj, bucket_at t j = Some bj → bucket_id bi = bucket_id bj →
            directory t !! i = directory t !! j.
Proof.
  intros Hr. pose proof (exthash_reachable_inv py_hash g0 t Hr) as HI.
  pose proof (reachable_book g0 t Hr) as HB. split.
  - unfold count_buckets. rewrite (directory_buckets g0 t HI), length_seq.
    symmetry. apply (b_next HB).
  - intros i bi (b & Hi & Hb)%bucket_at_Some.
    destruct (b_ids HB b bi Hb) as (Hid & _). split.
    + exists b. split; [done|]. rewrite (b_next HB). by eapply lookup_lt_Some.
    + intros j bj (b' & Hj & Hb')%bucket_at_Some Heq.
      destruct (b_ids HB b' bj Hb') as (Hid' & _). congruence.
Qed.


(** X12: what a reachable table has written.  The metadata file holds the
    current global depth and next bucket identity; and the file of every
    bucket that holds a pair, or whose local depth is no longer the one it
    was constructed with, holds the bucket's current items and local
    depth.  No file carries a name the [Bucket] constructor would read. *)
Theorem exthash_files_current g0 t :
  reachable py_hash g0 t →
  files t !! metadata_filename =
    Some (MetaBlob (global_depth t) (next_bucket_id t)) ∧
  (∀ i bk id, bucket_at t i = Some bk → bucket_id bk = Some id →
     items bk ≠ [] ∨ local_depth bk ≠ g0 →
     files t !! save_filename id = Some (BucketBlob (items bk) (local_depth bk))) ∧
  ∀ id, files t !! load_filename id = None.
Proof.
  intros Hr. pose proof (exthash_reachable_inv py_hash g0 t Hr) as HI.
  pose proof (reachable_book g0 t Hr) as HB. split_and!.
  - apply (b_meta HB).
  - intros i bk id (b & Hi & Hb)%bucket_at_Some Hid Hne.
    destruct (b_ids HB b bk Hb) as (Hid' & _).
    assert (id = b) as -> by congruence.
    destruct (b_files HB b bk Hb) as [(_ & Hnil & Hld)|Hfile]; [|done].
    destruct Hne; done.
  - apply (e_clean HI).
Qed.

(** X13: [grow_directory] on a reachable table appends a copy of the
    directory to itself and adds one to the global depth; the buckets are
    untouched, and [search] returns for every key what it returned
    before. *)
Theorem exthash_grow_directory g0 t :
  reachable py_hash g0 t →
  directory (grow_directory t) = directory t ++ directory t ∧
  global_depth (grow_directory t) = S (global_depth t) ∧
  buckets (grow_directory t) = buckets t ∧
  ∀ k, search py_hash (grow_directory t) k = search py_hash t k.
Proof.
  intros Hr. pose proof (exthash_reachable_inv py_hash g0 t Hr) as HI.
  split_and!; [apply double_spec|done|done|].
  intros k. apply (search_same_items g0); [done|by apply grow_inv|done].
Qed.

Lemma split_bucket_gd t index o ob t' :
  directory t !! index = Some o → buckets t !! o = Some ob →
  split_bucket py_hash t index = Some t' →
  global_depth t' =
    (if (global_depth t <=? local_depth ob)%nat then S (global_depth t)
     else global_depth t) ∧
  length (directory t') =
    (if (global_depth t <=? local_depth ob)%nat
     then length (directory t) + length (directory t) else length (directory t))%nat.
Proof.
  intros Ho Hob. unfold split_bucket. rewrite Ho, Hob.
  destruct (global_depth t <=? local_depth ob)%nat;
    (destruct (redistribute _ _ _ _ _) as [bs'|]; [|done]);
    (destruct (bs' !! o) as [?|]; [|done]);
    (destruct (bs' !! _) as [?|]; [|done]);
    intros [= <-]; cbn [global_depth directory grow_directory];
    rewrite length_repoint; [rewrite double_spec, length_app|]; done.
Qed.

(** X14: [split_bucket] on a slot of a reachable table returns; it creates
    exactly one bucket, with the next identity; the bucket of the slot and
    the new bucket both end at the old local depth plus one; the directory
    doubles exactly when that local depth equalled the global depth, and
    keeps its size otherwise; and [search] returns for every key what it
    returned before. *)
Theorem exthash_split_bucket_effect g0 t index o ob :
  reachable py_hash g0 t →
  directory t !! index = Some o → buckets t !! o = Some ob →
  ∃ t' ob' nb',
    split_bucket py_hash t index = Some t' ∧
    count_buckets t' = S (count_buckets t) ∧
    buckets t' !! o = Some ob' ∧ buckets t' !! next_bucket_id t = Some nb' ∧
    local_depth ob' = S (local_depth ob) ∧ local_depth nb' = S (local_depth ob) ∧
    bucket_id nb' = Some (next_bucket_id t) ∧
    global_depth t' =
      (if decide (local_depth ob = global_depth t) then S (global_depth t)
       else global_depth t) ∧
    length (directory t') = (2 ^ global_depth t')%nat ∧
    ∀ k, search py_hash t' k = search py_hash t k.
Proof.
  intros Hr Ho Hob. pose proof (exthash_reachable_inv py_hash g0 t Hr) as HI.
  pose proof (reachable_book g0 t Hr) as HB.
  pose proof (lookup_lt_Some _ _ _ Ho) as Hidx.
  destruct (split_bucket_ok py_hash g0 t index HI Hidx) as (t' & Hsp & HI' & Hperm & _).
  destruct (split_bucket_detail g0 t index o ob t' HI Ho Hob Hsp)
    as (ob' & nb' & fs1 & _ & _ & Hlen & Hob' & Hnb' & _ &
        (_ & _ & Hol & _) & (_ & Hni & Hnl & _) & _).
  destruct (split_bucket_gd t index o ob t' Ho Hob Hsp) as [Hgd _].
  exists t', ob', nb'. rewrite (b_next HB).
  split_and!; try done.
  - unfold count_buckets.
    rewrite (directory_buckets g0 t' HI'), (directory_buckets g0 t HI), !length_seq. done.
  - by rewrite <- (b_next HB).
  - rewrite Hgd. pose proof (e_depth HI o ob Hob) as Hd.
    destruct (Nat.leb_spec (global_depth t) (local_depth ob)); case_decide; (done || lia).
  - apply (e_len HI').
  - intros k. apply (search_same_items g0); [done|done|]. intros v. by rewrite Hperm.
Qed.

(** *** Keys that collide on the whole hash *)

Lemma index_same_hash gd (k1 k2 : K) :
  hash_function py_hash k1 = hash_function py_hash k2 →
  get_directory_index py_hash gd k1 = get_directory_index py_hash gd k2.
Proof. unfold get_directory_index. by intros ->. Qed.

Lemma stuck_split g0 t k index t' :
  EInv py_hash g0 t → EBook g0 t → stuck py_hash k t →
  index = Z.to_nat (get_directory_index py_hash (global_depth t) k) →
  split_bucket py_hash t index = Some t' →
  EInv py_hash g0 t' → EBook g0 t' →
  all_items (buckets t') ≡ₚ all_items (buckets t) →
  stuck py_hash k t'.
Proof.
  intros HI HB (ob & (o & Ho & Hob)%bucket_at_Some & Hfull & Hcol) -> Hsp HI' HB' Hperm.
  destruct (split_bucket_detail g0 t _ o ob t' HI Ho Hob Hsp)
    as (ob' & nb' & fs1 & Hcap & _ & Hlen & Hob' & Hnb' & Hframe & _).
  set (index' := Z.to_nat (get_directory_index py_hash (global_depth t') k)).
  assert (index' < length (directory t'))%nat as Hidx'.
  { rewrite (e_len HI'). apply index_lt. }
  destruct (lookup_lt_is_Some_2 _ _ Hidx') as [b Hb].
  destruct (lookup_lt_is_Some_2 (buckets t') b (e_refs HI' _ _ Hb)) as [bk Hbk].
  destruct (b_ids HB o ob Hob) as (_ & Hcob & Hsob).
  destruct (b_ids HB' b bk Hbk) as (_ & Hcbk & Hsbk).
  exists bk. split; [apply bucket_at_Some; eauto|].
  (* every pair of the old bucket now sits in [bk] *)
  assert (∀ k1 v1, (k1, v1) ∈ items ob → (k1, v1) ∈ items bk) as Hinto.
  { intros k1 v1 Hin.
    assert ((k1, v1) ∈ all_items (buckets t')) as Hin'.
    { rewrite Hperm. apply all_items_elem. eauto. }
    apply all_items_elem in Hin' as (b1 & bk1 & Hb1 & Hin1).
    destruct (stored_bucket py_hash g0 t' b1 bk1 k1 v1 HI' Hb1 Hin1) as [Hd _].
    rewrite (index_same_hash _ k1 k) in Hd by (by apply (Hcol k1 v1)).
    fold index' in Hd. assert (b1 = b) as -> by congruence. congruence. }
  destruct (items ob) as [|[k0 v0] rest] eqn:Hitems.
  { (* capacity at most 0: every bucket is empty and full *)
    simpl in Hfull. rewrite Hcbk, Hcap, <- Hcob.
    split; [lia|]. intros k' v' Hin. exfalso.
    assert (length (items bk) = 0%nat) as Hz by lia.
    destruct (items bk); [by apply elem_of_nil in Hin|done]. }
  rewrite <- Hitems in *.
  assert ((k0, v0) ∈ items ob) as Hin0 by (rewrite Hitems; by left).
  (* [bk] is the old bucket or the new one *)
  assert (b = o ∨ b = length (buckets t)) as Hwhich.
  { destruct (decide (b = o)) as [|Hne1]; [by left|].
    destruct (decide (b = length (buckets t))) as [|Hne2]; [by right|]. exfalso.
    rewrite (Hframe b Hne1 Hne2) in Hbk.
    destruct (stored_bucket py_hash g0 t b bk k0 v0 HI Hbk (Hinto _ _ Hin0)) as [Hd1 _].
    destruct (stored_bucket py_hash g0 t o ob k0 v0 HI Hob Hin0) as [Hd2 _].
    congruence. }
  (* every pair of [bk] comes from the old bucket *)
  assert (∀ k1 v1, (k1, v1) ∈ items bk → (k1, v1) ∈ items ob) as Hfrom.
  { intros k1 v1 Hin.
    destruct (stored_bucket py_hash g0 t' b bk k1 v1 HI' Hbk Hin) as [Hd _].
    assert ((k1, v1) ∈ all_items (buckets t)) as Hin'.
    { rewrite <- Hperm. apply all_items_elem. eauto. }
    apply all_items_elem in Hin' as (b2 & bk2 & Hb2 & Hin2).
    destruct (decide (b2 = o)) as [->|Hne]; [congruence|]. exfalso.
    pose proof (lookup_lt_Some _ _ _ Hb2) as Hlt.
    assert (b2 ≠ length (buckets t)) as Hne2 by lia.
    rewrite <- (Hframe b2 Hne Hne2) in Hb2.
    destruct (stored_bucket py_hash g0 t' b2 bk2 k1 v1 HI' Hb2 Hin2) as [Hd2 _].
    assert (b2 = b) as -> by congruence. destruct Hwhich; done. }
  split.
  - rewrite Hcbk, Hcap, <- Hcob.
    assert (length (items ob) <= length (items bk))%nat; [|lia].
    apply submseteq_length, NoDup_submseteq.
    + apply (NoDup_fmap_1 fst). apply (items_NoDup g0 t o ob HI Hob).
    + intros [k1 v1]. apply Hinto.
  - intros k' v' Hin. apply (Hcol k' v'). by apply Hfrom.
Qed.

Lemma insert_loop_stuck g0 n :
  ∀ t k v, EInv py_hash g0 t → EBook g0 t → stuck py_hash k t →
           ∃ t', insert_loop py_hash n t k v = Some (false, t').
Proof.
  induction n as [|n IH]; intros t k v HI HB Hst; simpl; [eauto|].
  pose proof Hst as (ob & (o & Ho & Hob)%bucket_at_Some & Hfull & Hcol).
  rewrite Ho, Hob.
  assert (dict_mem k (items ob) = false) as Hmem.
  { apply dict_mem_false. intros ([k' v'] & Heq & Hin)%list_elem_of_fmap.
    simpl in Heq. subst k'. by destruct (Hcol k v' Hin). }
  rewrite Hmem. unfold Bucket_insert. rewrite Hmem.
  destruct (Z.ltb_spec (Z.of_nat (length (items ob))) (capacity ob)); [lia|].
  pose proof (lookup_lt_Some _ _ _ Ho) as Hidx.
  destruct (split_bucket_ok py_hash g0 t _ HI Hidx) as (t1 & Hsp & HI1 & Hperm & _).
  rewrite Hsp. pose proof (book_split g0 t _ t1 HI HB Hsp) as HB1.
  apply IH; [done|done|]. by apply (stuck_split g0 t k _ t1 HI HB Hst eq_refl Hsp).
Qed.

(** X15: [insert] gives up on a key it cannot place.  When the bucket the
    key is directed to is full and every key in it has the same
    [hash_function] value as the new key, no split separates them: after
    its 10 attempts [insert] returns [False], although the key is not in
    the table; the table holds the pairs it held before, and [search] for
    the key still returns [None]. *)
Theorem exthash_insert_gives_up g0 t k v :
  reachable py_hash g0 t → stuck py_hash k t →
  ∃ t', insert py_hash t k v = Some (false, t') ∧
        table_items t' ≡ₚ table_items t ∧
        search py_hash t k = Some None ∧
        search py_hash t' k = Some None.
Proof.
  intros Hr Hst. pose proof (exthash_reachable_inv py_hash g0 t Hr) as HI.
  pose proof (reachable_book g0 t Hr) as HB.
  destruct (insert_loop_stuck g0 10 t k v HI HB Hst) as (t' & Hins).
  destruct (insert_loop_items g0 10 t k v HI) as (b1 & t1 & Hins1 & HI' & Hperm & _).
  rewrite Hins in Hins1. injection Hins1 as <- <-. simpl in Hperm.
  exists t'. split; [done|].
  assert (search py_hash t k = Some None) as Hnone.
  { destruct Hst as (ob & (o & Ho & Hob)%bucket_at_Some & _ & Hcol).
    unfold search. rewrite Ho, Hob. f_equal. apply dict_get_None.
    intros ([k' v'] & Heq & Hin)%list_elem_of_fmap.
    simpl in Heq. subst k'. by destruct (Hcol k v' Hin). }
  split_and!; [|done|].
  - by rewrite (table_items_all py_hash g0 t' HI'), (table_items_all py_hash g0 t HI).
  - rewrite <- Hnone. apply (search_same_items g0); [done|done|].
    intros v0. by rewrite Hperm.
Qed.

(** X20: the slot of a key is its [hash_function] value reduced modulo
    [2 ^ global_depth], so it lies inside a directory of that size; and
    when the global depth grows by one the key's slot is its old slot or
    its old slot plus the old directory size, the two slots that
    [grow_directory] makes aliases. *)
Theorem exthash_index_low_bits gd (k : K) :
  get_directory_index py_hash gd k = hash_function py_hash k mod 2 ^ Z.of_nat gd ∧
  (Z.to_nat (get_directory_index py_hash gd k) < 2 ^ gd)%nat ∧
  (get_directory_index py_hash (S gd) k = get_directory_index py_hash gd k ∨
   get_directory_index py_hash (S gd) k =
     get_directory_index py_hash gd k + 2 ^ Z.of_nat gd).
Proof.
  split; [apply index_mod|]. split; [apply index_lt|].
  unfold get_directory_index. cbv zeta. rewrite !index_mod.
  set (h := hash_function py_hash k).
  replace (2 ^ Z.of_nat (S gd)) with (2 ^ Z.of_nat gd * 2)
    by (rewrite Nat2Z.inj_succ, Z.pow_succ_r by lia; lia).
  assert (0 < 2 ^ Z.of_nat gd) as Hpos by (apply Z.pow_pos_nonneg; lia).
  rewrite Z.rem_mul_r by lia.
  pose proof (Z.mod_pos_bound (h / 2 ^ Z.of_nat gd) 2 ltac:(lia)) as Hb.
  destruct (decide ((h / 2 ^ Z.of_nat gd) mod 2 = 0)) as [->|Hne]; [left; lia|].
  right. replace ((h / 2 ^ Z.of_nat gd) mod 2) with 1 by lia. lia.
Qed.
End exthash_more.


Lemma exthash_insert_then_search_witness :
  let h : Z → Z := fun k => k in
  let t := ExtHash.new (∅ : gmap string (ExtHash.blob Z Z)) 2 1 in
  ∃ b t',
    ExtHash.insert h t 5 50 = Some (b, t') ∧ ExtHashInv.reachable h 1 t' ∧
    ExtHashInv.table_items t' ≡ₚ
      (if b then ExtHashInv.table_items t ++ [(5, 50)] else ExtHashInv.table_items t) ∧
    (ExtHash.search h t 5 ≠ Some None → b = false) ∧
    ExtHash.search h t' 5 = (if b then Some (Some 50) else ExtHash.search h t 5) ∧
    ∀ k', k' ≠ 5 → ExtHash.search h t' k' = ExtHash.search h t k'.
Proof.
  apply (exthash_insert_then_search (fun k : Z => k) 1).
  apply ExtHashInv.reach_new. intros id. apply lookup_empty.
Defined.

Lemma exthash_insert_depth_witness :
  let h : Z → Z := fun k => k in
  let t := ExtHash.new (∅ : gmap string (ExtHash.blob Z Z)) 2 1 in
  ∃ t', ExtHash.insert h t 5 50 = Some (true, t') ∧
        length (ExtHash.directory t) = (2 ^ ExtHash.global_depth t)%nat ∧
        length (ExtHash.directory t') = (2 ^ ExtHash.global_depth t')%nat ∧
        (ExtHash.global_depth t <= ExtHash.global_depth t'
         <= ExtHash.global_depth t + 10)%nat.
Proof.
  eexists. split; [vm_compute; reflexivity|].
  apply (exthash_insert_depth (fun k : Z => k) 1
           (ExtHash.new (∅ : gmap string (ExtHash.blob Z Z)) 2 1) 5 50 true).
  - apply ExtHashInv.reach_new. intros id. apply lookup_empty.
  - vm_compute. reflexivity.
Defined.

Lemma exthash_bucket_ids_witness :
  let t := ExtHash.new (∅ : gmap string (ExtHash.blob Z Z)) 2 1 in
  ExtHash.count_buckets t = ExtHash.next_bucket_id t ∧
  ∀ i bi, ExtHashInv.bucket_at t i = Some bi →
    (∃ id, ExtHash.bucket_id bi = Some id ∧ (id < ExtHash.next_bucket_id t)%nat) ∧
    ∀ j bj, ExtHashInv.bucket_at t j = Some bj →
            ExtHash.bucket_id bi = ExtHash.bucket_id bj →
            ExtHash.directory t !! i = ExtHash.directory t !! j.
Proof.
  apply (exthash_bucket_ids (fun k : Z => k) 1).
  apply ExtHashInv.reach_new. intros id. apply lookup_empty.
Defined.


Lemma exthash_files_current_witness :
  let t := ExtHash.new (∅ : gmap string (ExtHash.blob Z Z)) 2 1 in
  ExtHash.files t !! ExtHash.metadata_filename =
    Some (ExtHash.MetaBlob (ExtHash.global_depth t) (ExtHash.next_bucket_id t)) ∧
  (∀ i bk id, ExtHashInv.bucket_at t i = Some bk → ExtHash.bucket_id bk = Some id →
     ExtHash.items bk ≠ [] ∨ ExtHash.local_depth bk ≠ 1%nat →
     ExtHash.files t !! ExtHash.save_filename id =
       Some (ExtHash.BucketBlob (ExtHash.items bk) (ExtHash.local_depth bk))) ∧
  ∀ id, ExtHash.files t !! ExtHash.load_filename id = None.
Proof.
  apply (exthash_files_current (fun k : Z => k) 1).
  apply ExtHashInv.reach_new. intros id. apply lookup_empty.
Defined.

Lemma exthash_grow_directory_witness :
  let h : Z → Z := fun k => k in
  let t := ExtHash.new (∅ : gmap string (ExtHash.blob Z Z)) 2 1 in
  ExtHash.directory (ExtHash.grow_directory t) =
    ExtHash.directory t ++ ExtHash.directory t ∧
  ExtHash.global_depth (ExtHash.grow_directory t) = S (ExtHash.global_depth t) ∧
  ExtHash.buckets (ExtHash.grow_directory t) = ExtHash.buckets t ∧
  ∀ k, ExtHash.search h (ExtHash.grow_directory t) k = ExtHash.search h t k.
Proof.
  apply (exthash_grow_directory (fun k : Z => k) 1).
  apply ExtHashInv.reach_new. intros id. apply lookup_empty.
Defined.

Lemma exthash_split_bucket_effect_witness :
  let h : Z → Z := fun k => k in
  let t := ExtHash.new (∅ : gmap string (ExtHash.blob Z Z)) 2 1 in
  let ob := {| ExtHash.capacity := 2; ExtHash.local_depth := 1;
               ExtHash.items := ([] : list (Z * Z)); ExtHash.bucket_id := Some 0%nat |} in
  ∃ t' ob' nb',
    ExtHash.split_bucket h t 0 = Some t' ∧
    ExtHash.count_buckets t' = S (ExtHash.count_buckets t) ∧
    ExtHash.buckets t' !! 0%nat = Some ob' ∧
    ExtHash.buckets t' !! ExtHash.next_bucket_id t = Some nb' ∧
    ExtHash.local_depth ob' = S (ExtHash.local_depth ob) ∧
    ExtHash.local_depth nb' = S (ExtHash.local_depth ob) ∧
    ExtHash.bucket_id nb' = Some (ExtHash.next_bucket_id t) ∧
    ExtHash.global_depth t' =
      (if decide (ExtHash.local_depth ob = ExtHash.global_depth t)
       then S (ExtHash.global_depth t) else ExtHash.global_depth t) ∧
    length (ExtHash.directory t') = (2 ^ ExtHash.global_depth t')%nat ∧
    ∀ k, ExtHash.search h t' k = ExtHash.search h t k.
Proof.
  apply (exthash_split_bucket_effect (fun k : Z => k) 1
           (ExtHash.new (∅ : gmap string (ExtHash.blob Z Z)) 2 1) 0 0).
  - apply ExtHashInv.reach_new. intros id. apply lookup_empty.
  - reflexivity.
  - reflexivity.
Defined.

Lemma exthash_insert_gives_up_witness :
  let h : Z → Z := fun k => k in
  ∃ t1 t2 : ExtHash.ExtendibleHash Z Z,
    ExtHash.insert h (ExtHash.new ∅ 2 1) 0 0 = Some (true, t1) ∧
    ExtHash.insert h t1 4294967296 1 = Some (true, t2) ∧
    ∃ t', ExtHash.insert h t2 8589934592 2 = Some (false, t') ∧
          ExtHashInv.table_items t' ≡ₚ ExtHashInv.table_items t2 ∧
          ExtHash.search h t2 8589934592 = Some None ∧
          ExtHash.search h t' 8589934592 = Some None.
Proof.
  intros h.
  eassert (ExtHash.insert h (ExtHash.new (∅ : gmap string (ExtHash.blob Z Z)) 2 1) 0 0
           = Some (true, _)) as E1 by (vm_compute; reflexivity).
  match type of E1 with
  | _ = Some (_, ?T1) =>
      eassert (ExtHash.insert h T1 4294967296 1 = Some (true, _)) as E2
        by (vm_compute; reflexivity)
  end.
  match type of E2 with
  | ExtHash.insert _ ?T1 _ _ = Some (_, ?T2) => exists T1, T2
  end.
  split; [exact E1|]. split; [exact E2|].
  apply (exthash_insert_gives_up h 1).
  - refine (ExtHashInv.reach_insert h 1%nat _ _ _ _ _ _ E2).
    refine (ExtHashInv.reach_insert h 1%nat _ _ _ _ _ _ E1).
    apply ExtHashInv.reach_new. intros id. apply lookup_empty.
  - eexists. split; [vm_compute; reflexivity|]. split; [vm_compute; discriminate|].
    intros k' v' Hin. cbn [ExtHash.items] in Hin.
    apply elem_of_cons in Hin as [[= -> ->]|Hin]; [split; [vm_compute; reflexivity|discriminate]|].
    apply elem_of_cons in Hin as [[= -> ->]|Hin]; [split; [vm_compute; reflexivity|discriminate]|].
    by apply elem_of_nil in Hin.
Defined.

(** *** What a load leaves in the table *)
Section exthash_load.
Import ExtHash ExtHashInv ExtHashMore.
Variable py_hash : Z → Z.

Lemma load_lines_found g0 lines :
  ∀ t count t' count' out,
    reachable py_hash g0 t →
    load_lines py_hash t count lines = Some (t', count', out) →
    reachable py_hash g0 t' ∧
    (∀ kv, kv ∈ all_items (buckets t) → kv ∈ all_items (buckets t')) ∧
    (∀ key n, InsertedKey key n ∈ out →
              (∀ v, (key, v) ∉ all_items (buckets t)) ∧
              (key, key) ∈ all_items (buckets t')).
Proof.
  induction lines as [|line lines IH]; intros t count t' count' out Hr; cbn [load_lines].
  { intros [= <- <- <-]. split_and!; [done|done|]. by intros key n ?%elem_of_nil. }
  case_decide as Hblank; [by apply IH|].
  destruct (py_int (py_strip line)) as [key|].
  2:{ destruct (load_lines py_hash t count lines) as [[[t1 c1] out1]|] eqn:Hload; [|done].
      intros [= <- <- <-]. destruct (IH _ _ _ _ _ Hr Hload) as (Hr' & Hmono & Hins).
      split_and!; [done|done|].
      intros k n [[=]|Hin]%elem_of_cons. by apply (Hins k n). }
  pose proof (exthash_reachable_inv py_hash g0 t Hr) as HI.
  destruct (insert_loop_items py_hash g0 10 t key key HI) as (b & t1 & Hins & HI1 & Hperm & _).
  change (insert py_hash t key key = Some (b, t1)) in Hins.
  unfold insert_display. rewrite Hins.
  pose proof (reach_insert py_hash g0 t key key b t1 Hr Hins) as Hr1.
  assert (∀ kv, kv ∈ all_items (buckets t) → kv ∈ all_items (buckets t1)) as Hmono1.
  { intros kv Hin. rewrite Hperm. destruct b; [|done]. apply elem_of_app. by left. }
  assert (∀ out1, match load_lines py_hash t1 (S count) lines with
                  | Some (t2, c2, out2) =>
                      Some (t2, c2, out1 ++ (if decide (S count mod 100 = 0)%nat
                                             then [Processed (S count)] else []) ++ out2)
                  | None => None
                  end = Some (t', count', out) →
          ∃ out2, load_lines py_hash t1 (S count) lines = Some (t', count', out2) ∧
                  ∀ k n, InsertedKey k n ∈ out → InsertedKey k n ∈ out1 ∨ InsertedKey k n ∈ out2)
    as Hsplit.
  { intros out1 Heq.
    destruct (load_lines py_hash t1 (S count) lines) as [[[t2 c2] out2]|]; [|done].
    injection Heq as <- <- <-. exists out2. split; [done|].
    intros k n [Hin|[Hin|Hin]%elem_of_app]%elem_of_app; [by left| |by right].
    case_decide; [|by apply elem_of_nil in Hin].
    by apply list_elem_of_singleton in Hin. }
  destruct b.
  - intros Heq. destruct (Hsplit _ Heq) as (out2 & Hload & Hout).
    destruct (IH _ _ _ _ _ Hr1 Hload) as (Hr' & Hmono & Hfound).
    split_and!; [done|by intros kv ?; apply Hmono, Hmono1|].
    intros k n Hin. destruct (Hout k n Hin) as [Hin1|Hin2].
    + apply list_elem_of_singleton in Hin1. injection Hin1 as -> _. split.
      * intros v Hv. pose proof (e_keys HI1) as Hnd. rewrite Hperm, fmap_app in Hnd.
        apply NoDup_app in Hnd as (_ & Hdis & _). apply (Hdis key).
        -- apply list_elem_of_fmap. by exists (key, v).
        -- simpl. by left.
      * apply Hmono. rewrite Hperm. apply elem_of_app. right. by left.
    + destruct (Hfound k n Hin2) as [Hno Hst]. split; [|done].
      intros v Hv. apply (Hno v). by apply Hmono1.
  - intros Heq. destruct (Hsplit _ Heq) as (out2 & Hload & Hout).
    destruct (IH _ _ _ _ _ Hr1 Hload) as (Hr' & Hmono & Hfound).
    split_and!; [done|by intros kv ?; apply Hmono, Hmono1|].
    intros k n Hin. destruct (Hout k n Hin) as [Hin1|Hin2]; [by apply elem_of_nil in Hin1|].
    destruct (Hfound k n Hin2) as [Hno Hst]. split; [|done].
    intros v Hv. apply (Hno v). by apply Hmono1.
Qed.

(** X19: what [load_from_file] leaves in a reachable table.  Whatever
    [search] found before the load it finds after it, with the same value;
    and every key reported as inserted was absent before and is found
    afterwards with itself as value. *)
Theorem exthash_load_then_search g0 t filename lines t' out stop :
  reachable py_hash g0 t →
  load_from_file py_hash t filename (Some lines) = Some (t', out, stop) →
  stop = false ∧ reachable py_hash g0 t' ∧
  (∀ k v, search py_hash t k = Some (Some v) → search py_hash t' k = Some (Some v)) ∧
  (∀ key n, InsertedKey key n ∈ out →
            search py_hash t key = Some None ∧ search py_hash t' key = Some (Some key)).
Proof.
  intros Hr. unfold load_from_file.
  destruct (load_lines py_hash t 0 lines) as [[[t1 c1] out1]|] eqn:Hload; [|done].
  intros [= <- <- <-].
  destruct (load_lines_found g0 lines t 0%nat t1 c1 out1 Hr Hload) as (Hr' & Hmono & Hfound).
  pose proof (exthash_reachable_inv py_hash g0 t Hr) as HI.
  pose proof (exthash_reachable_inv py_hash g0 t1 Hr') as HI'.
  split_and!; [done|done| |].
  - intros k v Hs.
    destruct (exthash_search_spec py_hash g0 t k HI) as (r & Hsr & Hrv).
    destruct (exthash_search_spec py_hash g0 t1 k HI') as (r' & -> & Hrv').
    f_equal. apply Hrv', Hmono, Hrv. congruence.
  - intros key n Hin.
    assert (InsertedKey key n ∈ out1) as Hin1.
    { apply elem_of_app in Hin as [?|Hin]; [done|].
      by apply list_elem_of_singleton in Hin. }
    destruct (Hfound key n Hin1) as [Hno Hst]. split.
    + destruct (exthash_search_spec py_hash g0 t key HI) as (r & -> & Hrv).
      f_equal. destruct r as [v|]; [|done]. exfalso. apply (Hno v). by apply Hrv.
    + destruct (exthash_search_spec py_hash g0 t1 key HI') as (r' & -> & Hrv').
      f_equal. by apply Hrv'.
Qed.
End exthash_load.

Lemma exthash_load_then_search_witness :
  let h : Z → Z := fun k => k in
  let t := ExtHash.new (∅ : gmap string (ExtHash.blob Z Z)) 2 1 in
  ∃ t' out,
    ExtHash.load_from_file h t "keys.txt" (Some ["7"; "x"; "8"]%string) =
      Some (t', out, false) ∧
    ExtHashInv.reachable h 1 t' ∧
    (∀ k v, ExtHash.search h t k = Some (Some v) → ExtHash.search h t' k = Some (Some v)) ∧
    (∀ key n, ExtHash.InsertedKey key n ∈ out →
              ExtHash.search h t key = Some None ∧
              ExtHash.search h t' key = Some (Some key)).
Proof.
  intros h t.
  eassert (ExtHash.load_from_file h t "keys.txt" (Some ["7"; "x"; "8"]%string)
           = Some (_, _, false)) as E by (vm_compute; reflexivity).
  match type of E with
  | _ = Some (?T, ?O, _) => exists T, O
  end.
  split; [exact E|].
  refine (proj2 (exthash_load_then_search h 1 t "keys.txt" _ _ _ _ _ E)).
  apply ExtHashInv.reach_new. intros id. apply lookup_empty.
Defined.
